(** * fastaselecth: selector index, stream scanner and reorder buffer

    A shallow embedding of [src/c/fastaselecth.c] (version 1.0.11) and the
    properties of its selection engine.

    Conventions of the embedding.
    - C strings are [string]s; [strcmp] is the byte-wise lexicographic
      comparison and only its sign is used by the program.
    - The three parallel arrays [header_name_list], [group_name_list] and
      [emitorder] are one list of rows: every exchange or move in the
      program is applied to the same index of all three.
    - [int] variables that can hold [-1] ([lastemitted], the result of
      [bin_search], [emitting]) are [Z]; counters and array indices that are
      never negative are [nat].  All of them are bounded by the number of
      selector lines, so the 32-bit range is not modelled.
    - A file is the list of its lines, each ended by a line feed, free
      of null characters and shorter than the line buffer; [get_entries]
      and [main] are the program on such files.  The characters that can
      follow the last line feed of a file (the branches [newline == NULL]
      of lines 211 and 831) are added by [endings], [reading_loop] and
      [main_text].  A line as long as the buffer is outside the model.
    - The functions of the C library ([strcmp], [strcspn], [strspn],
      [sprintf], [fopen]) are modelled from the C standard.
    - An array access out of range, a read through a null pointer and a
      read of released memory are the outcome [Fault]. *)

From Stdlib Require Import ZArith String Ascii Lia Sorted Permutation.
From stdpp Require Import base list strings.

Open Scope string_scope.
Open Scope list_scope.
Open Scope Z_scope.

(** ** Strings *)

(** The sign of C's [strcmp]. *)
Definition strcmp (s1 s2 : string) : comparison := String.compare s1 s2.

(** [strchr(set, c) != NULL] for a non-null character [c]. *)
Fixpoint in_set (c : ascii) (set : string) : bool :=
  match set with
  | EmptyString => false
  | String d set' => if Ascii.eqb c d then true else in_set c set'
  end.

(** Length of the initial segment of [s] with no character of [reject]. *)
Fixpoint strcspn (s reject : string) : nat :=
  match s with
  | EmptyString => O
  | String c s' => if in_set c reject then O else S (strcspn s' reject)
  end.

(** Length of the initial segment of [s] made of characters of [accept]. *)
Fixpoint strspn (s accept : string) : nat :=
  match s with
  | EmptyString => O
  | String c s' => if in_set c accept then S (strspn s' accept) else O
  end.

(** [s] cut after [n] characters ([s[n] = 0]). *)
Fixpoint str_take (n : nat) (s : string) : string :=
  match n, s with
  | S n', String c s' => String c (str_take n' s')
  | _, _ => EmptyString
  end.

(** The string at [s + n]; past the terminator it is read as empty. *)
Fixpoint str_drop (n : nat) (s : string) : string :=
  match n, s with
  | S n', String _ s' => str_drop n' s'
  | _, _ => s
  end.

(** The line with one trailing carriage return removed. *)
Fixpoint chomp_cr (line : string) : string :=
  match line with
  | EmptyString => EmptyString
  | String c EmptyString =>
      if Ascii.eqb c "013"%char then EmptyString else line
  | String c rest => String c (chomp_cr rest)
  end.

(** ** Configuration (the [gbl_] variables) *)

Inductive frag_mode := FRAG_NONE | FRAG_NEW | FRAG_APPEND.

Record config := {
  gbl_hs : string;            (* delimiters of the selection list *)
  gbl_hi : string;            (* delimiters of a stream header *)
  gbl_out : option string;    (* NULL, a path, or a template with %s *)
  gbl_frag : frag_mode;
  gbl_com : bool;
  gbl_cod : bool;
  gbl_reject : bool
}.

Definition frag_on (cfg : config) : bool :=
  match gbl_frag cfg with FRAG_NONE => false | _ => true end.

(** ** Selector rows *)

Record row := {
  name : string;              (* header_name_list[i] *)
  group : option string;      (* group_name_list[i], None for no string *)
  order : nat                 (* emitorder[i] *)
}.

(** Messages on the diagnostic channel. *)
Inductive severity := Warning | FatalError.

Inductive diag :=
| DuplicateSelectorWarning (key : string)
| DidNotFind (sev : severity) (key : string)
| Status (selectors records emitted : nat)
| LastLineWarning.

(** Reasons for [insane] and the other [exit(EXIT_FAILURE)] paths. *)
Inductive fatal :=
| NothingRead
| DuplicateSelectorError
| CouldNotOpenIn
| CouldNotOpenOut
| NonNullStorage
| GroupContiguityError (file : string)
| SinkError (file : string)
| DuplicateMatchError (header : string)
| MissingGroup
| MissingSelectorError
| RecordTooLong.

(** ** get_entries *)

(** One line of the selection list, ended by a line feed: the key and,
    in fragment mode, the group.  [None] when the key is empty.  When no
    group string is found the array cell is left as allocated, which is
    read as no string.  ([get_entries_text] below has the last line
    without line feed.) *)
Definition parse_entry (cfg : config) (bigstring : string)
  : option (string * option string) :=
  let line := chomp_cr bigstring in
  let spanned := strcspn line (gbl_hs cfg) in
  if (0 <? spanned)%nat then
    let key := str_take spanned line in
    if frag_on cfg then
      let rest := str_drop (spanned + 1) line in
      let rest := str_drop (strspn rest (gbl_hs cfg)) rest in
      let spanned2 := strcspn rest (gbl_hs cfg) in
      if (0 <? spanned2)%nat
      then Some (key, Some (str_take spanned2 rest))
      else Some (key, None)
    else Some (key, None)
  else None.

Fixpoint get_entries (cfg : config) (lines : list string)
  : list (string * option string) :=
  match lines with
  | [] => []
  | l :: rest =>
      match parse_entry cfg l with
      | Some e => e :: get_entries cfg rest
      | None => get_entries cfg rest
      end
  end.

(** [for(i=0;i<entrynum;i++){emitorder[i]=i;}] *)
Fixpoint number_from (i : nat) (es : list (string * option string))
  : list row :=
  match es with
  | [] => []
  | (k, g) :: rest =>
      {| name := k; group := g; order := i |} :: number_from (S i) rest
  end.

(** ** sort_entries *)

(** One sweep [for(i=0,j=gap;j<entrynum;i++,j++)], [n] bounding the number
    of iterations left. *)
Fixpoint comb_pass (n i gap : nat) (t : list row) (swaps : nat)
  : list row * nat :=
  match n with
  | O => (t, swaps)
  | S n' =>
      match t !! (i + gap)%nat, t !! i with
      | Some rj, Some ri =>
          match strcmp (name rj) (name ri) with
          | Lt =>
              comb_pass n' (S i) gap
                (<[(i + gap)%nat := ri]> (<[i := rj]> t)) (S swaps)
          | _ => comb_pass n' (S i) gap t swaps
          end
      | _, _ => (t, swaps)
      end
  end.

(** [gap /= shrink] with [shrink = 1.3f], the quotient truncated to [int].
    For a gap below 2^19 the single-precision quotient truncates to the
    same integer as the exact [10 * gap / 13]. *)
Definition shrink_gap (gap : nat) : nat := (gap * 10 / 13)%nat.

(** The loop [for( ;gap>=1;gap/=shrink)]: the table, [done] and [restart]
    when it is left. *)
Fixpoint gap_loop (fuel gap : nat) (t : list row) (restart : nat)
  : list row * bool * nat :=
  match fuel with
  | O => (t, false, restart)
  | S fuel' =>
      if (gap <? 1)%nat then (t, false, restart)
      else
        let '(t', swaps) := comb_pass (length t) 0 gap t 0 in
        if (gap =? 1)%nat then
          if (swaps =? 0)%nat then (t', true, restart)
          else
            let restart' := S restart in
            if (7 <? restart')%nat then (t', false, restart')
            else gap_loop fuel' (shrink_gap gap) t' restart'
        else gap_loop fuel' (shrink_gap gap) t' restart
  end.

Definition first_gap (entrynum : nat) : nat :=
  let gap := (entrynum / 2 - 1)%nat in
  if (gap <? 1)%nat then 1%nat else gap.

(** The loop [for(done=0; !done; )]. *)
Fixpoint sort_loop (fuel : nat) (t : list row) (restart : nat)
  : option (list row) :=
  match fuel with
  | O => None
  | S fuel' =>
      let gap := first_gap (length t) in
      let '(t', done, restart') := gap_loop (S gap) gap t restart in
      if done then Some t' else sort_loop fuel' t' restart'
  end.

(** Every sweep that exchanges two rows raises a potential bounded by the
    cube of the table size, which bounds the number of restarts. *)
Definition sort_fuel (t : list row) : nat :=
  S (length t * length t * length t).

Definition sort_entries (t : list row) : list row :=
  match sort_loop (sort_fuel t) t 0 with
  | Some t' => t'
  | None => t
  end.

(** ** remove_dups *)

(** The loop [for(i=1;i<*entrynum;i++)]; [n] bounds the iterations left.
    Returns the array, [didx] and the warnings, or the fatal error. *)
Fixpoint remove_dups_loop (cfg : config) (n i didx : nat) (dst : string)
  (t : list row) (w : list diag) : fatal + (list row * nat * list diag) :=
  match n with
  | O => inr (t, didx, w)
  | S n' =>
      match t !! i with
      | None => inr (t, didx, w)
      | Some ri =>
          match strcmp dst (name ri) with
          | Eq =>
              if gbl_cod cfg
              then remove_dups_loop cfg n' (S i) didx dst t
                     (w ++ [DuplicateSelectorWarning dst])
              else inl DuplicateSelectorError
          | _ =>
              let didx' := S didx in
              let t' := if (didx' =? i)%nat then t else <[didx' := ri]> t in
              remove_dups_loop cfg n' (S i) didx' (name ri) t' w
          end
      end
  end.

(** The table cut to the new [*entrynum], and the warnings. *)
Definition remove_dups (cfg : config) (t : list row)
  : fatal + (list row * list diag) :=
  match t with
  | [] => inr (t, [])
  | [_] => inr (t, [])
  | r0 :: _ =>
      match remove_dups_loop cfg (length t) 1 0 (name r0) t [] with
      | inl e => inl e
      | inr (t', didx, w) => inr (take (S didx) t', w)
      end
  end.

(** ** bin_search *)

Fixpoint bin_search_loop (fuel : nat) (find_me : string) (tbl : list row)
  (bot top : Z) : Z :=
  match fuel with
  | O => -1
  | S fuel' =>
      if bot <=? top then
        let mid := (bot + top) / 2 in
        match tbl !! Z.to_nat mid with
        | None => -1
        | Some r =>
            match strcmp (name r) find_me with
            | Eq => mid
            | Gt => bin_search_loop fuel' find_me tbl bot (mid - 1)
            | Lt => bin_search_loop fuel' find_me tbl (mid + 1) top
            end
        end
      else -1
  end.

(** Position found, or [-1]. *)
Definition bin_search (find_me : string) (tbl : list row) : Z :=
  bin_search_loop (S (length tbl)) find_me tbl 0
    (Z.of_nat (length tbl) - 1).

(** ** Program state of [main] *)

(** A cell of [emitstrings]: null, a live payload, or a pointer whose
    payload has been written and released with [free]. *)
Inductive slot := Null | Live (payload : string) | Released.

Inductive FILEp := stdout | opened (path : string).

Inductive event :=
| OpenStream
| Fopen (path : string) (mode : string)
| Fclose (f : FILEp)
| Fprintf (f : FILEp) (text : string).

Record state := {
  emitlist : list bool;
  emitstrings : list slot;
  emitgroups : list (option string);
  accumstring : option string;
  emitting : Z;
  emit : bool;
  lastemitted : Z;
  records : nat;
  emitted : nat;
  fout : FILEp;
  last_group : string;
  fs : list string;
  trace : list event;
  stderr : list diag
}.

Definition set_emitlist (v : list bool) (st : state) : state :=
  {| emitlist := v;
     emitstrings := emitstrings st;
     emitgroups := emitgroups st;
     accumstring := accumstring st;
     emitting := emitting st;
     emit := emit st;
     lastemitted := lastemitted st;
     records := records st;
     emitted := emitted st;
     fout := fout st;
     last_group := last_group st;
     fs := fs st;
     trace := trace st;
     stderr := stderr st |}.

Definition set_emitstrings (v : list slot) (st : state) : state :=
  {| emitlist := emitlist st;
     emitstrings := v;
     emitgroups := emitgroups st;
     accumstring := accumstring st;
     emitting := emitting st;
     emit := emit st;
     lastemitted := lastemitted st;
     records := records st;
     emitted := emitted st;
     fout := fout st;
     last_group := last_group st;
     fs := fs st;
     trace := trace st;
     stderr := stderr st |}.

Definition set_emitgroups (v : list (option string)) (st : state) : state :=
  {| emitlist := emitlist st;
     emitstrings := emitstrings st;
     emitgroups := v;
     accumstring := accumstring st;
     emitting := emitting st;
     emit := emit st;
     lastemitted := lastemitted st;
     records := records st;
     emitted := emitted st;
     fout := fout st;
     last_group := last_group st;
     fs := fs st;
     trace := trace st;
     stderr := stderr st |}.

Definition set_accumstring (v : option string) (st : state) : state :=
  {| emitlist := emitlist st;
     emitstrings := emitstrings st;
     emitgroups := emitgroups st;
     accumstring := v;
     emitting := emitting st;
     emit := emit st;
     lastemitted := lastemitted st;
     records := records st;
     emitted := emitted st;
     fout := fout st;
     last_group := last_group st;
     fs := fs st;
     trace := trace st;
     stderr := stderr st |}.

Definition set_emitting (v : Z) (st : state) : state :=
  {| emitlist := emitlist st;
     emitstrings := emitstrings st;
     emitgroups := emitgroups st;
     accumstring := accumstring st;
     emitting := v;
     emit := emit st;
     lastemitted := lastemitted st;
     records := records st;
     emitted := emitted st;
     fout := fout st;
     last_group := last_group st;
     fs := fs st;
     trace := trace st;
     stderr := stderr st |}.

Definition set_emit (v : bool) (st : state) : state :=
  {| emitlist := emitlist st;
     emitstrings := emitstrings st;
     emitgroups := emitgroups st;
     accumstring := accumstring st;
     emitting := emitting st;
     emit := v;
     lastemitted := lastemitted st;
     records := records st;
     emitted := emitted st;
     fout := fout st;
     last_group := last_group st;
     fs := fs st;
     trace := trace st;
     stderr := stderr st |}.

Definition set_lastemitted (v : Z) (st : state) : state :=
  {| emitlist := emitlist st;
     emitstrings := emitstrings st;
     emitgroups := emitgroups st;
     accumstring := accumstring st;
     emitting := emitting st;
     emit := emit st;
     lastemitted := v;
     records := records st;
     emitted := emitted st;
     fout := fout st;
     last_group := last_group st;
     fs := fs st;
     trace := trace st;
     stderr := stderr st |}.

Definition set_records (v : nat) (st : state) : state :=
  {| emitlist := emitlist st;
     emitstrings := emitstrings st;
     emitgroups := emitgroups st;
     accumstring := accumstring st;
     emitting := emitting st;
     emit := emit st;
     lastemitted := lastemitted st;
     records := v;
     emitted := emitted st;
     fout := fout st;
     last_group := last_group st;
     fs := fs st;
     trace := trace st;
     stderr := stderr st |}.

Definition set_emitted (v : nat) (st : state) : state :=
  {| emitlist := emitlist st;
     emitstrings := emitstrings st;
     emitgroups := emitgroups st;
     accumstring := accumstring st;
     emitting := emitting st;
     emit := emit st;
     lastemitted := lastemitted st;
     records := records st;
     emitted := v;
     fout := fout st;
     last_group := last_group st;
     fs := fs st;
     trace := trace st;
     stderr := stderr st |}.

Definition set_fout (v : FILEp) (st : state) : state :=
  {| emitlist := emitlist st;
     emitstrings := emitstrings st;
     emitgroups := emitgroups st;
     accumstring := accumstring st;
     emitting := emitting st;
     emit := emit st;
     lastemitted := lastemitted st;
     records := records st;
     emitted := emitted st;
     fout := v;
     last_group := last_group st;
     fs := fs st;
     trace := trace st;
     stderr := stderr st |}.

Definition set_last_group (v : string) (st : state) : state :=
  {| emitlist := emitlist st;
     emitstrings := emitstrings st;
     emitgroups := emitgroups st;
     accumstring := accumstring st;
     emitting := emitting st;
     emit := emit st;
     lastemitted := lastemitted st;
     records := records st;
     emitted := emitted st;
     fout := fout st;
     last_group := v;
     fs := fs st;
     trace := trace st;
     stderr := stderr st |}.

Definition set_fs (v : list string) (st : state) : state :=
  {| emitlist := emitlist st;
     emitstrings := emitstrings st;
     emitgroups := emitgroups st;
     accumstring := accumstring st;
     emitting := emitting st;
     emit := emit st;
     lastemitted := lastemitted st;
     records := records st;
     emitted := emitted st;
     fout := fout st;
     last_group := last_group st;
     fs := v;
     trace := trace st;
     stderr := stderr st |}.

Definition set_trace (v : list event) (st : state) : state :=
  {| emitlist := emitlist st;
     emitstrings := emitstrings st;
     emitgroups := emitgroups st;
     accumstring := accumstring st;
     emitting := emitting st;
     emit := emit st;
     lastemitted := lastemitted st;
     records := records st;
     emitted := emitted st;
     fout := fout st;
     last_group := last_group st;
     fs := fs st;
     trace := v;
     stderr := stderr st |}.

Definition set_stderr (v : list diag) (st : state) : state :=
  {| emitlist := emitlist st;
     emitstrings := emitstrings st;
     emitgroups := emitgroups st;
     accumstring := accumstring st;
     emitting := emitting st;
     emit := emit st;
     lastemitted := lastemitted st;
     records := records st;
     emitted := emitted st;
     fout := fout st;
     last_group := last_group st;
     fs := fs st;
     trace := trace st;
     stderr := v |}.

(** The files and devices around the program: the lines of the selection
    list and of the record stream ([None] when it cannot be opened), each
    ended by a line feed; the paths that [fopen(path,"r")] can open when
    the program starts (the files that are there and can be read); and
    whether a path can be opened for writing. *)
Record world := {
  sel_file : list string;
  in_file : option (list string);
  existing : list string;
  can_write : string -> bool
}.

Inductive exit_code := EXIT_SUCCESS | EXIT_FAILURE (e : fatal).

Inductive outcome :=
| Exited (code : exit_code) (st : state)
| Faulted.

(** Where control goes after a block of the reading loop. *)
Inductive flow :=
| Next (st : state)
| GotoBye (st : state)
| Insane (e : fatal) (st : state)
| Fault.

Definition bind (f : flow) (k : state -> flow) : flow :=
  match f with
  | Next st => k st
  | other => other
  end.

Notation "'do' x <- f ; k" := (bind f (fun x => k))
  (at level 10, x name, f at level 100, k at level 200).

(** [l[i]] for an [int] index. *)
Definition idx {A : Type} (l : list A) (i : Z) : option A :=
  if i <? 0 then None else l !! Z.to_nat i.

Definition LF : string := String "010"%char EmptyString.

Definition is_header (bigstring : string) : bool :=
  match bigstring with
  | String c _ => Ascii.eqb c ">"%char
  | EmptyString => false
  end.

(** The probe [fopen(temp_name,"r")] of -fragc: it finds the paths of
    [files], those that can be opened for reading. *)
Definition file_exists (path : string) (files : list string) : bool :=
  existsb (String.eqb path) files.

(** [sprintf(temp_name,gbl_out,last_group)] for a template whose only
    percent sign is the one of [%s], and a name that fits [temp_name]:
    the template with the argument in the place of [%s].  [sprintf] below
    tells which templates and names these are. *)
Fixpoint sprintf_s (template arg : string) : string :=
  match template with
  | EmptyString => EmptyString
  | String c rest =>
      match rest with
      | String d rest' =>
          if Ascii.eqb c "%"%char && Ascii.eqb d "s"%char
          then arg +:+ rest'
          else String c (sprintf_s rest arg)
      | EmptyString => template
      end
  end.




(** ** The flush of one position *)

(** [fout = fopen(temp_name,mode); if(!fout) insane(...)].  A file that
    the program has opened for writing is from then on one that it can
    open for reading. *)
Definition open_sink (w : world) (path mode : string) (st : state) : flow :=
  if can_write w path then
    Next (set_fs (path :: fs st)
           (set_fout (opened path)
             (set_trace (trace st ++ [Fopen path mode]) st)))
  else Insane (SinkError path) st.

(** [if(gbl_frag && strcmp(last_group,emitgroups[lastemitted])){...}].
    The two copies of this block in [main] differ only in a null test of
    [fout], which is never null there. *)
Definition switch_sink (cfg : config) (w : world) (st : state) : flow :=
  match gbl_frag cfg with
  | FRAG_NONE => Next st
  | mode =>
      match idx (emitgroups st) (lastemitted st), gbl_out cfg with
      | Some (Some g), Some template =>
          match strcmp (last_group st) g with
          | Eq => Next st
          | _ =>
              let st := set_last_group g st in
              let st := set_trace (trace st ++ [Fclose (fout st)]) st in
              let temp_name := sprintf_s template g in
              match mode with
              | FRAG_APPEND => open_sink w temp_name "a" st
              | _ =>
                  if file_exists temp_name (fs st)
                  then Insane (GroupContiguityError temp_name) st
                  else open_sink w temp_name "w" st
              end
          end
      | _, _ => Fault
      end
  end.

(** Position [lastemitted] is written to the sink and released. *)
Definition emit_slot (cfg : config) (w : world) (st : state) : flow :=
  do st <- switch_sink cfg w st;
  match idx (emitstrings st) (lastemitted st) with
  | Some (Live s) =>
      Next (set_emitstrings
              (<[Z.to_nat (lastemitted st) := Released]> (emitstrings st))
              (set_trace (trace st ++ [Fprintf (fout st) s]) st))
  | _ => Fault
  end.

(** The loop [while(1)] that writes the strings as soon as the next one in
    order is available. *)
Fixpoint drain (fuel : nat) (cfg : config) (w : world) (entrynum : nat)
  (st : state) : flow :=
  match fuel with
  | O => Fault
  | S fuel' =>
      match idx (emitstrings st) (lastemitted st + 1) with
      | None => Fault
      | Some Null => Next st
      | Some _ =>
          do st <- emit_slot cfg w (set_lastemitted (lastemitted st + 1) st);
          if lastemitted st =? Z.of_nat entrynum - 1
          then GotoBye st
          else drain fuel' cfg w entrynum st
      end
  end.

(** ** The reading loop *)

(** A new entry: the preceding one, if it was being accumulated, is stored
    in [emitstrings] and the buffer is drained. *)
Definition store_accum (cfg : config) (w : world) (tbl : list row)
  (st : state) : flow :=
  match accumstring st with
  | None => Next st
  | Some acc =>
      match idx tbl (emitting st) with
      | None => Fault
      | Some r =>
          match emitstrings st !! order r with
          | None => Fault
          | Some Null =>
              let st :=
                set_emitstrings (<[order r := Live acc]> (emitstrings st)) st in
              let st := set_emitting 0 (set_accumstring None st) in
              drain (S (length (emitstrings st))) cfg w (length tbl) st
          | Some _ => Insane NonNullStorage st
          end
      end
  end.

(** The name searched for: the header after [>], cut at the first
    delimiter unless the delimiter is its first character. *)
Definition header_key (cfg : config) (bigstring : string) : string :=
  let bptr := str_drop 1 bigstring in
  let b_num_chars := strcspn bptr (gbl_hi cfg) in
  if (0 <? b_num_chars)%nat then str_take b_num_chars bptr else bptr.

(** The block under [if(!gbl_reject)] of a match. *)
Definition select_match (cfg : config) (tbl : list row) (matched : Z)
  (bptr : string) (st : state) : flow :=
  let st := set_emitting matched st in
  match idx (emitlist st) matched with
  | None => Fault
  | Some true => Insane (DuplicateMatchError bptr) st
  | Some false =>
      let st :=
        set_emitlist (<[Z.to_nat matched := true]> (emitlist st)) st in
      if frag_on cfg then
        match idx tbl matched with
        | None => Fault
        | Some r =>
            match group r with
            | None => Insane MissingGroup st
            | Some g =>
                if (String.length g =? 0)%nat then Insane MissingGroup st
                else if (order r <? length (emitgroups st))%nat
                then Next (set_emitgroups
                             (<[order r := Some g]> (emitgroups st)) st)
                else Fault
            end
        end
      else Next st
  end.

(** A header line is counted and, in select mode, the entry before it is
    stored and the buffer drained. *)
Definition new_entry (cfg : config) (w : world) (tbl : list row)
  (st : state) : flow :=
  let st := set_records (S (records st)) st in
  if gbl_reject cfg then Next st else store_accum cfg w tbl st.

(** Does the name in [bigstring] match anything in the list? *)
Definition match_entry (cfg : config) (tbl : list row) (bigstring : string)
  (st : state) : flow :=
  let st := set_emit false st in
  let matched := bin_search (header_key cfg bigstring) tbl in
  if xorb (negb (matched =? -1)) (gbl_reject cfg) then
    do st <- (if gbl_reject cfg then Next st
              else select_match cfg tbl matched (str_drop 1 bigstring) st);
    Next (set_emitted (S (emitted st))
           (set_accumstring None (set_emit true st)))
  else Next st.

(** The block under [if(bigstring[0] == '>')]. *)
Definition on_header (cfg : config) (w : world) (tbl : list row)
  (bigstring : string) (st : state) : flow :=
  do st <- new_entry cfg w tbl st;
  match_entry cfg tbl bigstring st.

(** The block under [if(emit)]. *)
Definition accumulate (cfg : config) (bigstring : string) (st : state)
  : state :=
  if emit st then
    if gbl_reject cfg
    then set_trace (trace st ++ [Fprintf (fout st) (bigstring +:+ LF)]) st
    else
      let sofar := match accumstring st with Some a => a | None => "" end in
      set_accumstring (Some (sofar +:+ bigstring +:+ LF)) st
  else st.

(** One iteration of the reading loop, on one line of the stream. *)
Definition step (cfg : config) (w : world) (tbl : list row) (st : state)
  (line : string) : flow :=
  let bigstring := chomp_cr line in
  do st <- (if is_header bigstring then on_header cfg w tbl bigstring st
            else Next st);
  Next (accumulate cfg bigstring st).

(** ** After the reading loop *)

(** The selectors that were not found, in table order. *)
Fixpoint missing (sev : severity) (tbl : list row) (flags : list bool)
  : list diag :=
  match tbl, flags with
  | r :: tbl', f :: flags' =>
      (if f then [] else [DidNotFind sev (name r)]) ++ missing sev tbl' flags'
  | _, _ => []
  end.

(** The loop [for(lastemitted++; lastemitted < entrynum; lastemitted++)],
    entered with [lastemitted] already incremented and [n] iterations
    left. *)
Fixpoint final_drain (n : nat) (cfg : config) (w : world) (st : state)
  : flow :=
  match n with
  | O => Next st
  | S n' =>
      match idx (emitstrings st) (lastemitted st) with
      | None => Fault
      | Some Null =>
          final_drain n' cfg w (set_lastemitted (lastemitted st + 1) st)
      | Some _ =>
          do st <- emit_slot cfg w st;
          final_drain n' cfg w (set_lastemitted (lastemitted st + 1) st)
      end
  end.

(** The label [bye]: the sink is closed and the status line printed. *)
Definition bye (tbl : list row) (st : state) : outcome :=
  let st :=
    match fout st with
    | stdout => st
    | f => set_trace (trace st ++ [Fclose f]) st
    end in
  Exited EXIT_SUCCESS
    (set_stderr
       (stderr st ++ [Status (length tbl) (records st) (emitted st)]) st).

(** [emitstrings[emitorder[emitting]]=accumstring] after the loop. *)
Definition store_last (tbl : list row) (st : state) : option state :=
  match accumstring st with
  | None => Some st
  | Some acc =>
      match idx tbl (emitting st) with
      | None => None
      | Some r =>
          if (order r <? length (emitstrings st))%nat
          then Some (set_emitstrings
                       (<[order r := Live acc]> (emitstrings st)) st)
          else None
      end
  end.

(** From the end of the reading loop to [exit]. *)
Definition finish (cfg : config) (w : world) (tbl : list row) (st : state)
  : outcome :=
  let entrynum := Z.of_nat (length tbl) in
  let short :=
    negb (gbl_reject cfg) && (Z.of_nat (emitted st) <=? entrynum - 1) in
  let sev := if gbl_com cfg then Warning else FatalError in
  let st :=
    if short
    then set_stderr (stderr st ++ missing sev tbl (emitlist st)) st
    else st in
  if short && negb (gbl_com cfg)
  then Exited (EXIT_FAILURE MissingSelectorError) st
  else
    match store_last tbl st with
    | None => Faulted
    | Some st =>
        let st := set_lastemitted (lastemitted st + 1) st in
        match final_drain (Z.to_nat (entrynum - lastemitted st)) cfg w st with
        | Next st => bye tbl st
        | GotoBye st => bye tbl st
        | Insane e st => Exited (EXIT_FAILURE e) st
        | Fault => Faulted
        end
    end.

(** The reading loop over the lines of a stream that ends with a line
    feed, then [finish].  [reading_loop] below adds the branch
    [newline == NULL] for the characters after the last line feed. *)
Fixpoint scan (cfg : config) (w : world) (tbl : list row) (st : state)
  (lines : list string) : outcome :=
  match lines with
  | [] => finish cfg w tbl st
  | line :: rest =>
      match step cfg w tbl st line with
      | Next st => scan cfg w tbl st rest
      | GotoBye st => bye tbl st
      | Insane e st => Exited (EXIT_FAILURE e) st
      | Fault => Faulted
      end
  end.

(** ** main *)

(** The arrays allocated with [calloc] for [entrynum] selector lines. *)
Definition init_state (entrynum : nat) (files : list string)
  (warnings : list diag) : state :=
  {| emitlist := replicate entrynum false;
     emitstrings := replicate entrynum Null;
     emitgroups := replicate entrynum None;
     accumstring := None;
     emitting := 0;
     emit := false;
     lastemitted := -1;
     records := 0;
     emitted := 0;
     fout := stdout;
     last_group := "";
     fs := files;
     trace := [];
     stderr := warnings |}.

(** The selector table: read, numbered, sorted, duplicates removed. *)
Definition build_index (cfg : config) (lines : list string)
  : fatal + (list row * list diag) :=
  remove_dups cfg (sort_entries (number_from 0 (get_entries cfg lines))).

(** The sink opened before the reading loop. *)
Definition open_out (cfg : config) (w : world) (st : state) : flow :=
  if frag_on cfg then Next st
  else
    match gbl_out cfg with
    | None => Next st
    | Some path =>
        if String.eqb path "-" then Next st
        else if can_write w path then
          Next (set_fs (path :: fs st)
                 (set_fout (opened path)
                   (set_trace (trace st ++ [Fopen path "w"]) st)))
        else Insane CouldNotOpenOut st
    end.

Definition main (cfg : config) (w : world) : outcome :=
  let entrynum := length (get_entries cfg (sel_file w)) in
  if (entrynum =? 0)%nat
  then Exited (EXIT_FAILURE NothingRead) (init_state 0 (existing w) [])
  else
    match build_index cfg (sel_file w) with
    | inl e => Exited (EXIT_FAILURE e) (init_state entrynum (existing w) [])
    | inr (tbl, warnings) =>
        let st := init_state entrynum (existing w) warnings in
        match in_file w with
        | None => Exited (EXIT_FAILURE CouldNotOpenIn) st
        | Some lines =>
            let st := set_trace (trace st ++ [OpenStream]) st in
            match open_out cfg w st with
            | Next st => scan cfg w tbl st lines
            | GotoBye st => bye tbl st
            | Insane e st => Exited (EXIT_FAILURE e) st
            | Fault => Faulted
            end
        end
    end.

(** The payloads written to the sinks, in order. *)
Fixpoint written (tr : list event) : list string :=
  match tr with
  | [] => []
  | Fprintf _ text :: tr' => text :: written tr'
  | _ :: tr' => written tr'
  end.

(** ** A last line without a line feed *)

(** What [fgets] delivers after the lines of a file that end with a line
    feed: nothing when the file ends with one, otherwise the characters
    after the last line feed ([newline == NULL], lines 211 and 831).
    [sel_stdin] tells that [gbl_sel] is ["-"]: [get_entries] has then read
    standard input to its end, and [feof(stdin)] holds in [main]. *)
Record endings := {
  sel_stdin : bool;
  sel_rest : option string;
  in_rest : option string
}.

(** In a fragment mode [rest = bigstring+spanned+1] (line 230) points
    past the terminator that [fgets] wrote when the key runs to the end of
    a last line without line feed: the group is then read from what
    earlier lines left in [bigstring]. *)
Definition past_terminator (cfg : config) (last : string) : bool :=
  frag_on cfg
  && (0 <? strcspn (chomp_cr last) (gbl_hs cfg))%nat
  && (strcspn (chomp_cr last) (gbl_hs cfg) =? String.length last)%nat.


(** [get_entries] on a file with its ending: the entries and the warning
    of line 216.  [None] is the read past the terminator, which the model
    does not follow. *)
Definition get_entries_text (cfg : config) (lines : list string)
  (rest : option string)
  : option (list (string * option string) * list diag) :=
  match rest with
  | Some (String c s) =>
      if past_terminator cfg (String c s) then None
      else Some (get_entries cfg (lines ++ [String c s]), [LastLineWarning])
  | _ => Some (get_entries cfg lines, [])
  end.

(** The reading loop of [main] on a stream with its ending.  A line
    without line feed is fatal unless [feof(stdin)] holds (line 832 tests
    standard input, not the stream); when it holds the line is read like
    the others after a warning. *)
Fixpoint reading_loop (cfg : config) (w : world) (feof_stdin : bool)
  (tbl : list row) (st : state) (lines : list string)
  (rest : option string) : outcome :=
  match lines with
  | line :: more =>
      match step cfg w tbl st line with
      | Next st => reading_loop cfg w feof_stdin tbl st more rest
      | GotoBye st => bye tbl st
      | Insane e st => Exited (EXIT_FAILURE e) st
      | Fault => Faulted
      end
  | [] =>
      match rest with
      | Some (String c s) =>
          if feof_stdin then
            let st := set_stderr (stderr st ++ [LastLineWarning]) st in
            match step cfg w tbl st (String c s) with
            | Next st => finish cfg w tbl st
            | GotoBye st => bye tbl st
            | Insane e st => Exited (EXIT_FAILURE e) st
            | Fault => Faulted
            end
          else Exited (EXIT_FAILURE RecordTooLong) st
      | _ => finish cfg w tbl st
      end
  end.

(** [main] on files with their endings.  [main] above is this function on
    files that end with a line feed. *)
Definition main_text (cfg : config) (w : world) (e : endings) : outcome :=
  match get_entries_text cfg (sel_file w) (sel_rest e) with
  | None => Faulted
  | Some (entries, notes) =>
      let entrynum := length entries in
      if (entrynum =? 0)%nat
      then Exited (EXIT_FAILURE NothingRead) (init_state 0 (existing w) notes)
      else
        match remove_dups cfg (sort_entries (number_from 0 entries)) with
        | inl err =>
            Exited (EXIT_FAILURE err) (init_state entrynum (existing w) notes)
        | inr (tbl, warnings) =>
            let st := init_state entrynum (existing w) (notes ++ warnings) in
            match in_file w with
            | None => Exited (EXIT_FAILURE CouldNotOpenIn) st
            | Some lines =>
                let st := set_trace (trace st ++ [OpenStream]) st in
                match open_out cfg w st with
                | Next st =>
                    reading_loop cfg w (sel_stdin e) tbl st lines (in_rest e)
                | GotoBye st => bye tbl st
                | Insane err st => Exited (EXIT_FAILURE err) st
                | Fault => Faulted
                end
            end
        end
  end.

(** Both files end with a line feed; the selection list is read from a
    file. *)
Definition lf_ended : endings :=
  {| sel_stdin := false; sel_rest := None; in_rest := None |}.

(** * Definitions used in the statements *)

(** [a <= b]: [strcmp(a,b)] is not positive. *)
Definition str_le (a b : string) : Prop := strcmp a b <> Gt.

(** The number of rows of [t] whose name is below [k]. *)
Fixpoint count_below (k : string) (t : list row) : nat :=
  match t with
  | [] => O
  | r :: t' =>
      (match strcmp (name r) k with Lt => 1 | _ => 0 end + count_below k t')%nat
  end.

(** The potential raised by every exchange: the sum over the table of
    index times rank. *)
Fixpoint potential (t0 : list row) (i : nat) (t : list row) : nat :=
  match t with
  | [] => O
  | r :: t' => (i * count_below (name r) t0 + potential t0 (S i) t')%nat
  end.

(** Adjacent rows are in order. *)
Definition sorted_names (t : list row) : Prop :=
  forall i a b, t !! i = Some a -> t !! S i = Some b ->
    str_le (name a) (name b).

(** The rows kept after a kept row named [dst]. *)
Fixpoint dedup_adj (dst : string) (t : list row) : list row :=
  match t with
  | [] => []
  | r :: t' =>
      match strcmp dst (name r) with
      | Eq => dedup_adj dst t'
      | _ => r :: dedup_adj (name r) t'
      end
  end.

Definition dedup_first (t : list row) : list row :=
  match t with
  | [] => []
  | r :: t' => r :: dedup_adj (name r) t'
  end.

(** One warning for every row dropped. *)
Fixpoint dup_warnings (dst : string) (t : list row) : list diag :=
  match t with
  | [] => []
  | r :: t' =>
      match strcmp dst (name r) with
      | Eq => DuplicateSelectorWarning dst :: dup_warnings dst t'
      | _ => dup_warnings (name r) t'
      end
  end.

Definition all_warnings (t : list row) : list diag :=
  match t with
  | [] => []
  | r :: t' => dup_warnings (name r) t'
  end.

Definition name_lt (a b : row) : Prop := strcmp (name a) (name b) = Lt.

(** The structural form of [sorted_names]. *)
Fixpoint chain (t : list row) : Prop :=
  match t with
  | a :: (b :: _) as t' => str_le (name a) (name b) /\ chain t'
  | _ => True
  end.

(** The first row of [t] named [k]. *)
Definition first_named (k : string) (t : list row) : option row :=
  List.find (fun x => String.eqb (name x) k) t.

(** What main knows about the table when the reading loop starts:
    [entries] are the selector lines read, [tbl] the table after
    [remove_dups]. *)
Record index_ok (entries : list (string * option string))
  (tbl : list row) : Prop := {
  ix_sorted : StronglySorted name_lt tbl;
  ix_rows : forall r, r ∈ tbl ->
    (order r < length entries)%nat /\
    entries !! order r = Some (name r, group r);
  ix_orders : NoDup (map order tbl);
  ix_length : (length tbl <= length entries)%nat;
  ix_keys : forall e, e ∈ entries -> exists r, r ∈ tbl /\ name r = e.1;
  ix_first : forall r, r ∈ tbl ->
    first_named (name r) (sort_entries (number_from 0 entries)) = Some r
}.

(** The default delimiters of [process_command_line_args]. *)
Definition default_hs : string := String "|"%char (String "009"%char " :").

Definition default_hi : string :=
  String "001"%char (String "009"%char " ").

Definition select_cfg (com cod : bool) : config :=
  {| gbl_hs := default_hs; gbl_hi := default_hi; gbl_out := None;
     gbl_frag := FRAG_NONE; gbl_com := com; gbl_cod := cod;
     gbl_reject := false |}.

Definition fragc_cfg (com : bool) : config :=
  {| gbl_hs := default_hs; gbl_hi := default_hi;
     gbl_out := Some "out_%s.fa";
     gbl_frag := FRAG_NEW; gbl_com := com; gbl_cod := false;
     gbl_reject := false |}.

Definition reject_cfg : config :=
  {| gbl_hs := default_hs; gbl_hi := default_hi; gbl_out := None;
     gbl_frag := FRAG_NONE; gbl_com := false; gbl_cod := false;
     gbl_reject := true |}.

Definition plain_world (sel stream : list string) : world :=
  {| sel_file := sel; in_file := Some stream; existing := [];
     can_write := fun _ => true |}.

Definition exit_of (o : outcome) : option exit_code :=
  match o with Exited c _ => Some c | Faulted => None end.

Definition output_of (o : outcome) : list string :=
  match o with Exited _ st => written (trace st) | Faulted => [] end.

Definition trace_of (o : outcome) : list event :=
  match o with Exited _ st => trace st | Faulted => [] end.

Definition stderr_of (o : outcome) : list diag :=
  match o with Exited _ st => stderr st | Faulted => [] end.

(** The claim of the specification that the duplicate kept is the one met
    first in the selection list. *)
Definition keeps_earliest (cfg : config) (lines : list string) : Prop :=
  forall tbl warnings r p e,
    build_index cfg lines = inr (tbl, warnings) -> r ∈ tbl ->
    get_entries cfg lines !! p = Some e -> e.1 = name r ->
    (order r <= p)%nat.

(** The reading loop alone, over some lines of the stream. *)
Fixpoint steps (cfg : config) (w : world) (tbl : list row) (st : state)
  (lines : list string) : flow :=
  match lines with
  | [] => Next st
  | line :: rest =>
      do st <- step cfg w tbl st line;
      steps cfg w tbl st rest
  end.

(** The state in which main enters the reading loop. *)
Definition started (cfg : config) (w : world) (tbl : list row)
  (st : state) : Prop :=
  exists warnings,
    build_index cfg (sel_file w) = inr (tbl, warnings) /\
    get_entries cfg (sel_file w) <> [] /\
    open_out cfg w
      (set_trace [OpenStream]
         (init_state (length (get_entries cfg (sel_file w)))
            (existing w) warnings))
    = Next st.

(** The states of the reading loop between two lines. *)
Definition reachable (cfg : config) (w : world) (tbl : list row)
  (st : state) : Prop :=
  exists st0 lines,
    started cfg w tbl st0 /\ steps cfg w tbl st0 lines = Next st.

(** The state after the lines read so far, for the examples. *)
Definition state_after (cfg : config) (w : world) (tbl : list row)
  (st0 : state) (lines : list string) : state :=
  match steps cfg w tbl st0 lines with
  | Next st => st
  | _ => st0
  end.

Definition table_of (cfg : config) (sel : list string) : list row :=
  match build_index cfg sel with
  | inr (tbl, _) => tbl
  | inl _ => []
  end.

Definition start_of (cfg : config) (w : world) : state :=
  match
    open_out cfg w
      (set_trace [OpenStream]
         (init_state (length (get_entries cfg (sel_file w))) (existing w)
            (match build_index cfg (sel_file w) with
             | inr (_, warnings) => warnings
             | inl _ => []
             end)))
  with
  | Next st => st
  | _ => init_state O [] []
  end.


(** Every file opened so far exists. *)
Definition files_kept (st : state) : Prop :=
  forall path mode,
    Fopen path mode ∈ trace st -> file_exists path (fs st) = true.

(** [last_group = emitgroups[lastemitted]; fclose(fout);] *)
Definition close_current (g : string) (st : state) : state :=
  set_trace (trace st ++ [Fclose (fout st)]) (set_last_group g st).


(** The fields that no flush touches. *)
Definition same_scanner (st st' : state) : Prop :=
  emitlist st' = emitlist st /\ emitgroups st' = emitgroups st /\
  accumstring st' = accumstring st /\ emitting st' = emitting st /\
  emit st' = emit st /\ records st' = records st /\
  emitted st' = emitted st /\ stderr st' = stderr st.

Definition is_live (s : slot) : bool :=
  match s with Live _ => true | _ => false end.

(** The number of payloads held in [emitstrings]. *)
Fixpoint count_live (slots : list slot) : nat :=
  match slots with
  | [] => O
  | s :: rest => ((if is_live s then 1 else 0) + count_live rest)%nat
  end.

Definition resident (st : state) : nat := count_live (emitstrings st).

(** The highest position whose cell is not null, [-1] when all are. *)
Fixpoint highest_filled (slots : list slot) : Z :=
  match slots with
  | [] => -1
  | s :: rest =>
      let h := highest_filled rest in
      if h <? 0 then match s with Null => -1 | _ => 0 end else h + 1
  end.

(** Positions up to [lastemitted] are released, the others are not. *)
Definition flushed_released (st : state) : Prop :=
  -1 <= lastemitted st < Z.of_nat (length (emitstrings st)) /\
  forall p s, emitstrings st !! p = Some s ->
    (Z.of_nat p <= lastemitted st -> s = Released) /\
    (lastemitted st < Z.of_nat p -> s <> Released).

(** [content p] is the payload stored so far for output position [p]. *)
Definition update (content : nat -> option string) (q : nat) (a : string)
  : nat -> option string :=
  fun p => if (p =? q)%nat then Some a else content p.

(** The cell of position [p] when [content] has been stored and the
    positions up to [last] written. *)
Definition slot_of (content : nat -> option string) (last : Z) (p : nat)
  : slot :=
  if Z.of_nat p <=? last then Released
  else match content p with Some s => Live s | None => Null end.

Fixpoint count_true (flags : list bool) : nat :=
  match flags with
  | [] => O
  | f :: rest => ((if f then 1 else 0) + count_true rest)%nat
  end.

(** The payloads of positions [from], ..., [from + n - 1] that have one. *)
Definition payloads (content : nat -> option string) (from n : nat)
  : list string :=
  omap content (seq from n).

(** The buffer holds [content], written up to [lastemitted]. *)
Record buffer_inv (cfg : config) (tbl : list row) (n : nat)
  (content : nat -> option string) (st : state) : Prop := {
  bi_slots_len : length (emitstrings st) = n;
  bi_groups_len : length (emitgroups st) = n;
  bi_cursor : -1 <= lastemitted st <= Z.of_nat (length tbl) - 1;
  bi_slots : forall p, (p < n)%nat ->
    emitstrings st !! p = Some (slot_of content (lastemitted st) p);
  bi_written :
    written (trace st)
    = payloads content 0 (Z.to_nat (lastemitted st + 1));
  bi_flushed : forall p,
    Z.of_nat p <= lastemitted st -> is_Some (content p);
  bi_groups : frag_on cfg = true -> forall p,
    is_Some (content p) -> exists g, emitgroups st !! p = Some (Some g)
}.

(** The scanner between two lines: flags, the record being accumulated,
    the counter of selected records. *)
Record scanner_inv (cfg : config) (tbl : list row) (n : nat)
  (content : nat -> option string) (st : state) : Prop := {
  si_flags_len : length (emitlist st) = n;
  si_flags : forall i r, tbl !! i = Some r ->
    exists b, emitlist st !! i = Some b /\
      (b = true <->
       is_Some (content (order r)) \/
       (is_Some (accumstring st) /\ emitting st = Z.of_nat i));
  si_accum :
    match accumstring st with
    | Some _ =>
        emit st = true /\
        exists r, idx tbl (emitting st) = Some r /\
          content (order r) = None /\
          (frag_on cfg = true ->
           exists g, emitgroups st !! order r = Some (Some g))
    | None => emit st = false
    end;
  si_emitted :
    emitted st = count_true (take (length tbl) (emitlist st));
  si_rows : forall p, is_Some (content p) ->
    exists r, r ∈ tbl /\ order r = p
}.

(** The table as main has it when the reading loop starts. *)
Record table_ok (cfg : config) (tbl : list row) (n : nat) : Prop := {
  tk_select : gbl_reject cfg = false;
  tk_out : frag_on cfg = true -> is_Some (gbl_out cfg);
  tk_rows : forall r, r ∈ tbl -> (order r < n)%nat;
  tk_orders : NoDup (map order tbl);
  tk_length : (0 < length tbl <= n)%nat
}.

(** A sink could not be opened. *)
Definition sink_failure (e : fatal) : Prop :=
  match e with
  | GroupContiguityError _ | SinkError _ => True
  | _ => False
  end.

(** The content after the record being accumulated has been stored. *)
Definition stored (tbl : list row) (st : state)
  (content : nat -> option string) : nat -> option string :=
  match accumstring st with
  | Some a =>
      match idx tbl (emitting st) with
      | Some r => update content (order r) a
      | None => content
      end
  | None => content
  end.

(** The content after a line has been read. *)
Definition advance (tbl : list row) (st : state) (line : string)
  (content : nat -> option string) : nat -> option string :=
  if is_header (chomp_cr line) then stored tbl st content else content.

(** The flags after the record being accumulated has been stored. *)
Definition flags_inv (tbl : list row) (content : nat -> option string)
  (flags : list bool) : Prop :=
  forall i r, tbl !! i = Some r ->
    exists b, flags !! i = Some b /\
      (b = true <-> is_Some (content (order r))).

(** What the block at a new entry leaves of the scanner. *)
Definition after_store (st r : state) : Prop :=
  emitlist r = emitlist st /\ emitgroups r = emitgroups st /\
  accumstring r = None /\ emit r = emit st /\ emitted r = emitted st /\
  stderr r = stderr st /\ records r = S (records st).

(** The record being accumulated after a line has been read. *)
Definition next_accum (cfg : config) (tbl : list row) (st : state)
  (line : string) : option string :=
  let l := chomp_cr line in
  if is_header l then
    if bin_search (header_key cfg l) tbl =? -1 then None
    else Some ("" +:+ l +:+ LF)
  else
    match accumstring st with
    | Some a => Some (a +:+ l +:+ LF)
    | None => None
    end.

(** The cell of position [p] while the final loop is at position [c]. *)
Definition slot_final (content : nat -> option string) (c p : nat) : slot :=
  match content p with
  | Some s => if (p <? c)%nat then Released else Live s
  | None => Null
  end.

Definition no_content : nat -> option string := fun _ => None.



(** A record of the stream: the header line and the lines up to the next
    header. *)
Record fasta := { header : string; body : list string }.

Definition wf_record (rec : fasta) : Prop :=
  is_header (chomp_cr (header rec)) = true /\
  Forall (fun l => is_header (chomp_cr l) = false) (body rec).

Definition lines_of (recs : list fasta) : list string :=
  flat_map (fun rec => header rec :: body rec) recs.

(** The name under which a record is searched. *)
Definition key_of (cfg : config) (rec : fasta) : string :=
  header_key cfg (chomp_cr (header rec)).

(** The lines of a record, each ended by a line feed. *)
Definition payload_from (a : string) (lines : list string) : string :=
  fold_left (fun a l => a +:+ chomp_cr l +:+ LF) lines a.

Definition payload (rec : fasta) : string :=
  payload_from "" (header rec :: body rec).

(** The first record of the stream with key [k]. *)
Definition found (cfg : config) (k : string) (recs : list fasta)
  : option fasta :=
  List.find (fun rec => String.eqb (key_of cfg rec) k) recs.

(** The row of output position [p]. *)
Definition row_at (tbl : list row) (p : nat) : option row :=
  List.find (fun r => Nat.eqb (order r) p) tbl.

(** The payload that the records [recs] give to position [p]. *)
Definition content_of (cfg : config) (tbl : list row) (recs : list fasta)
  : nat -> option string :=
  fun p =>
    match row_at tbl p with
    | Some r =>
        match found cfg (name r) recs with
        | Some rec => Some (payload rec)
        | None => None
        end
    | None => None
    end.

Definition option_list {A : Type} (o : option A) : list A :=
  match o with Some a => [a] | None => [] end.

(** The record being read, when the records [done] are behind it. *)
Definition reading (cfg : config) (tbl : list row) (done : list fasta)
  (cur : option fasta) (st : state) : Prop :=
  match cur with
  | None => accumstring st = None
  | Some rec =>
      if bin_search (key_of cfg rec) tbl =? -1
      then accumstring st = None
      else
        accumstring st = Some (payload rec) /\
        emitting st = bin_search (key_of cfg rec) tbl /\
        found cfg (key_of cfg rec) done = None
  end.

(** The unmatched selectors, and only they, are reported with severity
    [sev] on the diagnostic channel. *)
Definition reports_unmatched (cfg : config) (tbl : list row)
  (recs : list fasta) (sev : severity) (st : state) : Prop :=
  forall k,
    DidNotFind sev k ∈ stderr st <->
    exists r, r ∈ tbl /\ name r = k /\ found cfg k recs = None.

(** The keys of the selection list, in the order of the list. *)
Definition selector_keys (cfg : config) (sel : list string) : list string :=
  map fst (get_entries cfg sel).

(** The records of the keys of the selection list that occur in the
    stream, in the order of the list. *)
Definition expected_output (cfg : config) (sel : list string)
  (recs : list fasta) : list string :=
  omap (fun k => match found cfg k recs with
                 | Some rec => Some (payload rec)
                 | None => None
                 end) (selector_keys cfg sel).

(** No key of the selection list occurs twice in the stream. *)
Definition matched_once (cfg : config) (sel : list string)
  (recs : list fasta) : Prop :=
  NoDup (filter (fun k => k ∈ selector_keys cfg sel)
           (map (key_of cfg) recs)).

Definition rec_of (h : string) (b : list string) : fasta :=
  {| header := h; body := b |}.


(** * The command line *)

(** ** convert_escape *)

Inductive escape_state :=
| NORMAL | ESCAPE | CONTROL | DNUMERIC | ONUMERIC | XNUMERIC.

Definition UCHAR_MAX : N := 255.

(** The number of a character, as [unsigned char]. *)
Definition ord (c : ascii) : N := N_of_ascii c.

(** [*parsed = c; parsed++] before the rest of the string is parsed. *)
Definition put (c : N) (rest : option string) : option string :=
  match rest with
  | Some parsed => Some (String (ascii_of_N c) parsed)
  | None => None
  end.

Definition between (lo c hi : N) : bool := ((lo <=? c) && (c <=? hi))%N.

(** The terminator is read: only the NORMAL state accepts it. *)
Definition at_terminator (state : escape_state) : option string :=
  match state with
  | NORMAL => Some EmptyString
  | _ => None
  end.

(** The loop [for(scan = parsed = string; ok; scan++)].  The result is
    the parsed string when [status] is 1 and [None] when it is 0.  A
    character of number 0 inside [scan] is the terminator of the C
    string. *)
Fixpoint convert_loop (state : escape_state) (sum : N) (count : nat)
  (scan : string) : option string :=
  match scan with
  | EmptyString => at_terminator state
  | String ch rest =>
      let c := ord ch in
      if (c =? 0)%N then at_terminator state
      else
        match state with
        | NORMAL =>
            if (c =? ord "\")%N then convert_loop ESCAPE sum count rest
            else if (c =? ord "^")%N then convert_loop CONTROL sum count rest
            else put c (convert_loop NORMAL sum count rest)
        | ESCAPE =>
            if (c =? ord "\")%N
            then put c (convert_loop NORMAL sum count rest)
            else if (c =? ord "a")%N
            then put 7 (convert_loop NORMAL sum count rest)
            else if (c =? ord "b")%N
            then put 8 (convert_loop NORMAL sum count rest)
            else if (c =? ord "f")%N
            then put 12 (convert_loop NORMAL sum count rest)
            else if (c =? ord "t")%N
            then put 9 (convert_loop NORMAL sum count rest)
            else if (c =? ord "r")%N
            then put 13 (convert_loop NORMAL sum count rest)
            else if (c =? ord "n")%N
            then put 10 (convert_loop NORMAL sum count rest)
            else if (c =? ord "d")%N then convert_loop DNUMERIC 0 0 rest
            else if (c =? ord "o")%N then convert_loop ONUMERIC 0 0 rest
            else if (c =? ord "x")%N then convert_loop XNUMERIC 0 0 rest
            else if between (ord "0") c (ord "9")
            then convert_loop DNUMERIC (c - ord "0") 1 rest
            else put c (convert_loop NORMAL sum count rest)
        | CONTROL => put (N.land c 31) (convert_loop NORMAL sum count rest)
        | DNUMERIC =>
            if between (ord "0") c (ord "9") then
              let sum := (10 * sum + (c - ord "0"))%N in
              let count := S count in
              if (count =? 3)%nat then
                if (UCHAR_MAX <? sum)%N then None
                else put sum (convert_loop NORMAL sum count rest)
              else convert_loop DNUMERIC sum count rest
            else None
        | ONUMERIC =>
            if between (ord "0") c (ord "7") then
              let sum := (8 * sum + (c - ord "0"))%N in
              let count := S count in
              if (count =? 3)%nat then
                if (UCHAR_MAX <? sum)%N then None
                else put sum (convert_loop NORMAL sum count rest)
              else convert_loop ONUMERIC sum count rest
            else None
        | XNUMERIC =>
            let digit :=
              if between (ord "0") c (ord "9") then Some (c - ord "0")%N
              else if between (ord "A") c (ord "F")
              then Some (10 + c - ord "A")%N
              else if between (ord "a") c (ord "f")
              then Some (10 + c - ord "a")%N
              else None in
            match digit with
            | Some d =>
                let sum := (16 * sum + d)%N in
                let count := S count in
                if (count =? 2)%nat
                then put sum (convert_loop NORMAL sum count rest)
                else convert_loop XNUMERIC sum count rest
            | None => None
            end
        end
  end.

Definition convert_escape (str : string) : option string :=
  convert_loop NORMAL 0 0 str.

(** The bytes of a buffer up to the first terminator: the buffer as the
    string functions read it. *)
Fixpoint c_str (bytes : string) : string :=
  match bytes with
  | EmptyString => EmptyString
  | String ch rest =>
      if (ord ch =? 0)%N then EmptyString else String ch (c_str rest)
  end.

(** ** lcl_strcasecmp *)

(** [toupper] in the C locale, on the codes below 128. *)
Definition toupper (c : N) : N :=
  if between (ord "a") c (ord "z") then (c - 32)%N else c.

(** [*s] as an [int]; 0 at the terminator. *)
Definition deref (s : string) : N :=
  match s with
  | EmptyString => 0%N
  | String ch _ => ord ch
  end.

(** The result is [None] when a byte above 127 is read: [char] may be
    signed, the argument of [toupper] is then negative, and the program
    text does not fix what is returned. *)
Fixpoint lcl_strcasecmp (s1 s2 : string) : option Z :=
  let c1 := deref s1 in
  let c2 := deref s2 in
  if (127 <? c1)%N || (127 <? c2)%N then None
  else if (toupper c1 <? toupper c2)%N then Some (-1)
  else if (toupper c2 <? toupper c1)%N then Some 1
  else if (toupper c1 =? 0)%N then Some 0
  else
    match s1, s2 with
    | String _ s1', String _ s2' => lcl_strcasecmp s1' s2'
    | _, _ => Some 0
    end.

(** ** setirangenumeric *)

Definition INT_MAX : Z := 2147483647.
Definition INT_MIN : Z := -2147483648.
Definition MYMAXSTRING : Z := 10000000.

Definition isspace (c : N) : bool := ((c =? 32) || between 9 c 13)%N.

Fixpoint skip_space (s : string) : string :=
  match s with
  | String ch rest => if isspace (ord ch) then skip_space rest else s
  | EmptyString => s
  end.

(** The value of the decimal digits at the start of [s], after the value
    [acc] of those already read; [seen] tells whether there was one. *)
Fixpoint scan_digits (acc : Z) (seen : bool) (s : string) : option Z :=
  match s with
  | String ch rest =>
      if between (ord "0") (ord ch) (ord "9")
      then scan_digits (10 * acc + Z.of_N (ord ch - ord "0")) true rest
      else if seen then Some acc else None
  | EmptyString => if seen then Some acc else None
  end.

Inductive scanned := Matched (v : Z) | NoMatch | OutOfRange.

(** [sscanf(text,"%d",val)]: white space, a sign, decimal digits; what
    follows the digits is not looked at.  A value that an [int] cannot
    hold is [OutOfRange], for which the C standard fixes no result. *)
Definition sscanf_d (text : string) : scanned :=
  let s := skip_space text in
  let '(negative, s) :=
    match s with
    | String ch rest =>
        if (ord ch =? ord "-")%N then (true, rest)
        else if (ord ch =? ord "+")%N then (false, rest)
        else (false, s)
    | EmptyString => (false, s)
    end in
  match scan_digits 0 false s with
  | None => NoMatch
  | Some v =>
      let v := if negative then - v else v in
      if (INT_MIN <=? v) && (v <=? INT_MAX) then Matched v else OutOfRange
  end.

(** Why [process_command_line_args] ends the program. *)
Inductive stop :=
| Help
| Info
| Hhead
| UnknownArgument (arg : string)
| MissingArgument (label : string)
| BadInteger (label arg : string)
| TooLow (label arg : string)
| TooHigh (label arg : string)
| SelectTerminatorSyntax
| FileTerminatorSyntax
| NoIn
| NoSel
| NoTemplate
| FragWithReject.

(** [exit(EXIT_SUCCESS)] for the three requests for information,
    [exit(EXIT_FAILURE)] for the rest. *)
Definition stop_is_success (why : stop) : bool :=
  match why with
  | Help | Info | Hhead => true
  | _ => false
  end.

(** A step of the argument parser: it goes on with a value, ends the
    program, or does what the C standard leaves undefined (a null pointer
    handed to [strlen] or [strstr], a byte above 127 handed to
    [toupper], a number too large for [sscanf]). *)
Inductive parsed (A : Type) :=
| Done (a : A)
| Halt (why : stop)
| Undefined.

Arguments Done {A} a.
Arguments Halt {A} why.
Arguments Undefined {A}.

(** [args] are the arguments from [argv[*numarg + 1]] on; the value is
    the one left in [*val]. *)
Definition setirangenumeric (lower upper : Z) (args : list string)
  (label : string) : parsed Z :=
  match args with
  | [] => Halt (MissingArgument label)
  | arg :: _ =>
      match sscanf_d arg with
      | NoMatch => Halt (BadInteger label arg)
      | OutOfRange => Undefined
      | Matched v =>
          if v <? lower then Halt (TooLow label arg)
          else if upper <? v then Halt (TooHigh label arg)
          else Done v
      end
  end.

(** ** process_command_line_args *)

(** The global variables that the command line sets. *)
Record globals := {
  g_hs : string;
  g_hi : string;
  g_in : option string;
  g_sel : option string;
  g_out : option string;
  g_frag : frag_mode;
  g_com : bool;
  g_cod : bool;
  g_wl : Z;
  g_reject : bool
}.

Definition initial_globals : globals :=
  {| g_hs := default_hs; g_hi := default_hi;
     g_in := None; g_sel := None; g_out := None;
     g_frag := FRAG_NONE; g_com := false; g_cod := false;
     g_wl := MYMAXSTRING; g_reject := false |}.

Definition set_g_hs (v : string) (g : globals) : globals :=
  {| g_hs := v; g_hi := g_hi g; g_in := g_in g; g_sel := g_sel g;
     g_out := g_out g; g_frag := g_frag g; g_com := g_com g;
     g_cod := g_cod g; g_wl := g_wl g; g_reject := g_reject g |}.

Definition set_g_hi (v : string) (g : globals) : globals :=
  {| g_hs := g_hs g; g_hi := v; g_in := g_in g; g_sel := g_sel g;
     g_out := g_out g; g_frag := g_frag g; g_com := g_com g;
     g_cod := g_cod g; g_wl := g_wl g; g_reject := g_reject g |}.

Definition set_g_in (v : option string) (g : globals) : globals :=
  {| g_hs := g_hs g; g_hi := g_hi g; g_in := v; g_sel := g_sel g;
     g_out := g_out g; g_frag := g_frag g; g_com := g_com g;
     g_cod := g_cod g; g_wl := g_wl g; g_reject := g_reject g |}.

Definition set_g_sel (v : option string) (g : globals) : globals :=
  {| g_hs := g_hs g; g_hi := g_hi g; g_in := g_in g; g_sel := v;
     g_out := g_out g; g_frag := g_frag g; g_com := g_com g;
     g_cod := g_cod g; g_wl := g_wl g; g_reject := g_reject g |}.

Definition set_g_out (v : option string) (g : globals) : globals :=
  {| g_hs := g_hs g; g_hi := g_hi g; g_in := g_in g; g_sel := g_sel g;
     g_out := v; g_frag := g_frag g; g_com := g_com g;
     g_cod := g_cod g; g_wl := g_wl g; g_reject := g_reject g |}.

Definition set_g_frag (v : frag_mode) (g : globals) : globals :=
  {| g_hs := g_hs g; g_hi := g_hi g; g_in := g_in g; g_sel := g_sel g;
     g_out := g_out g; g_frag := v; g_com := g_com g;
     g_cod := g_cod g; g_wl := g_wl g; g_reject := g_reject g |}.

Definition set_g_com (v : bool) (g : globals) : globals :=
  {| g_hs := g_hs g; g_hi := g_hi g; g_in := g_in g; g_sel := g_sel g;
     g_out := g_out g; g_frag := g_frag g; g_com := v;
     g_cod := g_cod g; g_wl := g_wl g; g_reject := g_reject g |}.

Definition set_g_cod (v : bool) (g : globals) : globals :=
  {| g_hs := g_hs g; g_hi := g_hi g; g_in := g_in g; g_sel := g_sel g;
     g_out := g_out g; g_frag := g_frag g; g_com := g_com g;
     g_cod := v; g_wl := g_wl g; g_reject := g_reject g |}.

Definition set_g_wl (v : Z) (g : globals) : globals :=
  {| g_hs := g_hs g; g_hi := g_hi g; g_in := g_in g; g_sel := g_sel g;
     g_out := g_out g; g_frag := g_frag g; g_com := g_com g;
     g_cod := g_cod g; g_wl := v; g_reject := g_reject g |}.

Definition set_g_reject (v : bool) (g : globals) : globals :=
  {| g_hs := g_hs g; g_hi := g_hi g; g_in := g_in g; g_sel := g_sel g;
     g_out := g_out g; g_frag := g_frag g; g_com := g_com g;
     g_cod := g_cod g; g_wl := g_wl g; g_reject := v |}.

(** [if(lcl_strcasecmp(argv[numarg], name)==0) yes else no] *)
Definition when_option {A : Type} (arg name : string) (yes no : parsed A)
  : parsed A :=
  match lcl_strcasecmp arg name with
  | None => Undefined
  | Some v => if v =? 0 then yes else no
  end.

(** The branch of the chain of [if ... else if] that an argument takes. *)
Inductive option_name :=
| OptHelp | OptInfo | OptHhead | OptIn | OptOut | OptSel | OptFragc
| OptFraga | OptReject | OptWl | OptHs | OptHi | OptCom | OptCod
| OptUnknown.

(** The comparisons of the chain, in the order of the program text. *)
Definition which_option (arg : string) : parsed option_name :=
  when_option arg "-h" (Done OptHelp)
 (when_option arg "--h" (Done OptHelp)
 (when_option arg "-?" (Done OptHelp)
 (when_option arg "--?" (Done OptHelp)
 (when_option arg "-help" (Done OptHelp)
 (when_option arg "--help" (Done OptHelp)
 (when_option arg "-i" (Done OptInfo)
 (when_option arg "-hhead" (Done OptHhead)
 (when_option arg "-in" (Done OptIn)
 (when_option arg "-out" (Done OptOut)
 (when_option arg "-sel" (Done OptSel)
 (when_option arg "-fragc" (Done OptFragc)
 (when_option arg "-fraga" (Done OptFraga)
 (when_option arg "-reject" (Done OptReject)
 (when_option arg "-wl" (Done OptWl)
 (when_option arg "-ht" (Done OptHs)
 (when_option arg "-hs" (Done OptHs)
 (when_option arg "-hi" (Done OptHi)
 (when_option arg "-com" (Done OptCom)
 (when_option arg "-cod" (Done OptCod)
 (Done OptUnknown)))))))))))))))))))).

(** The loop [while( ++numarg < argc)] over the arguments that are left.
    [argv[argc]] is the null pointer, which is what an option that takes
    the next argument gets when it is the last one. *)
Fixpoint parse_args (g : globals) (args : list string) : parsed globals :=
  match args with
  | [] => Done g
  | arg :: rest =>
      match which_option arg with
      | Undefined => Undefined
      | Halt why => Halt why
      | Done OptHelp => Halt Help
      | Done OptInfo => Halt Info
      | Done OptHhead => Halt Hhead
      | Done OptIn =>
          match rest with
          | v :: rest' => parse_args (set_g_in (Some v) g) rest'
          | [] => Done (set_g_in None g)
          end
      | Done OptOut =>
          match rest with
          | v :: rest' => parse_args (set_g_out (Some v) g) rest'
          | [] => Done (set_g_out None g)
          end
      | Done OptSel =>
          match rest with
          | v :: rest' => parse_args (set_g_sel (Some v) g) rest'
          | [] => Done (set_g_sel None g)
          end
      | Done OptFragc => parse_args (set_g_frag FRAG_NEW g) rest
      | Done OptFraga => parse_args (set_g_frag FRAG_APPEND g) rest
      | Done OptReject => parse_args (set_g_reject true g) rest
      | Done OptWl =>
          match setirangenumeric 1 INT_MAX rest "-wl", rest with
          | Done n, _ :: rest' => parse_args (set_g_wl n g) rest'
          | Done n, [] => Done (set_g_wl n g)
          | Halt why, _ => Halt why
          | Undefined, _ => Undefined
          end
      | Done OptHs =>
          match rest with
          | v :: rest' =>
              match convert_escape v with
              | Some bytes => parse_args (set_g_hs (c_str bytes) g) rest'
              | None => Halt SelectTerminatorSyntax
              end
          | [] => Undefined
          end
      | Done OptHi =>
          match rest with
          | v :: rest' =>
              match convert_escape v with
              | Some bytes => parse_args (set_g_hi (c_str bytes) g) rest'
              | None => Halt FileTerminatorSyntax
              end
          | [] => Undefined
          end
      | Done OptCom => parse_args (set_g_com true g) rest
      | Done OptCod => parse_args (set_g_cod true g) rest
      | Done OptUnknown => Halt (UnknownArgument arg)
      end
  end.

(** [strstr(s,"%s") != NULL] *)
Fixpoint has_conversion (s : string) : bool :=
  match s with
  | String c rest =>
      match rest with
      | String d _ =>
          (Ascii.eqb c "%"%char && Ascii.eqb d "s"%char)
          || has_conversion rest
      | EmptyString => false
      end
  | EmptyString => false
  end.

(** The checks under [sanity checking]. *)
Definition sanity (g : globals) : parsed globals :=
  match g_in g with
  | None => Halt NoIn
  | Some _ =>
      match g_sel g with
      | None => Halt NoSel
      | Some _ =>
          match g_frag g with
          | FRAG_NONE => Done g
          | _ =>
              match g_out g with
              | None => Undefined
              | Some template =>
                  if has_conversion template then
                    if g_reject g then Halt FragWithReject else Done g
                  else Halt NoTemplate
              end
          end
      end
  end.

(** [args] are [argv[1]], ..., [argv[argc-1]]. *)
Definition process_command_line_args (args : list string)
  : parsed globals :=
  match parse_args initial_globals args with
  | Done g => sanity g
  | Halt why => Halt why
  | Undefined => Undefined
  end.

(** The settings that [main] and the functions it calls read. *)
Definition config_of (g : globals) : config :=
  {| gbl_hs := g_hs g; gbl_hi := g_hi g; gbl_out := g_out g;
     gbl_frag := g_frag g; gbl_com := g_com g; gbl_cod := g_cod g;
     gbl_reject := g_reject g |}.

(** * Definitions used in the further statements *)

Definition CR : string := String "013"%char EmptyString.

(** The world [w] with other lines in its two files. *)
Definition with_files (w : world) (sel : list string)
  (stream : option (list string)) : world :=
  {| sel_file := sel;
     in_file := stream;
     existing := existing w;
     can_write := can_write w |}.

(** The files of [w] with every line ended by a carriage return. *)
Definition dos_files (w : world) : world :=
  with_files w (map (fun l => l +:+ CR) (sel_file w))
    (option_map (map (fun l => l +:+ CR)) (in_file w)).

(** Is the key of the record one of the keys of the selection list? *)
Definition selected (cfg : config) (sel : list string) (rec : fasta) : bool :=
  existsb (String.eqb (key_of cfg rec)) (selector_keys cfg sel).

(** The lines of a record as -reject writes them. *)
Definition record_lines (rec : fasta) : list string :=
  map (fun l => chomp_cr l +:+ LF) (header rec :: body rec).

(** The lines of the records whose key is not in the selection list. *)
Definition rejected_lines (cfg : config) (sel : list string)
  (recs : list fasta) : list string :=
  flat_map (fun rec => if selected cfg sel rec then [] else record_lines rec)
    recs.

Definition rejected_count (cfg : config) (sel : list string)
  (recs : list fasta) : nat :=
  length (List.filter (fun rec => negb (selected cfg sel rec)) recs).

(** A property of the states that a block of the reading loop can leave:
    [P] where the loop goes on or jumps to [bye], [Q] where it ends in
    [insane]. *)
Definition flow_inv (P Q : state -> Prop) (f : flow) : Prop :=
  match f with
  | Next st | GotoBye st => P st
  | Insane _ st => Q st
  | Fault => True
  end.


Definition outcome_inv (Q : state -> Prop) (o : outcome) : Prop :=
  match o with
  | Exited _ st => Q st
  | Faulted => True
  end.

(** The sink of a run without -frag: standard output, or the -out file. *)
Definition sink_of (cfg : config) : FILEp :=
  match gbl_out cfg with
  | Some path => if String.eqb path "-" then stdout else opened path
  | None => stdout
  end.

(** An event of a run without -frag: writes and the closing go to the one
    sink, and the only file opened is -out, for writing. *)
Definition one_sink_event (cfg : config) (ev : event) : Prop :=
  match ev with
  | OpenStream => True
  | Fopen path mode => sink_of cfg = opened path /\ mode = "w"
  | Fclose f => f = sink_of cfg /\ f <> stdout
  | Fprintf f _ => f = sink_of cfg
  end.

Definition one_sink_trace (cfg : config) (st : state) : Prop :=
  Forall (one_sink_event cfg) (trace st).

Definition one_sink (cfg : config) (st : state) : Prop :=
  fout st = sink_of cfg /\ one_sink_trace cfg st.

(** The payload [s] holds a record whose header line has the key [k]. *)
Definition record_of_key (cfg : config) (k s : string) : Prop :=
  exists l rest,
    s = (l +:+ LF) +:+ rest /\ is_header l = true /\ header_key cfg l = k.

(** An event of a run with -fragc or -fraga: a record is written only to
    the file that the template names for the group of a table row with
    the key of the record. *)
Definition routed_event (cfg : config) (template : string)
  (tbl : list row) (ev : event) : Prop :=
  match ev with
  | Fprintf f s =>
      exists r g,
        r ∈ tbl /\ group r = Some g /\
        f = opened (sprintf_s template g) /\
        record_of_key cfg (name r) s
  | _ => True
  end.

Definition routed (cfg : config) (template : string) (tbl : list row)
  (st : state) : Prop :=
  Forall (routed_event cfg template tbl) (trace st).

(** What the reading loop keeps true of the group cells, the payloads
    held, the record being accumulated and the current sink. *)
Record route_inv (cfg : config) (template : string) (tbl : list row)
  (st : state) : Prop := {
  ri_groups : forall p g,
    emitgroups st !! p = Some (Some g) ->
    g <> "" /\ exists r, r ∈ tbl /\ order r = p /\ group r = Some g;
  ri_cells : forall p s,
    emitstrings st !! p = Some (Live s) ->
    (exists r, r ∈ tbl /\ order r = p /\ record_of_key cfg (name r) s) /\
    exists g, emitgroups st !! p = Some (Some g);
  ri_accum : forall a,
    accumstring st = Some a ->
    exists r,
      idx tbl (emitting st) = Some r /\ record_of_key cfg (name r) a /\
      exists g, emitgroups st !! order r = Some (Some g);
  ri_sink :
    (last_group st = "" /\ fout st = stdout) \/
    fout st = opened (sprintf_s template (last_group st));
  ri_trace : routed cfg template tbl st
}.


(** What a run of the reading loop in reject mode leaves of a state:
    [n] header lines counted, [e] of them written with their records as
    the lines [out]. *)
Record reject_run (st st' : state) (n e : nat) (out : list string)
  : Prop := {
  rr_slots : emitstrings st' = emitstrings st;
  rr_cursor : lastemitted st' = lastemitted st;
  rr_accum : accumstring st' = None;
  rr_fout : fout st' = fout st;
  rr_stderr : stderr st' = stderr st;
  rr_records : records st' = (records st + n)%nat;
  rr_emitted : emitted st' = (emitted st + e)%nat;
  rr_trace : trace st' = trace st ++ map (Fprintf (fout st)) out
}.

(** A string in upper case, character by character. *)
Fixpoint upper (s : string) : string :=
  match s with
  | EmptyString => EmptyString
  | String ch rest => String (ascii_of_N (toupper (ord ch))) (upper rest)
  end.

(** Every character is one that [lcl_strcasecmp] can read: not the
    terminator, not above 127. *)
Fixpoint ascii_text (s : string) : bool :=
  match s with
  | EmptyString => true
  | String ch rest => between 1 (ord ch) 127 && ascii_text rest
  end.

(** No character starts an escape or ends the string. *)
Fixpoint plain_text (s : string) : bool :=
  match s with
  | EmptyString => true
  | String ch rest =>
      negb (ord ch =? 0)%N && negb (ord ch =? ord "\")%N
      && negb (ord ch =? ord "^")%N && plain_text rest
  end.

Definition hex_digit (n : N) : ascii :=
  match String.get (N.to_nat n) "0123456789abcdef" with
  | Some ch => ch
  | None => "0"%char
  end.

(** A character written as backslash, x and two hexadecimal digits. *)
Definition hex_escape (ch : ascii) : string :=
  String "\" (String "x"
    (String (hex_digit (ord ch / 16))
       (String (hex_digit (ord ch mod 16)) EmptyString))).

Fixpoint escape (s : string) : string :=
  match s with
  | EmptyString => EmptyString
  | String ch rest => hex_escape ch +:+ escape rest
  end.

(** The character of a decimal digit. *)
Definition digit_char (d : N) : ascii := ascii_of_N (ord "0" + d).

Definition three_digits (a b c : N) : string :=
  String (digit_char a) (String (digit_char b)
    (String (digit_char c) EmptyString)).

(** A command line for the settings [g], with the terminator sets written
    as hexadecimal escapes. *)
Definition render (g : globals) : list string :=
  match g_in g with Some v => ["-in"; v] | None => [] end
  ++ match g_sel g with Some v => ["-sel"; v] | None => [] end
  ++ match g_out g with Some v => ["-out"; v] | None => [] end
  ++ match g_frag g with
     | FRAG_NONE => []
     | FRAG_NEW => ["-fragc"]
     | FRAG_APPEND => ["-fraga"]
     end
  ++ (if g_reject g then ["-reject"] else [])
  ++ (if g_com g then ["-com"] else [])
  ++ (if g_cod g then ["-cod"] else [])
  ++ ["-hs"; escape (g_hs g); "-hi"; escape (g_hi g)].

(** What every run of the argument parser keeps of the settings. *)
Definition settings_inv (g : globals) : Prop :=
  1 <= g_wl g <= INT_MAX /\
  c_str (g_hs g) = g_hs g /\ c_str (g_hi g) = g_hi g.

(** The files opened for writing or appending, in the order of the
    events. *)
Fixpoint opened_files (tr : list event) : list string :=
  match tr with
  | [] => []
  | Fopen path _ :: tr' => path :: opened_files tr'
  | _ :: tr' => opened_files tr'
  end.

(** No file is opened twice, and none that could be opened for reading
    when the run started. *)
Definition fresh_files (w : world) (st : state) : Prop :=
  NoDup (opened_files (trace st)) /\
  forall path, path ∈ opened_files (trace st) -> path ∉ existing w.

(** The files that the probe finds: those of the world and those opened
    so far. *)
Definition files_known (w : world) (st : state) : Prop :=
  fresh_files w st /\
  forall path,
    path ∈ fs st <-> path ∈ opened_files (trace st) \/ path ∈ existing w.

(** * Properties *)

(** ** The order of [strcmp] *)

Lemma strcmp_refl s : strcmp s s = Eq.
Proof.
  unfold strcmp. induction s as [|c s IH]; simpl; [reflexivity|].
  unfold Ascii.compare. rewrite N.compare_refl. exact IH.
Qed.

Lemma strcmp_eq a b : strcmp a b = Eq -> a = b.
Proof. apply String.compare_eq_iff. Qed.

Lemma strcmp_antisym a b : strcmp a b = CompOpp (strcmp b a).
Proof. apply String.compare_antisym. Qed.

Lemma strcmp_gt_lt a b : strcmp a b = Gt <-> strcmp b a = Lt.
Proof.
  rewrite (strcmp_antisym a b). destruct (strcmp b a); simpl; split; congruence.
Qed.

Lemma strcmp_lt_trans a b c :
  strcmp a b = Lt -> strcmp b c = Lt -> strcmp a c = Lt.
Proof.
  unfold strcmp. revert b c.
  induction a as [|x a IH]; intros [|y b] [|z c]; simpl; try congruence.
  unfold Ascii.compare.
  destruct (N.compare_spec (N_of_ascii x) (N_of_ascii y)) as [E1|L1|G1];
    destruct (N.compare_spec (N_of_ascii y) (N_of_ascii z)) as [E2|L2|G2];
    try congruence; intros H1 H2.
  - rewrite E1, E2, N.compare_refl. eauto.
  - rewrite E1. apply N.compare_lt_iff in L2. now rewrite L2.
  - rewrite <- E2. apply N.compare_lt_iff in L1. now rewrite L1.
  - assert (L : (N_of_ascii x < N_of_ascii z)%N) by lia.
    apply N.compare_lt_iff in L. now rewrite L.
Qed.

Lemma strcmp_lt_irrefl a : strcmp a a <> Lt.
Proof. rewrite strcmp_refl. discriminate. Qed.

Lemma str_le_lt_trans a b c :
  str_le a b -> strcmp b c = Lt -> strcmp a c = Lt.
Proof.
  unfold str_le. intros H1 H2. destruct (strcmp a b) eqn:E; [| |congruence].
  - apply strcmp_eq in E. now subst.
  - eapply strcmp_lt_trans; eauto.
Qed.

Lemma str_lt_le_trans a b c :
  strcmp a b = Lt -> str_le b c -> strcmp a c = Lt.
Proof.
  unfold str_le. intros H1 H2. destruct (strcmp b c) eqn:E; [| |congruence].
  - apply strcmp_eq in E. now subst.
  - eapply strcmp_lt_trans; eauto.
Qed.

Lemma str_le_trans a b c : str_le a b -> str_le b c -> str_le a c.
Proof.
  intros H1 H2. unfold str_le. intros G. apply strcmp_gt_lt in G.
  destruct (strcmp b c) eqn:E.
  - apply strcmp_eq in E. subst. apply strcmp_gt_lt in G. contradiction.
  - pose proof (strcmp_lt_trans _ _ _ E G) as L.
    apply strcmp_gt_lt in L. contradiction.
  - contradiction.
Qed.

(** ** sort_entries sorts *)

Lemma count_below_le k t : (count_below k t <= length t)%nat.
Proof.
  induction t as [|r t IH]; simpl; [lia|].
  destruct (strcmp (name r) k); lia.
Qed.

Lemma count_below_mono a b t :
  strcmp a b = Lt -> (count_below a t <= count_below b t)%nat.
Proof.
  intros L. induction t as [|r t IH]; simpl; [lia|].
  destruct (strcmp (name r) a) eqn:E.
  - destruct (strcmp (name r) b); lia.
  - rewrite (strcmp_lt_trans _ _ _ E L). lia.
  - destruct (strcmp (name r) b); lia.
Qed.

Lemma count_below_strict a b t r :
  strcmp a b = Lt -> r ∈ t -> name r = a ->
  (count_below a t < count_below b t)%nat.
Proof.
  intros L Hin Hr. induction Hin as [r t|r r' t Hin IH]; simpl.
  - subst a. rewrite strcmp_refl, L.
    pose proof (count_below_mono _ _ t L). simpl. lia.
  - specialize (IH Hr).
    destruct (strcmp (name r') a) eqn:E.
    + destruct (strcmp (name r') b); lia.
    + rewrite (strcmp_lt_trans _ _ _ E L). lia.
    + destruct (strcmp (name r') b); lia.
Qed.

Lemma potential_insert t0 t k i x y :
  t !! i = Some y ->
  (potential t0 k (<[i:=x]> t) + (k + i) * count_below (name y) t0
   = potential t0 k t + (k + i) * count_below (name x) t0)%nat.
Proof.
  revert k i. induction t as [|r t IH]; intros k [|i] H; simpl in *;
    try discriminate.
  - injection H as ->. rewrite Nat.add_0_r. lia.
  - specialize (IH (S k) i H). lia.
Qed.

Lemma potential_bound t0 t k :
  (potential t0 k t <= length t * (k + length t) * length t0)%nat.
Proof.
  revert k. induction t as [|r t IH]; intros k; simpl; [lia|].
  specialize (IH (S k)). pose proof (count_below_le (name r) t0). nia.
Qed.

Lemma potential_swap t0 t i j ri rj :
  (i < j)%nat -> t !! i = Some ri -> t !! j = Some rj ->
  strcmp (name rj) (name ri) = Lt -> rj ∈ t0 ->
  (potential t0 0 t < potential t0 0 (<[j:=ri]> (<[i:=rj]> t)))%nat.
Proof.
  intros Hij Hi Hj L Hin.
  pose proof (potential_insert t0 t 0 i rj ri Hi) as E1.
  assert (Hj' : <[i:=rj]> t !! j = Some rj)
    by (rewrite list_lookup_insert_ne; [exact Hj|lia]).
  pose proof (potential_insert t0 (<[i:=rj]> t) 0 j ri rj Hj') as E2.
  pose proof (count_below_strict _ _ t0 rj L Hin eq_refl) as S.
  simpl in *. nia.
Qed.

Lemma comb_pass_spec t0 gap n : forall i t s t' s',
  (0 < gap)%nat -> t ≡ₚ t0 ->
  comb_pass n i gap t s = (t', s') ->
  t' ≡ₚ t0 /\ (s <= s')%nat /\
  (potential t0 0 t + (s' - s) <= potential t0 0 t')%nat /\
  (s' = s ->
   t' = t /\
   forall k a b, (i <= k < i + n)%nat -> t !! k = Some a ->
     t !! (k + gap)%nat = Some b -> strcmp (name b) (name a) <> Lt).
Proof.
  induction n as [|n IH]; intros i t s t' s' Hgap Hp H; simpl in H.
  - injection H as <- <-. split; [|split; [|split]]; auto; try lia.
    intros _. split; auto. intros; lia.
  - destruct (t !! (i + gap)%nat) as [rj|] eqn:Hj;
      [destruct (t !! i) as [ri|] eqn:Hi|].
    + assert (Keep : comb_pass n (S i) gap t s = (t', s') ->
                     strcmp (name rj) (name ri) <> Lt ->
        t' ≡ₚ t0 /\ (s <= s')%nat /\
        (potential t0 0 t + (s' - s) <= potential t0 0 t')%nat /\
        (s' = s ->
         t' = t /\
         forall k a b, (i <= k < i + S n)%nat -> t !! k = Some a ->
           t !! (k + gap)%nat = Some b -> strcmp (name b) (name a) <> Lt)).
      { intros H' C.
        destruct (IH _ _ _ _ _ Hgap Hp H') as (P & Ls & Pot & Same).
        split; [|split; [|split]]; auto.
        intros Hs. destruct (Same Hs) as [Ht Hall]. split; auto.
        intros k a b Hk Ha Hb. destruct (decide (k = i)) as [->|Hne].
        - rewrite Hi in Ha. rewrite Hj in Hb. injection Ha as <-.
          injection Hb as <-. exact C.
        - apply (Hall k a b); auto. lia. }
      destruct (strcmp (name rj) (name ri)) eqn:C.
      * apply Keep; auto; discriminate.
      * assert (Hp' : <[(i + gap)%nat:=ri]> (<[i:=rj]> t) ≡ₚ t0).
        { etransitivity; [|exact Hp].
          apply Permutation_insert_swap; auto. }
        destruct (IH _ _ _ _ _ Hgap Hp' H) as (P & Ls & Pot & Same).
        assert (Hin : rj ∈ t0).
        { rewrite <- Hp. eapply list_elem_of_lookup_2; eauto. }
        pose proof (potential_swap t0 t i (i + gap) ri rj
                      ltac:(lia) Hi Hj C Hin).
        split; [|split; [|split]]; auto; try lia.
      * apply Keep; auto; discriminate.
    + injection H as <- <-. split; [|split; [|split]]; auto; try lia.
      intros _. split; auto. intros k a b Hk Ha Hb.
      apply lookup_lt_Some in Hb. apply lookup_lt_Some in Hj.
      apply lookup_ge_None in Hi. lia.
    + injection H as <- <-. split; [|split; [|split]]; auto; try lia.
      intros _. split; auto. intros k a b Hk Ha Hb.
      apply lookup_lt_Some in Hb. apply lookup_ge_None in Hj. lia.
Qed.

Lemma shrink_gap_lt g : (1 <= g)%nat -> (shrink_gap g < g)%nat.
Proof.
  intros H. unfold shrink_gap. apply Nat.Div0.div_lt_upper_bound. lia.
Qed.

Lemma shrink_gap_pos g : (2 <= g)%nat -> (1 <= shrink_gap g)%nat.
Proof.
  intros H. unfold shrink_gap. apply Nat.div_le_lower_bound; lia.
Qed.

Lemma gap_loop_spec t0 fuel : forall gap t r t' d r',
  (1 <= gap)%nat -> (gap < fuel)%nat -> t ≡ₚ t0 ->
  gap_loop fuel gap t r = (t', d, r') ->
  t' ≡ₚ t0 /\
  (if d then sorted_names t'
   else (potential t0 0 t < potential t0 0 t')%nat).
Proof.
  induction fuel as [|f IH]; intros gap t r t' d r' Hg Hf Hp H; [lia|].
  simpl in H.
  destruct (gap <? 1)%nat eqn:G1; [apply Nat.ltb_lt in G1; lia|].
  destruct (comb_pass (length t) 0 gap t 0) as [t1 swaps] eqn:CP.
  destruct (comb_pass_spec t0 gap _ _ _ _ _ _ Hg Hp CP)
    as (P1 & _ & Pot & Same).
  destruct (gap =? 1)%nat eqn:G2.
  - apply Nat.eqb_eq in G2. subst gap.
    destruct (swaps =? 0)%nat eqn:S0.
    + apply Nat.eqb_eq in S0. subst swaps. injection H as <- <- <-.
      split; [exact P1|]. destruct (Same eq_refl) as [-> Hall].
      intros i a b Ha Hb G. apply strcmp_gt_lt in G.
      apply (Hall i a b); auto.
      * apply lookup_lt_Some in Ha. lia.
      * now rewrite Nat.add_1_r.
    + apply Nat.eqb_neq in S0.
      assert (Hres : (t', d, r') = (t1, false, S r)).
      { destruct (7 <? S r)%nat; [congruence|].
        change (shrink_gap 1) with O in H. destruct f; simpl in H; congruence. }
      injection Hres as -> -> ->. split; [exact P1|lia].
  - apply Nat.eqb_neq in G2.
    destruct (IH (shrink_gap gap) t1 r t' d r') as [P2 D]; auto.
    + apply shrink_gap_pos. lia.
    + pose proof (shrink_gap_lt gap Hg). lia.
    + split; [exact P2|]. destruct d; [exact D|lia].
Qed.

Lemma first_gap_pos n : (1 <= first_gap n)%nat.
Proof.
  unfold first_gap. destruct (n / 2 - 1 <? 1)%nat eqn:E; [lia|].
  apply Nat.ltb_ge in E. exact E.
Qed.

Lemma sort_loop_spec t0 fuel : forall t r,
  t ≡ₚ t0 ->
  (length t0 * length t0 * length t0 - potential t0 0 t < fuel)%nat ->
  exists t', sort_loop fuel t r = Some t' /\ t' ≡ₚ t0 /\ sorted_names t'.
Proof.
  induction fuel as [|f IH]; intros t r Hp Hf; [lia|].
  cbn [sort_loop].
  destruct (gap_loop (S (first_gap (length t))) (first_gap (length t)) t r)
    as [[t1 d] r1] eqn:GL.
  destruct (gap_loop_spec t0 _ _ _ _ _ _ _ (first_gap_pos _)
              (Nat.lt_succ_diag_r _) Hp GL) as [P1 D].
  destruct d.
  - exists t1. auto.
  - apply IH; [exact P1|].
    pose proof (potential_bound t0 t1 0) as B.
    rewrite (Permutation_length P1) in B. simpl in B. lia.
Qed.

Lemma sort_entries_spec t :
  sort_entries t ≡ₚ t /\ sorted_names (sort_entries t).
Proof.
  unfold sort_entries.
  destruct (sort_loop_spec t (sort_fuel t) t O) as (t' & E & P & S);
    [reflexivity|unfold sort_fuel; lia|].
  rewrite E. auto.
Qed.

(** Adjacent order extends to every pair of positions. *)
Lemma sorted_names_le t i j a b :
  sorted_names t -> (i <= j)%nat -> t !! i = Some a -> t !! j = Some b ->
  str_le (name a) (name b).
Proof.
  intros S Hij Ha. revert b. induction Hij as [|j Hij IH]; intros b Hb.
  - rewrite Ha in Hb. injection Hb as <-. unfold str_le.
    rewrite strcmp_refl. discriminate.
  - destruct (t !! j) as [c|] eqn:Hc.
    + eapply str_le_trans; [apply IH; reflexivity|]. eapply S; eauto.
    + apply lookup_ge_None in Hc. apply lookup_lt_Some in Hb. lia.
Qed.

(** ** remove_dups keeps the first row of every run of equal names *)

Lemma remove_dups_loop_spec cfg n : forall i didx dst t w,
  (didx < i)%nat -> (length t <= n + i)%nat ->
  match remove_dups_loop cfg n i didx dst t w with
  | inr (t', didx', w') =>
      take (S didx') t' = take (S didx) t ++ dedup_adj dst (drop i t) /\
      w' = w ++ dup_warnings dst (drop i t) /\
      (gbl_cod cfg = true \/ dup_warnings dst (drop i t) = [])
  | inl e =>
      e = DuplicateSelectorError /\ gbl_cod cfg = false /\
      dup_warnings dst (drop i t) <> []
  end.
Proof.
  induction n as [|n IH]; intros i didx dst t w Hd Hn; simpl.
  - rewrite drop_ge by lia. simpl. rewrite !app_nil_r. auto.
  - destruct (t !! i) as [ri|] eqn:Hi.
    2:{ apply lookup_ge_None in Hi. rewrite drop_ge by lia. simpl.
        rewrite !app_nil_r. auto. }
    rewrite (drop_S _ _ _ Hi). simpl.
    assert (Move : forall c, c <> Eq -> strcmp dst (name ri) = c ->
      match
        remove_dups_loop cfg n (S i) (S didx) (name ri)
          (if (S didx =? i)%nat then t else <[S didx:=ri]> t) w
      with
      | inr (t', didx', w') =>
          take (S didx') t' =
            take (S didx) t ++ ri :: dedup_adj (name ri) (drop (S i) t) /\
          w' = w ++ dup_warnings (name ri) (drop (S i) t) /\
          (gbl_cod cfg = true \/ dup_warnings (name ri) (drop (S i) t) = [])
      | inl e =>
          e = DuplicateSelectorError /\ gbl_cod cfg = false /\
          dup_warnings (name ri) (drop (S i) t) <> []
      end).
    { intros c Hc Ec.
      set (t1 := if (S didx =? i)%nat then t else <[S didx:=ri]> t).
      assert (Hlen : length t1 = length t).
      { unfold t1. destruct (S didx =? i)%nat; [reflexivity|].
        apply length_insert. }
      assert (Hdrop : drop (S i) t1 = drop (S i) t).
      { unfold t1. destruct (S didx =? i)%nat; [reflexivity|].
        apply drop_insert_lt. lia. }
      assert (Htake : take (S (S didx)) t1 = take (S didx) t ++ [ri]).
      { unfold t1. destruct (S didx =? i)%nat eqn:E.
        - apply Nat.eqb_eq in E. subst i. now apply take_S_r.
        - apply Nat.eqb_neq in E. apply lookup_lt_Some in Hi.
          rewrite (take_S_r _ _ ri).
          + now rewrite take_insert_ge by lia.
          + apply list_lookup_insert_eq. lia. }
      specialize (IH (S i) (S didx) (name ri) t1 w ltac:(lia) ltac:(lia)).
      destruct (remove_dups_loop cfg n (S i) (S didx) (name ri) t1 w)
        as [e|[[t' didx'] w']].
      - now rewrite Hdrop in IH.
      - rewrite Hdrop, Htake, <- app_assoc in IH. exact IH. }
    destruct (strcmp dst (name ri)) eqn:C.
    + destruct (gbl_cod cfg) eqn:Cod.
      * specialize (IH (S i) didx dst t
                      (w ++ [DuplicateSelectorWarning dst])
                      ltac:(lia) ltac:(lia)).
        destruct (remove_dups_loop cfg n (S i) didx dst t
                    (w ++ [DuplicateSelectorWarning dst]))
          as [e|[[t' didx'] w']].
        -- destruct IH as (_ & F & _). congruence.
        -- destruct IH as (T & W & _). rewrite <- app_assoc in W. auto.
      * split; [reflexivity|]. split; [reflexivity|]. discriminate.
    + apply (Move Lt); [discriminate|reflexivity].
    + apply (Move Gt); [discriminate|reflexivity].
Qed.

Lemma remove_dups_spec cfg t :
  match remove_dups cfg t with
  | inr (t', w) =>
      t' = dedup_first t /\ w = all_warnings t /\
      (gbl_cod cfg = true \/ all_warnings t = [])
  | inl e =>
      e = DuplicateSelectorError /\ gbl_cod cfg = false /\
      all_warnings t <> []
  end.
Proof.
  destruct t as [|r0 [|r1 t]];
    [simpl; auto | simpl; auto |].
  cbn [remove_dups].
  pose proof (remove_dups_loop_spec cfg (length (r0 :: r1 :: t)) 1 0
                (name r0) (r0 :: r1 :: t) [] ltac:(lia) ltac:(lia)) as H.
  destruct (remove_dups_loop cfg (length (r0 :: r1 :: t)) 1 0
              (name r0) (r0 :: r1 :: t) []) as [e|[[t' didx'] w']].
  - exact H.
  - destruct H as (T & W & C). auto.
Qed.

Lemma sorted_names_chain t : sorted_names t -> chain t.
Proof.
  induction t as [|a [|b t] IH]; intros Hs; simpl; auto.
  split.
  - apply (Hs O a b); reflexivity.
  - apply IH. intros i x y Hx Hy. apply (Hs (S i) x y); assumption.
Qed.

Lemma chain_skip a b t :
  chain (a :: b :: t) -> name b = name a -> chain (a :: t).
Proof.
  destruct t as [|c t]; simpl; auto.
  intros (_ & Hbc & Ht) E. rewrite <- E. auto.
Qed.

Lemma dedup_adj_sorted t : forall r,
  chain (r :: t) -> StronglySorted name_lt (r :: dedup_adj (name r) t).
Proof.
  induction t as [|r1 t IH]; intros r C.
  - simpl. constructor; constructor.
  - cbn [dedup_adj]. destruct (strcmp (name r) (name r1)) eqn:E.
    + apply IH. eapply chain_skip; eauto. symmetry. now apply strcmp_eq.
    + destruct C as [_ C1]. specialize (IH r1 C1).
      constructor; [exact IH|].
      apply StronglySorted_inv in IH. destruct IH as [_ F].
      constructor; [exact E|].
      eapply Forall_impl; [exact F|]. intros x Hx. unfold name_lt in *.
      eapply strcmp_lt_trans; eauto.
    + destruct C as [C0 _]. contradiction.
Qed.

Lemma dedup_first_sorted t :
  sorted_names t -> StronglySorted name_lt (dedup_first t).
Proof.
  intros S. destruct t as [|r t]; [constructor|].
  apply dedup_adj_sorted. now apply sorted_names_chain.
Qed.

Lemma dedup_adj_sublist t : forall dst, dedup_adj dst t `sublist_of` t.
Proof.
  induction t as [|r t IH]; intros dst; simpl; [constructor|].
  destruct (strcmp dst (name r)).
  - apply sublist_cons, IH.
  - apply sublist_skip, IH.
  - apply sublist_skip, IH.
Qed.

Lemma dedup_first_sublist t : dedup_first t `sublist_of` t.
Proof.
  destruct t as [|r t]; [constructor|]. apply sublist_skip, dedup_adj_sublist.
Qed.

Lemma dedup_adj_keys t : forall dst r,
  r ∈ t -> name r = dst \/ exists r', r' ∈ dedup_adj dst t /\ name r' = name r.
Proof.
  induction t as [|r1 t IH]; intros dst r Hin; [inversion Hin|].
  cbn [dedup_adj]. apply elem_of_cons in Hin. destruct Hin as [->|Hin].
  - destruct (strcmp dst (name r1)) eqn:E.
    + left. symmetry. now apply strcmp_eq.
    + right. exists r1. split; [left|reflexivity].
    + right. exists r1. split; [left|reflexivity].
  - destruct (strcmp dst (name r1)) eqn:E.
    + apply IH, Hin.
    + destruct (IH (name r1) r Hin) as [Hn|(r' & Hr' & Hn)].
      * right. exists r1. split; [left|congruence].
      * right. exists r'. split; [now right|exact Hn].
    + destruct (IH (name r1) r Hin) as [Hn|(r' & Hr' & Hn)].
      * right. exists r1. split; [left|congruence].
      * right. exists r'. split; [now right|exact Hn].
Qed.

Lemma dedup_first_keys t r :
  r ∈ t -> exists r', r' ∈ dedup_first t /\ name r' = name r.
Proof.
  destruct t as [|r0 t]; [inversion 1|]. intros Hin.
  apply elem_of_cons in Hin. destruct Hin as [->|Hin].
  - exists r0. split; [left|reflexivity].
  - destruct (dedup_adj_keys t (name r0) r Hin) as [Hn|(r' & Hr' & Hn)].
    + exists r0. split; [left|congruence].
    + exists r'. split; [now right|exact Hn].
Qed.

Lemma dup_warnings_length t : forall dst,
  (length (dup_warnings dst t) + length (dedup_adj dst t) = length t)%nat.
Proof.
  induction t as [|r t IH]; intros dst; simpl; [reflexivity|].
  destruct (strcmp dst (name r)); simpl.
  - specialize (IH dst). lia.
  - specialize (IH (name r)). lia.
  - specialize (IH (name r)). lia.
Qed.

Lemma all_warnings_length t :
  (length (all_warnings t) + length (dedup_first t) = length t)%nat.
Proof.
  destruct t as [|r t]; simpl; [reflexivity|].
  pose proof (dup_warnings_length t (name r)). lia.
Qed.

Lemma StronglySorted_name_ne r t x :
  StronglySorted name_lt (r :: t) -> x ∈ t -> name r <> name x.
Proof.
  intros S Hin E. apply StronglySorted_inv in S. destruct S as [_ F].
  rewrite Forall_forall in F. specialize (F x Hin). unfold name_lt in F.
  rewrite E, strcmp_refl in F. discriminate.
Qed.

Lemma dedup_adj_first t : forall r0 r,
  chain (r0 :: t) -> r ∈ dedup_adj (name r0) t ->
  first_named (name r) (r0 :: t) = Some r.
Proof.
  induction t as [|r1 t IH]; intros r0 r C Hin; [inversion Hin|].
  pose proof (dedup_adj_sorted _ _ C) as SS.
  pose proof (StronglySorted_name_ne _ _ _ SS Hin) as Hne.
  unfold first_named. cbn [List.find].
  destruct (String.eqb_spec (name r0) (name r)) as [E|_]; [contradiction|].
  cbn [dedup_adj] in Hin. destruct (strcmp (name r0) (name r1)) eqn:E.
  - apply strcmp_eq in E.
    destruct (String.eqb_spec (name r1) (name r)) as [E1|_]; [congruence|].
    assert (C' : chain (r0 :: t)) by (eapply chain_skip; eauto).
    specialize (IH r0 r C' Hin). unfold first_named in IH.
    cbn [List.find] in IH.
    destruct (String.eqb_spec (name r0) (name r)) as [E2|_];
      [contradiction|exact IH].
  - apply elem_of_cons in Hin. destruct Hin as [->|Hin].
    + now rewrite String.eqb_refl.
    + destruct C as [_ C1]. apply (IH r1 r C1 Hin).
  - apply elem_of_cons in Hin. destruct Hin as [->|Hin].
    + now rewrite String.eqb_refl.
    + destruct C as [_ C1]. apply (IH r1 r C1 Hin).
Qed.

Lemma dedup_first_first t r :
  sorted_names t -> r ∈ dedup_first t -> first_named (name r) t = Some r.
Proof.
  intros S Hin. destruct t as [|r0 t]; [inversion Hin|].
  simpl in Hin. apply elem_of_cons in Hin. destruct Hin as [->|Hin].
  - unfold first_named. simpl. now rewrite String.eqb_refl.
  - apply dedup_adj_first; [now apply sorted_names_chain|exact Hin].
Qed.

(** ** bin_search finds exactly the names of a strictly sorted table *)

Lemma strict_lookup t : forall i j a b,
  StronglySorted name_lt t -> (i < j)%nat ->
  t !! i = Some a -> t !! j = Some b -> name_lt a b.
Proof.
  induction t as [|r t IH]; intros i j a b Hs Hij Ha Hb; [discriminate|].
  apply StronglySorted_inv in Hs. destruct Hs as [Hs F].
  destruct j as [|j]; [lia|]. simpl in Hb.
  destruct i as [|i].
  - simpl in Ha. injection Ha as <-. rewrite Forall_forall in F.
    apply F. eapply list_elem_of_lookup_2; eauto.
  - simpl in Ha. apply (IH i j); auto. lia.
Qed.

Lemma strict_lookup_inj t i j a b :
  StronglySorted name_lt t ->
  t !! i = Some a -> t !! j = Some b -> name a = name b -> i = j.
Proof.
  intros Hs Ha Hb E.
  destruct (Nat.lt_trichotomy i j) as [L|[L|L]]; [|exact L|].
  - pose proof (strict_lookup t i j a b Hs L Ha Hb) as H.
    unfold name_lt in H. rewrite E, strcmp_refl in H. discriminate.
  - pose proof (strict_lookup t j i b a Hs L Hb Ha) as H.
    unfold name_lt in H. rewrite E, strcmp_refl in H. discriminate.
Qed.

Lemma bin_search_loop_spec tbl k fuel : forall bot top,
  StronglySorted name_lt tbl ->
  0 <= bot -> top < Z.of_nat (length tbl) ->
  top - bot + 1 <= Z.of_nat fuel ->
  (forall i r, tbl !! i = Some r -> name r = k ->
     bot <= Z.of_nat i <= top) ->
  let m := bin_search_loop fuel k tbl bot top in
  (m = -1 /\ forall i r, tbl !! i = Some r -> name r <> k) \/
  (0 <= m /\ exists r, tbl !! Z.to_nat m = Some r /\ name r = k).
Proof.
  induction fuel as [|f IH]; intros bot top Hs Hb Ht Hf Hin; simpl.
  - left. split; [reflexivity|]. intros i r Hi E.
    specialize (Hin i r Hi E). lia.
  - destruct (bot <=? top) eqn:Hbt.
    2:{ apply Z.leb_gt in Hbt. left. split; [reflexivity|].
        intros i r Hi E. specialize (Hin i r Hi E). lia. }
    apply Z.leb_le in Hbt.
    assert (Hmid : bot <= (bot + top) / 2 <= top).
    { split; [apply Z.div_le_lower_bound|apply Z.div_le_upper_bound]; lia. }
    set (mid := (bot + top) / 2) in *.
    destruct (tbl !! Z.to_nat mid) as [r|] eqn:Hr.
    2:{ apply lookup_ge_None in Hr. lia. }
    destruct (strcmp (name r) k) eqn:C.
    + right. split; [lia|]. exists r. split; [exact Hr|].
      now apply strcmp_eq.
    + apply IH; auto; try lia.
      intros i x Hi E. specialize (Hin i x Hi E).
      destruct (Z_lt_le_dec mid (Z.of_nat i)) as [L|G]; [lia|].
      exfalso. destruct (decide (i = Z.to_nat mid)) as [->|Hne].
      * rewrite Hr in Hi. injection Hi as <-.
        rewrite E, strcmp_refl in C. discriminate.
      * pose proof (strict_lookup tbl i (Z.to_nat mid) x r Hs
                      ltac:(lia) Hi Hr) as H.
        unfold name_lt in H. rewrite E in H.
        rewrite (strcmp_antisym k (name r)), C in H. discriminate.
    + apply IH; auto; try lia.
      intros i x Hi E. specialize (Hin i x Hi E).
      destruct (Z_lt_le_dec (Z.of_nat i) mid) as [L|G]; [lia|].
      exfalso. destruct (decide (i = Z.to_nat mid)) as [->|Hne].
      * rewrite Hr in Hi. injection Hi as <-.
        rewrite E, strcmp_refl in C. discriminate.
      * pose proof (strict_lookup tbl (Z.to_nat mid) i r x Hs
                      ltac:(lia) Hr Hi) as H.
        unfold name_lt in H. rewrite E in H. congruence.
Qed.

Lemma bin_search_spec tbl k :
  StronglySorted name_lt tbl ->
  (bin_search k tbl = -1 /\ forall i r, tbl !! i = Some r -> name r <> k) \/
  (0 <= bin_search k tbl /\
   exists r, tbl !! Z.to_nat (bin_search k tbl) = Some r /\ name r = k).
Proof.
  intros Hs. unfold bin_search. apply bin_search_loop_spec; auto; try lia.
  intros i r Hi _. apply lookup_lt_Some in Hi. lia.
Qed.

(** ** The selector table built by main *)

Lemma number_from_lookup es : forall i p e,
  es !! p = Some e ->
  number_from i es !! p
  = Some {| name := e.1; group := e.2; order := (i + p)%nat |}.
Proof.
  induction es as [|[k g] es IH]; intros i p e H; [discriminate|].
  destruct p as [|p]; simpl in *.
  - injection H as <-. simpl. now rewrite Nat.add_0_r.
  - rewrite (IH (S i) p e H). do 2 f_equal. lia.
Qed.

Lemma number_from_order es : forall i,
  map order (number_from i es) = seq i (length es).
Proof.
  induction es as [|[k g] es IH]; intros i; simpl; [reflexivity|].
  now rewrite IH.
Qed.

Lemma number_from_name es : forall i,
  map name (number_from i es) = map fst es.
Proof.
  induction es as [|[k g] es IH]; intros i; simpl; [reflexivity|].
  now rewrite IH.
Qed.

Lemma number_from_length es i : length (number_from i es) = length es.
Proof.
  rewrite <- (length_map order), number_from_order. apply length_seq.
Qed.

Lemma number_from_elem es : forall i r,
  r ∈ number_from i es ->
  (i <= order r < i + length es)%nat /\
  es !! (order r - i)%nat = Some (name r, group r).
Proof.
  induction es as [|[k g] es IH]; intros i r H; [inversion H|].
  simpl in H. apply elem_of_cons in H. destruct H as [->|H].
  - simpl. rewrite Nat.sub_diag. split; [lia|reflexivity].
  - destruct (IH (S i) r H) as [B L]. simpl. split; [lia|].
    replace (order r - i)%nat with (S (order r - S i)) by lia. exact L.
Qed.

Lemma dedup_adj_id t : forall dst,
  dst ∉ map name t -> NoDup (map name t) ->
  dedup_adj dst t = t /\ dup_warnings dst t = [].
Proof.
  induction t as [|r t IH]; intros dst Hn Hd; simpl; [auto|].
  simpl in Hn, Hd. apply NoDup_cons in Hd. destruct Hd as [Hr Hd].
  apply not_elem_of_cons in Hn. destruct Hn as [Hne Hn].
  destruct (IH (name r) Hr Hd) as [E1 E2].
  destruct (strcmp dst (name r)) eqn:C.
  - apply strcmp_eq in C. contradiction.
  - now rewrite E1, E2.
  - now rewrite E1, E2.
Qed.

Lemma dedup_first_id t :
  NoDup (map name t) -> dedup_first t = t /\ all_warnings t = [].
Proof.
  destruct t as [|r t]; simpl; [auto|]. intros Hd.
  apply NoDup_cons in Hd. destruct Hd as [Hr Hd].
  destruct (dedup_adj_id t (name r) Hr Hd) as [E1 E2]. now rewrite E1, E2.
Qed.

Lemma build_index_spec cfg lines tbl warnings :
  build_index cfg lines = inr (tbl, warnings) ->
  index_ok (get_entries cfg lines) tbl /\
  (length warnings + length tbl = length (get_entries cfg lines))%nat /\
  (gbl_cod cfg = true \/ warnings = []) /\
  (NoDup (map fst (get_entries cfg lines)) ->
   tbl ≡ₚ number_from 0 (get_entries cfg lines) /\ warnings = []).
Proof.
  unfold build_index. intros H.
  set (es := get_entries cfg lines) in *.
  destruct (sort_entries_spec (number_from 0 es)) as [P Hs].
  set (t := sort_entries (number_from 0 es)) in *.
  pose proof (remove_dups_spec cfg t) as R. rewrite H in R.
  destruct R as (-> & -> & Cod).
  pose proof (dedup_first_sublist t) as Sub.
  assert (Hin : forall r, r ∈ dedup_first t -> r ∈ number_from 0 es).
  { intros r Hr. rewrite <- P. eapply elem_of_sublist; eauto. }
  split; [|split; [|split]].
  - constructor.
    + now apply dedup_first_sorted.
    + intros r Hr. destruct (number_from_elem es 0 r (Hin r Hr)) as [B L].
      rewrite Nat.sub_0_r in L. split; [lia|exact L].
    + eapply sublist_NoDup; [|apply (fmap_sublist order); exact Sub].
      rewrite P. change (NoDup (map order (number_from 0 es))).
      rewrite number_from_order. apply NoDup_seq.
    + rewrite <- (number_from_length es 0), <- (Permutation_length P).
      now apply sublist_length.
    + intros e He. apply list_elem_of_lookup in He. destruct He as [p Hp].
      pose proof (number_from_lookup es 0 p e Hp) as L.
      apply list_elem_of_lookup_2 in L. rewrite <- P in L.
      destruct (dedup_first_keys t _ L) as (r' & Hr' & En).
      exists r'. split; [exact Hr'|exact En].
    + intros r Hr. now apply dedup_first_first.
  - rewrite <- (number_from_length es 0), <- (Permutation_length P).
    apply all_warnings_length.
  - exact Cod.
  - intros Hd.
    assert (Hd' : NoDup (map name t)).
    { change (NoDup (name <$> t)). rewrite P.
      change (NoDup (map name (number_from 0 es))).
      now rewrite number_from_name. }
    destruct (dedup_first_id t Hd') as [-> ->]. auto.
Qed.

(** ** The empty selection list *)

Lemma get_entries_none cfg lines :
  Forall (fun l => strcspn (chomp_cr l) (gbl_hs cfg) = O) lines ->
  get_entries cfg lines = [].
Proof.
  induction 1 as [|l lines Hl _ IH]; simpl; [reflexivity|].
  unfold parse_entry. rewrite Hl. simpl. exact IH.
Qed.

(** C10.  When the selection list has no line with a non-empty key (it is
    empty, or every line is empty or starts with a delimiter), main ends
    with the fatal error "nothing was read from -sel" before the record
    stream is opened: no sink operation has taken place, whatever the
    stream holds. *)
Theorem empty_selection_is_fatal cfg w :
  Forall (fun l => strcspn (chomp_cr l) (gbl_hs cfg) = O) (sel_file w) ->
  exists st,
    main cfg w = Exited (EXIT_FAILURE NothingRead) st /\
    trace st = [] /\ written (trace st) = [] /\ records st = O.
Proof.
  intros H. unfold main. rewrite (get_entries_none _ _ H). simpl.
  eexists. split; [reflexivity|]. simpl. auto.
Qed.

Lemma empty_selection_is_fatal_witness :
  exists st,
    main (select_cfg false false)
      (plain_world [""; " x"; "|y"; ":"] [">x"; "ACGT"])
    = Exited (EXIT_FAILURE NothingRead) st /\
    trace st = [] /\ written (trace st) = [] /\ records st = O.
Proof.
  apply (empty_selection_is_fatal (select_cfg false false)
           (plain_world [""; " x"; "|y"; ":"] [">x"; "ACGT"])).
  repeat constructor.
Defined.

(** ** Duplicate selectors *)

(** C3.  With -cod, the selection list A, A, B leaves the table rows A and
    B with output positions 0 and 2: the positions are those of the raw
    list and are not renumbered to 0..1.  The loops that write the buffer
    stop at position entrynum - 1 = 1, so record B, held at position 2, is
    never written although the program reports success and two records
    emitted. *)
Theorem remove_dups_keeps_raw_positions :
  build_index (select_cfg false true) ["A"; "A"; "B"]
  = inr ([ {| name := "A"; group := None; order := 0 |};
           {| name := "B"; group := None; order := 2 |} ],
         [DuplicateSelectorWarning "A"]) /\
  let o := main (select_cfg false true)
             (plain_world ["A"; "A"; "B"] [">A"; ">B"]) in
  exit_of o = Some EXIT_SUCCESS /\
  output_of o = [">A" +:+ LF] /\
  stderr_of o = [DuplicateSelectorWarning "A"; Status 2 2 2].
Proof. vm_compute. auto. Qed.

Lemma dup_warnings_shape t : forall dst,
  Forall (fun d => exists k, d = DuplicateSelectorWarning k)
    (dup_warnings dst t).
Proof.
  induction t as [|r t IH]; intros dst; simpl; [constructor|].
  destruct (strcmp dst (name r)); auto.
  constructor; [eauto|auto].
Qed.

Lemma strict_NoDup_names t :
  StronglySorted name_lt t -> NoDup (map name t).
Proof.
  induction t as [|r t IH]; intros Hs; simpl; [constructor|].
  pose proof Hs as Hs'.
  apply StronglySorted_inv in Hs. destruct Hs as [Hs F].
  apply NoDup_cons. split; [|auto].
  intros Hin. apply list_elem_of_fmap in Hin. destruct Hin as (x & E & Hx).
  exact (StronglySorted_name_ne r t x Hs' Hx E).
Qed.

(** C4, as the program has it.  With -cod, for every selection list the
    table holds exactly one row for every distinct key of the list, one
    warning is printed for every row dropped, and the row kept for a key
    is the first row with that key in the sorted table. *)
Theorem duplicates_keep_first_sorted cfg lines :
  gbl_cod cfg = true ->
  exists tbl warnings,
    build_index cfg lines = inr (tbl, warnings) /\
    NoDup (map name tbl) /\
    (forall e, e ∈ get_entries cfg lines ->
       exists r, r ∈ tbl /\ name r = e.1) /\
    (forall r, r ∈ tbl ->
       get_entries cfg lines !! order r = Some (name r, group r)) /\
    (forall r, r ∈ tbl ->
       first_named (name r)
         (sort_entries (number_from 0 (get_entries cfg lines))) = Some r) /\
    (length warnings + length tbl = length (get_entries cfg lines))%nat /\
    Forall (fun d => exists k, d = DuplicateSelectorWarning k) warnings.
Proof.
  intros Cod.
  destruct (build_index cfg lines) as [e|[tbl warnings]] eqn:B.
  - unfold build_index in B.
    pose proof (remove_dups_spec cfg
                  (sort_entries (number_from 0 (get_entries cfg lines)))) as R.
    rewrite B in R. destruct R as (_ & F & _). congruence.
  - exists tbl, warnings. split; [reflexivity|].
    destruct (build_index_spec _ _ _ _ B) as (Ok & Len & _ & _).
    split; [apply strict_NoDup_names, Ok|].
    split; [apply Ok|]. split; [intros r Hr; apply Ok, Hr|].
    split; [apply Ok|]. split; [exact Len|].
    unfold build_index in B.
    pose proof (remove_dups_spec cfg
                  (sort_entries (number_from 0 (get_entries cfg lines)))) as R.
    rewrite B in R. destruct R as (_ & -> & _).
    unfold all_warnings.
    destruct (sort_entries (number_from 0 (get_entries cfg lines)));
      [constructor|apply dup_warnings_shape].
Qed.

Lemma duplicates_keep_first_sorted_witness :
  exists tbl warnings,
    build_index (select_cfg false true) ["b"; "b"; "a"; "c"; "d"; "e"]
    = inr (tbl, warnings) /\
    NoDup (map name tbl) /\
    (forall e,
       e ∈ get_entries (select_cfg false true)
             ["b"; "b"; "a"; "c"; "d"; "e"] ->
       exists r, r ∈ tbl /\ name r = e.1) /\
    (forall r, r ∈ tbl ->
       get_entries (select_cfg false true)
         ["b"; "b"; "a"; "c"; "d"; "e"] !! order r
       = Some (name r, group r)) /\
    (forall r, r ∈ tbl ->
       first_named (name r)
         (sort_entries
            (number_from 0
               (get_entries (select_cfg false true)
                  ["b"; "b"; "a"; "c"; "d"; "e"]))) = Some r) /\
    (length warnings + length tbl
     = length (get_entries (select_cfg false true)
                 ["b"; "b"; "a"; "c"; "d"; "e"]))%nat /\
    Forall (fun d => exists k, d = DuplicateSelectorWarning k) warnings.
Proof.
  apply (duplicates_keep_first_sorted (select_cfg false true)
           ["b"; "b"; "a"; "c"; "d"; "e"]).
  reflexivity.
Defined.

(** C4, as the specification has it, fails: in the list b, b, a, c, d, e
    the first sweep (gap 2) exchanges the first b with a and so moves it
    behind the second b; the row kept for b is the one of position 1,
    although b stands at position 0 as well. *)
Lemma keeps_earliest_fails :
  ~ keeps_earliest (select_cfg false true) ["b"; "b"; "a"; "c"; "d"; "e"].
Proof.
  intros H.
  specialize (H _ _ {| name := "b"; group := None; order := 1 |} O
                ("b", None) eq_refl).
  assert (1 <= 0)%nat as F; [|lia].
  apply H; [|reflexivity|reflexivity].
  vm_compute. right. left.
Qed.

(** ** States of the reading loop *)

Lemma scan_steps cfg w tbl lines : forall st,
  scan cfg w tbl st lines
  = match steps cfg w tbl st lines with
    | Next st' => finish cfg w tbl st'
    | GotoBye st' => bye tbl st'
    | Insane e st' => Exited (EXIT_FAILURE e) st'
    | Fault => Faulted
    end.
Proof.
  induction lines as [|l lines IH]; intros st; simpl; [reflexivity|].
  destruct (step cfg w tbl st l); simpl; auto.
Qed.

Lemma steps_app cfg w tbl l1 : forall st l2,
  steps cfg w tbl st (l1 ++ l2)
  = do st <- steps cfg w tbl st l1; steps cfg w tbl st l2.
Proof.
  induction l1 as [|l l1 IH]; intros st l2; simpl; [reflexivity|].
  destruct (step cfg w tbl st l); simpl; auto.
Qed.

Lemma steps_invariant cfg w tbl (P : state -> Prop) :
  (forall st line st', P st -> step cfg w tbl st line = Next st' -> P st') ->
  forall lines st st',
    P st -> steps cfg w tbl st lines = Next st' -> P st'.
Proof.
  intros Hstep. induction lines as [|l lines IH]; intros st st' HP H.
  - simpl in H. injection H as <-. exact HP.
  - simpl in H. destruct (step cfg w tbl st l) as [st1| | |] eqn:E;
      simpl in H; try discriminate.
    eapply IH; [|exact H]. eapply Hstep; eauto.
Qed.

Lemma reachable_invariant cfg w tbl (P : state -> Prop) :
  (forall st, started cfg w tbl st -> P st) ->
  (forall st line st', P st -> step cfg w tbl st line = Next st' -> P st') ->
  forall st, reachable cfg w tbl st -> P st.
Proof.
  intros H0 Hstep st (st0 & lines & Hs & Hl).
  eapply steps_invariant; eauto.
Qed.

Lemma main_unfold cfg w tbl warnings lines :
  build_index cfg (sel_file w) = inr (tbl, warnings) ->
  get_entries cfg (sel_file w) <> [] ->
  in_file w = Some lines ->
  main cfg w
  = match
      open_out cfg w
        (set_trace [OpenStream]
           (init_state (length (get_entries cfg (sel_file w)))
              (existing w) warnings))
    with
    | Next st => scan cfg w tbl st lines
    | GotoBye st => bye tbl st
    | Insane e st => Exited (EXIT_FAILURE e) st
    | Fault => Faulted
    end.
Proof.
  intros B Hne Hin. unfold main. rewrite B, Hin.
  destruct (get_entries cfg (sel_file w)) as [|e es]; [congruence|].
  reflexivity.
Qed.

Lemma reading_loop_steps cfg w b tbl rest lines : forall st,
  reading_loop cfg w b tbl st lines rest
  = match steps cfg w tbl st lines with
    | Next st' => reading_loop cfg w b tbl st' [] rest
    | GotoBye st' => bye tbl st'
    | Insane e st' => Exited (EXIT_FAILURE e) st'
    | Fault => Faulted
    end.
Proof.
  induction lines as [|l lines IH]; intros st; [reflexivity|].
  cbn [reading_loop steps]. destruct (step cfg w tbl st l); simpl; auto.
Qed.

Lemma reading_loop_scan cfg w b tbl lines st :
  reading_loop cfg w b tbl st lines None = scan cfg w tbl st lines.
Proof.
  rewrite reading_loop_steps, scan_steps.
  destruct (steps cfg w tbl st lines); reflexivity.
Qed.

(** On files that end with a line feed the two models of main agree. *)
Lemma main_text_lines cfg w ends :
  sel_rest ends = None -> in_rest ends = None ->
  main_text cfg w ends = main cfg w.
Proof.
  intros Hs Hi. unfold main_text, main, get_entries_text, build_index.
  rewrite Hs, Hi.
  destruct (length (get_entries cfg (sel_file w)) =? 0)%nat; [reflexivity|].
  destruct (remove_dups cfg _) as [err|[tbl warnings]]; [reflexivity|].
  cbn [app]. destruct (in_file w) as [lines|]; [|reflexivity].
  destruct (open_out cfg w _); try reflexivity.
  apply reading_loop_scan.
Qed.

(** ** A record that matches a selector already matched *)

Lemma step_reject_emitlist cfg w tbl st line st' :
  gbl_reject cfg = true -> step cfg w tbl st line = Next st' ->
  emitlist st' = emitlist st.
Proof.
  intros R. unfold step, on_header, new_entry, match_entry, accumulate.
  rewrite R. destruct (is_header (chomp_cr line)); simpl.
  - destruct (xorb _ true); simpl; intros H; injection H as <-;
      simpl; destruct (emit st); reflexivity.
  - intros H. injection H as <-. destruct (emit st); reflexivity.
Qed.

Lemma started_emitlist cfg w tbl st :
  started cfg w tbl st ->
  emitlist st = replicate (length (get_entries cfg (sel_file w))) false.
Proof.
  intros (warnings & _ & _ & H). unfold open_out in H.
  destruct (frag_on cfg); [injection H as <-; reflexivity|].
  destruct (gbl_out cfg) as [path|]; [|injection H as <-; reflexivity].
  destruct (String.eqb path "-"); [injection H as <-; reflexivity|].
  destruct (can_write w path); [injection H as <-; reflexivity|discriminate].
Qed.

Lemma reject_never_flags cfg w tbl st :
  gbl_reject cfg = true -> reachable cfg w tbl st ->
  forall i, emitlist st !! i <> Some true.
Proof.
  intros R. revert st.
  apply (reachable_invariant cfg w tbl
           (fun st => forall i, emitlist st !! i <> Some true)).
  - intros st H i. rewrite (started_emitlist _ _ _ _ H).
    intros E. apply lookup_replicate in E. destruct E. discriminate.
  - intros st line st' HP H. now rewrite (step_reject_emitlist _ _ _ _ _ _ R H).
Qed.

Ltac by_computation := vm_compute; try reflexivity; try discriminate; auto.

Ltac show_reachable st0 lines warnings :=
  exists st0, lines; split;
  [ exists warnings; split; [by_computation|split; by_computation]
  | by_computation ].

(** ** Group routing with -fragc *)

Arguments file_exists : simpl never.

Lemma file_exists_cons path p files :
  file_exists path (p :: files)
  = (String.eqb path p || file_exists path files)%bool.
Proof. reflexivity. Qed.

Lemma files_kept_open w path mode st st' :
  files_kept st -> open_sink w path mode st = Next st' ->
  files_kept st' /\ fout st' = opened path /\
  last_group st' = last_group st /\
  trace st' = trace st ++ [Fopen path mode] /\
  emitstrings st' = emitstrings st /\ lastemitted st' = lastemitted st.
Proof.
  unfold open_sink. intros K H.
  destruct (can_write w path); [|discriminate]. injection H as <-.
  simpl. repeat split; auto.
  intros p m Hin. simpl in Hin. simpl. rewrite file_exists_cons.
  apply elem_of_app in Hin. destruct Hin as [Hin|Hin].
  - rewrite (K p m Hin). apply orb_true_r.
  - apply list_elem_of_singleton in Hin. injection Hin as -> ->.
    now rewrite String.eqb_refl.
Qed.

Lemma files_kept_close g st : files_kept st -> files_kept (close_current g st).
Proof.
  intros K p m Hin. unfold close_current in Hin. simpl in Hin.
  apply elem_of_app in Hin. destruct Hin as [Hin|Hin].
  - exact (K p m Hin).
  - apply list_elem_of_singleton in Hin. discriminate.
Qed.

Lemma files_kept_switch cfg w st st' :
  files_kept st -> switch_sink cfg w st = Next st' -> files_kept st'.
Proof.
  unfold switch_sink. intros K H.
  destruct (gbl_frag cfg); [injection H as <-; exact K| |];
    (destruct (idx (emitgroups st) (lastemitted st)) as [[g|]|];
       try discriminate;
     destruct (gbl_out cfg) as [template|]; try discriminate;
     destruct (strcmp (last_group st) g);
       [injection H as <-; exact K| |]).
  1,2: destruct (file_exists _ _); [discriminate|].
  all: eapply files_kept_open; [|exact H]; apply (files_kept_close g st K).
Qed.

Lemma files_kept_emit cfg w st st' :
  files_kept st -> emit_slot cfg w st = Next st' -> files_kept st'.
Proof.
  unfold emit_slot. intros K H.
  destruct (switch_sink cfg w st) as [st1| | |] eqn:E; simpl in H;
    try discriminate.
  pose proof (files_kept_switch _ _ _ _ K E) as K1.
  destruct (idx (emitstrings st1) (lastemitted st1)) as [[|s|]|];
    try discriminate.
  injection H as <-. intros p m Hin. simpl in *.
  apply elem_of_app in Hin. destruct Hin as [Hin|Hin].
  - exact (K1 p m Hin).
  - apply list_elem_of_singleton in Hin. discriminate.
Qed.

Lemma switch_sink_no_bye cfg w st st' : switch_sink cfg w st <> GotoBye st'.
Proof.
  unfold switch_sink, open_sink.
  destruct (gbl_frag cfg); [discriminate| |];
    (destruct (idx (emitgroups st) (lastemitted st)) as [[g|]|];
       try discriminate;
     destruct (gbl_out cfg) as [template|]; try discriminate;
     destruct (strcmp (last_group st) g); try discriminate).
  1,2: destruct (file_exists _ _); try discriminate.
  all: simpl; destruct (can_write w _); discriminate.
Qed.

Lemma emit_slot_no_bye cfg w st st' : emit_slot cfg w st <> GotoBye st'.
Proof.
  unfold emit_slot.
  destruct (switch_sink cfg w st) as [st1| | |] eqn:E; simpl;
    try discriminate.
  - destruct (idx (emitstrings st1) (lastemitted st1)) as [[|s|]|];
      discriminate.
  - intros H. injection H as ->. exact (switch_sink_no_bye _ _ _ _ E).
Qed.

Lemma drain_S fuel cfg w entrynum st :
  drain (S fuel) cfg w entrynum st
  = match idx (emitstrings st) (lastemitted st + 1) with
    | None => Fault
    | Some Null => Next st
    | Some _ =>
        do st <- emit_slot cfg w (set_lastemitted (lastemitted st + 1) st);
        if lastemitted st =? Z.of_nat entrynum - 1
        then GotoBye st
        else drain fuel cfg w entrynum st
    end.
Proof. reflexivity. Qed.

Arguments drain : simpl never.

Lemma files_kept_drain cfg w entrynum fuel : forall st st',
  files_kept st ->
  drain fuel cfg w entrynum st = Next st' \/
  drain fuel cfg w entrynum st = GotoBye st' ->
  files_kept st'.
Proof.
  induction fuel as [|f IH]; intros st st' K H.
  - destruct H; discriminate.
  - rewrite drain_S in H.
    destruct (idx (emitstrings st) (lastemitted st + 1)) as [s|];
      [|destruct H; discriminate].
    assert (Go :
      (do st0 <- emit_slot cfg w (set_lastemitted (lastemitted st + 1) st);
       if lastemitted st0 =? Z.of_nat entrynum - 1 then GotoBye st0
       else drain f cfg w entrynum st0) = Next st' \/
      (do st0 <- emit_slot cfg w (set_lastemitted (lastemitted st + 1) st);
       if lastemitted st0 =? Z.of_nat entrynum - 1 then GotoBye st0
       else drain f cfg w entrynum st0) = GotoBye st' -> files_kept st').
    { intros H'.
      destruct (emit_slot cfg w (set_lastemitted (lastemitted st + 1) st))
        as [st1|st1| |] eqn:E; simpl in H'; try (destruct H'; discriminate);
        [|exfalso; exact (emit_slot_no_bye _ _ _ _ E)].
      assert (K1 : files_kept st1)
        by (eapply files_kept_emit; [|exact E]; exact K).
      destruct (lastemitted st1 =? Z.of_nat entrynum - 1).
      - destruct H' as [H'|H']; [discriminate|]. now injection H' as <-.
      - eapply IH; eauto. }
    destruct s.
    + destruct H as [H|H]; [|discriminate]. now injection H as <-.
    + exact (Go H).
    + exact (Go H).
Qed.

Lemma files_kept_step cfg w tbl st line st' :
  files_kept st -> step cfg w tbl st line = Next st' -> files_kept st'.
Proof.
  intros K H. unfold step in H.
  assert (Acc : forall s, files_kept s ->
                          files_kept (accumulate cfg (chomp_cr line) s)).
  { intros s Ks. unfold accumulate. destruct (emit s); [|exact Ks].
    destruct (gbl_reject cfg); [|exact Ks].
    intros p m Hin. simpl in *. apply elem_of_app in Hin.
    destruct Hin as [Hin|Hin]; [exact (Ks p m Hin)|].
    apply list_elem_of_singleton in Hin. discriminate. }
  destruct (is_header (chomp_cr line)); simpl in H.
  2:{ injection H as <-. now apply Acc. }
  destruct (on_header cfg w tbl (chomp_cr line) st) as [st2| | |] eqn:E;
    simpl in H; try discriminate.
  injection H as <-. apply Acc.
  unfold on_header in E.
  destruct (new_entry cfg w tbl st) as [st1| | |] eqn:E1; simpl in E;
    try discriminate.
  assert (K1 : files_kept st1).
  { unfold new_entry in E1. destruct (gbl_reject cfg).
    - injection E1 as <-. exact K.
    - unfold store_accum in E1. simpl in E1.
      destruct (accumstring st); [|injection E1 as <-; exact K].
      destruct (idx tbl (emitting st)) as [r|]; [|discriminate].
      destruct (emitstrings st !! order r) as [[| |]|]; try discriminate.
      eapply files_kept_drain; [|left; exact E1]. exact K. }
  unfold match_entry in E.
  destruct (xorb _ _); [|injection E as <-; exact K1].
  destruct (gbl_reject cfg); simpl in E.
  - injection E as <-. exact K1.
  - unfold select_match in E. simpl in E.
    destruct (idx (emitlist st1) _) as [[|]|]; try discriminate.
    destruct (frag_on cfg).
    + destruct (idx tbl _) as [r|]; [|discriminate].
      destruct (group r) as [g|]; [|discriminate].
      destruct (String.length g =? 0)%nat; [discriminate|].
      destruct (order r <? _)%nat; [|discriminate].
      simpl in E. injection E as <-. exact K1.
    + simpl in E. injection E as <-. exact K1.
Qed.

Lemma files_kept_started cfg w tbl st : started cfg w tbl st -> files_kept st.
Proof.
  intros (warnings & _ & _ & H). unfold open_out in H.
  assert (K0 : forall n f, files_kept
                 (set_trace [OpenStream] (init_state n f warnings))).
  { intros n f p m Hin. simpl in Hin.
    apply list_elem_of_singleton in Hin. discriminate. }
  destruct (frag_on cfg); [injection H as <-; apply K0|].
  destruct (gbl_out cfg) as [path|]; [|injection H as <-; apply K0].
  destruct (String.eqb path "-"); [injection H as <-; apply K0|].
  destruct (can_write w path); [|discriminate]. injection H as <-.
  intros p m Hin. simpl in *. apply elem_of_cons in Hin.
  destruct Hin as [Hin|Hin]; [discriminate|].
  apply list_elem_of_singleton in Hin. injection Hin as -> _.
  rewrite file_exists_cons. now rewrite String.eqb_refl.
Qed.

Lemma files_kept_reachable cfg w tbl st :
  reachable cfg w tbl st -> files_kept st.
Proof.
  apply (reachable_invariant cfg w tbl files_kept).
  - apply files_kept_started.
  - intros s line s' K H. eapply files_kept_step; eauto.
Qed.



(** ** What a flush changes *)

Lemma same_scanner_refl st : same_scanner st st.
Proof. repeat split. Qed.

Lemma same_scanner_trans a b c :
  same_scanner a b -> same_scanner b c -> same_scanner a c.
Proof.
  unfold same_scanner. intros (A1&A2&A3&A4&A5&A6&A7&A8) (B1&B2&B3&B4&B5&B6&B7&B8).
  repeat split; congruence.
Qed.

Lemma written_app a b : written (a ++ b) = written a ++ written b.
Proof.
  induction a as [|e a IH]; simpl; [reflexivity|].
  destruct e; simpl; now rewrite ?IH.
Qed.

Lemma switch_sink_frame cfg w st st' :
  switch_sink cfg w st = Next st' ->
  same_scanner st st' /\ emitstrings st' = emitstrings st /\
  lastemitted st' = lastemitted st /\
  written (trace st') = written (trace st).
Proof.
  unfold switch_sink, open_sink. intros H.
  destruct (gbl_frag cfg);
    [injection H as <-; repeat split| |];
    (destruct (idx (emitgroups st) (lastemitted st)) as [[g|]|];
       try discriminate;
     destruct (gbl_out cfg) as [template|]; try discriminate;
     destruct (strcmp (last_group st) g);
       [injection H as <-; repeat split| |]).
  1,2: destruct (file_exists _ _); [discriminate|].
  all: simpl in H; destruct (can_write w _); [|discriminate];
    injection H as <-; simpl; repeat split;
    rewrite !written_app; simpl; now rewrite !app_nil_r.
Qed.

Lemma emit_slot_spec cfg w st st' :
  emit_slot cfg w st = Next st' ->
  exists s,
    idx (emitstrings st) (lastemitted st) = Some (Live s) /\
    emitstrings st'
    = <[Z.to_nat (lastemitted st) := Released]> (emitstrings st) /\
    written (trace st') = written (trace st) ++ [s] /\
    lastemitted st' = lastemitted st /\ same_scanner st st'.
Proof.
  unfold emit_slot. intros H.
  destruct (switch_sink cfg w st) as [st1| | |] eqn:E; simpl in H;
    try discriminate.
  destruct (switch_sink_frame _ _ _ _ E) as (Sc & Es & El & Ew).
  rewrite Es, El in H.
  destruct (idx (emitstrings st) (lastemitted st)) as [[|s|]|];
    try discriminate.
  injection H as <-. exists s. simpl. rewrite ?Es, ?El.
  repeat split; try apply Sc.
  rewrite written_app, Ew. reflexivity.
Qed.

(** ** The memory held by the reorder buffer *)

Lemma highest_filled_bound slots :
  -1 <= highest_filled slots < Z.of_nat (length slots).
Proof.
  induction slots as [|s slots IH]; simpl; [lia|].
  destruct (highest_filled slots <? 0) eqn:E.
  - destruct s; lia.
  - apply Z.ltb_ge in E. lia.
Qed.

Lemma highest_filled_ge slots : forall p s,
  slots !! p = Some s -> s <> Null -> Z.of_nat p <= highest_filled slots.
Proof.
  induction slots as [|x slots IH]; intros p s Hp Hs; [discriminate|].
  simpl. pose proof (highest_filled_bound slots) as B.
  destruct p as [|p]; simpl in Hp.
  - injection Hp as ->. destruct (highest_filled slots <? 0) eqn:E.
    + destruct s; [congruence|lia|lia].
    + apply Z.ltb_ge in E. lia.
  - specialize (IH p s Hp Hs).
    destruct (highest_filled slots <? 0) eqn:E.
    + apply Z.ltb_lt in E. lia.
    + lia.
Qed.

Lemma count_live_app a b :
  count_live (a ++ b) = (count_live a + count_live b)%nat.
Proof. induction a as [|s a IH]; simpl; [reflexivity|]. rewrite IH. lia. Qed.

Lemma count_live_none slots :
  (forall p s, slots !! p = Some s -> is_live s = false) ->
  count_live slots = O.
Proof.
  induction slots as [|x slots IH]; intros H; simpl; [reflexivity|].
  rewrite (H O x eq_refl), IH; [reflexivity|].
  intros p s Hp. apply (H (S p) s Hp).
Qed.

Lemma count_live_le slots : (count_live slots <= length slots)%nat.
Proof.
  induction slots as [|x slots IH]; simpl; [lia|]. destruct (is_live x); lia.
Qed.

Lemma count_live_range slots (a b : nat) :
  (a <= b)%nat ->
  (forall p s, slots !! p = Some s -> is_live s = true -> (a <= p < b)%nat) ->
  (count_live slots <= b - a)%nat.
Proof.
  intros Hab H.
  rewrite <- (take_drop a slots), count_live_app.
  rewrite (count_live_none (take a slots)).
  2:{ intros p s Hp. apply lookup_take_Some in Hp. destruct Hp as [Hp Hl].
      destruct (is_live s) eqn:L; [|reflexivity].
      specialize (H p s Hp L). lia. }
  rewrite <- (take_drop (b - a) (drop a slots)), count_live_app.
  rewrite (count_live_none (drop (b - a) (drop a slots))).
  2:{ intros p s Hp. rewrite !lookup_drop in Hp.
      destruct (is_live s) eqn:L; [|reflexivity].
      specialize (H _ s Hp L). lia. }
  pose proof (count_live_le (take (b - a) (drop a slots))) as L.
  rewrite length_take in L. lia.
Qed.

Lemma flushed_released_bound st :
  flushed_released st ->
  Z.of_nat (resident st)
  <= highest_filled (emitstrings st) - (lastemitted st + 1) + 1 /\
  forall p s, emitstrings st !! p = Some s ->
    Z.of_nat p < lastemitted st + 1 -> s = Released.
Proof.
  intros [B H]. split.
  2:{ intros p s Hp L. apply (H p s Hp). lia. }
  pose proof (highest_filled_bound (emitstrings st)) as HB.
  assert (HL : lastemitted st <= highest_filled (emitstrings st)).
  { destruct (Z_lt_le_dec (lastemitted st) 0) as [L|G]; [lia|].
    destruct (emitstrings st !! Z.to_nat (lastemitted st)) as [s|] eqn:E.
    - destruct (H _ s E) as [R _]. rewrite R in E; [|lia].
      pose proof (highest_filled_ge _ _ _ E ltac:(discriminate)). lia.
    - apply lookup_ge_None in E. lia. }
  unfold resident.
  pose proof (count_live_range (emitstrings st)
                (Z.to_nat (lastemitted st + 1))
                (Z.to_nat (highest_filled (emitstrings st) + 1))
                ltac:(lia)) as C.
  assert (count_live (emitstrings st)
          <= Z.to_nat (highest_filled (emitstrings st) + 1)
             - Z.to_nat (lastemitted st + 1))%nat; [|lia].
  apply C. intros p s Hp L. destruct (H p s Hp) as [R NR].
  assert (Hn : s <> Null) by (destruct s; simpl in L; congruence).
  pose proof (highest_filled_ge _ _ _ Hp Hn).
  destruct (Z_le_gt_dec (Z.of_nat p) (lastemitted st)) as [Le|Gt].
  - rewrite (R Le) in L. discriminate.
  - lia.
Qed.

(** An invariant of one turn of the drain loop is an invariant of the
    loop; the loop is left at a null cell, or for [bye] at the last
    position. *)
Lemma drain_invariant cfg w entrynum (P : state -> Prop) :
  (forall st st',
     P st ->
     emit_slot cfg w (set_lastemitted (lastemitted st + 1) st) = Next st' ->
     P st') ->
  forall fuel st r,
    P st ->
    (drain fuel cfg w entrynum st = Next r ->
     P r /\ idx (emitstrings r) (lastemitted r + 1) = Some Null) /\
    (drain fuel cfg w entrynum st = GotoBye r ->
     P r /\ lastemitted r = Z.of_nat entrynum - 1).
Proof.
  intros Hturn. induction fuel as [|f IH]; intros st r HP.
  - split; discriminate.
  - rewrite drain_S.
    destruct (idx (emitstrings st) (lastemitted st + 1)) as [s|] eqn:Hs;
      [|split; discriminate].
    assert (Go :
      (bind (emit_slot cfg w (set_lastemitted (lastemitted st + 1) st))
         (fun st0 =>
            if lastemitted st0 =? Z.of_nat entrynum - 1 then GotoBye st0
            else drain f cfg w entrynum st0) = Next r ->
       P r /\ idx (emitstrings r) (lastemitted r + 1) = Some Null) /\
      (bind (emit_slot cfg w (set_lastemitted (lastemitted st + 1) st))
         (fun st0 =>
            if lastemitted st0 =? Z.of_nat entrynum - 1 then GotoBye st0
            else drain f cfg w entrynum st0) = GotoBye r ->
       P r /\ lastemitted r = Z.of_nat entrynum - 1)).
    { destruct (emit_slot cfg w (set_lastemitted (lastemitted st + 1) st))
        as [st1|st1| |] eqn:E; simpl; try (split; discriminate).
      - specialize (Hturn st st1 HP E).
        destruct (lastemitted st1 =? Z.of_nat entrynum - 1) eqn:L.
        + split; [discriminate|]. intros H. injection H as <-.
          apply Z.eqb_eq in L. auto.
        + apply IH, Hturn.
      - exfalso. exact (emit_slot_no_bye _ _ _ _ E). }
    destruct s; [|exact Go|exact Go].
    split; [|discriminate]. intros H. injection H as <-. auto.
Qed.

Lemma flushed_released_turn cfg w st st' :
  flushed_released st ->
  emit_slot cfg w (set_lastemitted (lastemitted st + 1) st) = Next st' ->
  flushed_released st'.
Proof.
  intros [B H] E. destruct (emit_slot_spec _ _ _ _ E) as (s & Hi & Es & _ & El & _).
  simpl in *. unfold idx in Hi.
  destruct (lastemitted st + 1 <? 0) eqn:Neg; [discriminate|].
  apply Z.ltb_ge in Neg. pose proof (lookup_lt_Some _ _ _ Hi) as Lt.
  split.
  - rewrite El, Es, length_insert. lia.
  - intros p x Hp. rewrite Es in Hp. rewrite El.
    destruct (decide (p = Z.to_nat (lastemitted st + 1))) as [->|Hne].
    + rewrite list_lookup_insert_eq in Hp by exact Lt. injection Hp as <-.
      split; [reflexivity|lia].
    + rewrite list_lookup_insert_ne in Hp by congruence.
      destruct (H p x Hp) as [R NR]. split; intros L.
      * apply R. lia.
      * apply NR. lia.
Qed.

Lemma flushed_released_step cfg w tbl st line st' :
  flushed_released st -> step cfg w tbl st line = Next st' ->
  flushed_released st'.
Proof.
  intros K H. unfold step in H.
  assert (Acc : forall s, flushed_released s ->
                          flushed_released (accumulate cfg (chomp_cr line) s)).
  { intros s Ks. unfold accumulate. destruct (emit s); [|exact Ks].
    destruct (gbl_reject cfg); exact Ks. }
  destruct (is_header (chomp_cr line)); simpl in H.
  2:{ injection H as <-. now apply Acc. }
  destruct (on_header cfg w tbl (chomp_cr line) st) as [st2| | |] eqn:E;
    simpl in H; try discriminate.
  injection H as <-. apply Acc.
  unfold on_header in E.
  destruct (new_entry cfg w tbl st) as [st1| | |] eqn:E1; simpl in E;
    try discriminate.
  assert (K1 : flushed_released st1).
  { unfold new_entry in E1. destruct (gbl_reject cfg).
    - injection E1 as <-. exact K.
    - unfold store_accum in E1. simpl in E1.
      destruct (accumstring st) as [acc|]; [|injection E1 as <-; exact K].
      destruct (idx tbl (emitting st)) as [r|]; [|discriminate].
      destruct (emitstrings st !! order r) as [[| |]|] eqn:Hr;
        try discriminate.
      refine (proj1 (proj1 (drain_invariant cfg w (length tbl)
                flushed_released (flushed_released_turn cfg w) _ _ st1 _)
                E1)).
      destruct K as [B HK]. split; simpl.
      + rewrite length_insert. exact B.
      + intros p x Hp.
        destruct (decide (p = order r)) as [->|Hne].
        * rewrite list_lookup_insert_eq in Hp
            by (eapply lookup_lt_Some; eauto).
          injection Hp as <-. split; [|discriminate].
          intros L. destruct (HK _ _ Hr) as [R _]. specialize (R L).
          discriminate.
        * rewrite list_lookup_insert_ne in Hp by congruence.
          exact (HK p x Hp). }
  unfold match_entry in E.
  destruct (xorb _ _); [|injection E as <-; exact K1].
  destruct (gbl_reject cfg); simpl in E.
  - injection E as <-. exact K1.
  - unfold select_match in E. simpl in E.
    destruct (idx (emitlist st1) _) as [[|]|]; try discriminate.
    destruct (frag_on cfg).
    + destruct (idx tbl _) as [r|]; [|discriminate].
      destruct (group r) as [g|]; [|discriminate].
      destruct (String.length g =? 0)%nat; [discriminate|].
      destruct (order r <? _)%nat; [|discriminate].
      simpl in E. injection E as <-. exact K1.
    + simpl in E. injection E as <-. exact K1.
Qed.

Lemma started_shape cfg w tbl st :
  started cfg w tbl st ->
  exists warnings,
    build_index cfg (sel_file w) = inr (tbl, warnings) /\
    get_entries cfg (sel_file w) <> [] /\
    let n := length (get_entries cfg (sel_file w)) in
    emitlist st = replicate n false /\
    emitstrings st = replicate n Null /\
    emitgroups st = replicate n None /\
    accumstring st = None /\ emit st = false /\ lastemitted st = -1 /\
    emitted st = O /\ written (trace st) = [] /\ stderr st = warnings.
Proof.
  intros (warnings & B & Hne & H). exists warnings.
  split; [exact B|]. split; [exact Hne|]. unfold open_out in H.
  destruct (frag_on cfg); [injection H as <-; repeat split|].
  destruct (gbl_out cfg) as [path|]; [|injection H as <-; repeat split].
  destruct (String.eqb path "-"); [injection H as <-; repeat split|].
  destruct (can_write w path); [injection H as <-; repeat split|discriminate].
Qed.

Lemma flushed_released_reachable cfg w tbl st :
  reachable cfg w tbl st -> flushed_released st.
Proof.
  apply (reachable_invariant cfg w tbl flushed_released).
  - intros s Hs. destruct (started_shape _ _ _ _ Hs)
      as (warnings & _ & Hne & _ & Es & _ & _ & _ & El & _).
    split.
    + rewrite El, Es, length_replicate.
      destruct (get_entries cfg (sel_file w)); [congruence|simpl; lia].
    + intros p x Hp. rewrite Es in Hp. apply lookup_replicate in Hp.
      destruct Hp as [-> _]. rewrite El. split; [lia|discriminate].
  - intros s line s' K H. eapply flushed_released_step; eauto.
Qed.

(** C6.  Between any two lines of the reading loop, the number of payloads
    held in [emitstrings] is at most the highest filled position minus the
    next position to write, plus one; every cell below the next position
    to write has been released. *)
Theorem buffer_memory_bound cfg w tbl st :
  reachable cfg w tbl st ->
  Z.of_nat (resident st)
  <= highest_filled (emitstrings st) - (lastemitted st + 1) + 1 /\
  forall p s, emitstrings st !! p = Some s ->
    Z.of_nat p < lastemitted st + 1 -> s = Released.
Proof.
  intros H. apply flushed_released_bound.
  eapply flushed_released_reachable; eauto.
Qed.

Lemma buffer_memory_bound_witness :
  let cfg := select_cfg false false in
  let w := plain_world ["C"; "B"; "A"; "D"] [] in
  let tbl := table_of cfg ["C"; "B"; "A"; "D"] in
  let st := state_after cfg w tbl (start_of cfg w)
              [">A"; "AAAA"; ">B"; "GGGG"; ">C"; "TTTT"; ">D"] in
  resident st = 0%nat /\ lastemitted st = 2 /\
  Z.of_nat (resident st)
  <= highest_filled (emitstrings st) - (lastemitted st + 1) + 1 /\
  forall p s, emitstrings st !! p = Some s ->
    Z.of_nat p < lastemitted st + 1 -> s = Released.
Proof.
  intros cfg w tbl st.
  split; [by_computation|]. split; [by_computation|].
  apply (buffer_memory_bound cfg w tbl st).
  show_reachable (start_of cfg w)
    [">A"; "AAAA"; ">B"; "GGGG"; ">C"; "TTTT"; ">D"] (@nil diag).
Defined.

(** ** Early termination *)


Lemma match_entry_frame cfg tbl bigstring st st' :
  match_entry cfg tbl bigstring st = Next st' ->
  emitstrings st' = emitstrings st /\ lastemitted st' = lastemitted st /\
  trace st' = trace st /\ fs st' = fs st /\ stderr st' = stderr st /\
  fout st' = fout st /\ last_group st' = last_group st /\
  records st' = records st.
Proof.
  unfold match_entry. intros E.
  destruct (xorb _ _); [|injection E as <-; repeat split].
  destruct (gbl_reject cfg); simpl in E.
  - injection E as <-. repeat split.
  - unfold select_match in E. simpl in E.
    destruct (idx (emitlist st) _) as [[|]|]; try discriminate.
    destruct (frag_on cfg).
    + destruct (idx tbl _) as [r|]; [|discriminate].
      destruct (group r) as [g|]; [|discriminate].
      destruct (String.length g =? 0)%nat; [discriminate|].
      destruct (order r <? _)%nat; [|discriminate].
      simpl in E. injection E as <-. repeat split.
    + simpl in E. injection E as <-. repeat split.
Qed.

Lemma match_entry_no_bye cfg tbl bigstring st st' :
  match_entry cfg tbl bigstring st <> GotoBye st'.
Proof.
  unfold match_entry.
  destruct (xorb _ _); [|discriminate].
  destruct (gbl_reject cfg); simpl; [discriminate|].
  unfold select_match. simpl.
  destruct (idx (emitlist st) _) as [[|]|]; try discriminate.
  destruct (frag_on cfg); [|discriminate].
  destruct (idx tbl _) as [r|]; [|discriminate].
  destruct (group r) as [g|]; [|discriminate].
  destruct (String.length g =? 0)%nat; [discriminate|].
  destruct (order r <? _)%nat; discriminate.
Qed.

Lemma accumulate_frame cfg bigstring st :
  emitstrings (accumulate cfg bigstring st) = emitstrings st /\
  lastemitted (accumulate cfg bigstring st) = lastemitted st /\
  emitlist (accumulate cfg bigstring st) = emitlist st /\
  emitted (accumulate cfg bigstring st) = emitted st /\
  stderr (accumulate cfg bigstring st) = stderr st.
Proof.
  unfold accumulate. destruct (emit st); [|repeat split].
  destruct (gbl_reject cfg); repeat split.
Qed.











(** ** The reorder buffer in select mode *)

Lemma slot_of_update content last q a p :
  slot_of (update content q a) last p
  = if (p =? q)%nat
    then (if Z.of_nat p <=? last then Released else Live a)
    else slot_of content last p.
Proof.
  unfold slot_of, update. destruct (p =? q)%nat; reflexivity.
Qed.

Lemma payloads_app content from n m :
  payloads content from (n + m)
  = payloads content from n ++ payloads content (from + n) m.
Proof. unfold payloads. now rewrite seq_app, omap_app. Qed.

Lemma payloads_S content from n :
  payloads content from (S n)
  = match content from with
    | Some y => y :: payloads content (S from) n
    | None => payloads content (S from) n
    end.
Proof. reflexivity. Qed.

Lemma payloads_ext c1 c2 from n :
  (forall p, (from <= p < from + n)%nat -> c1 p = c2 p) ->
  payloads c1 from n = payloads c2 from n.
Proof.
  revert from. induction n as [|n IH]; intros from H; [reflexivity|].
  rewrite !payloads_S, (H from) by lia.
  rewrite (IH (S from)); [reflexivity|]. intros p Hp. apply H. lia.
Qed.

Lemma switch_sink_ok cfg w st :
  (frag_on cfg = true -> is_Some (gbl_out cfg)) ->
  0 <= lastemitted st ->
  (frag_on cfg = true ->
   exists g, emitgroups st !! Z.to_nat (lastemitted st) = Some (Some g)) ->
  match switch_sink cfg w st with
  | Next _ => True
  | GotoBye _ => False
  | Insane e _ => sink_failure e
  | Fault => False
  end.
Proof.
  intros T L G. unfold switch_sink.
  destruct (gbl_frag cfg) eqn:F; [exact I| |].
  all: assert (Fo : frag_on cfg = true) by (unfold frag_on; now rewrite F).
  all: destruct (G Fo) as [g Hg].
  all: unfold idx; destruct (lastemitted st <? 0) eqn:Neg;
    [apply Z.ltb_lt in Neg; lia|].
  all: rewrite Hg.
  all: destruct (T Fo) as [template ->].
  all: destruct (strcmp (last_group st) g); try exact I.
  all: unfold open_sink; simpl.
  all: try (destruct (file_exists _ _); [exact I|]).
  all: destruct (can_write w _); exact I.
Qed.

Lemma switch_sink_none cfg w st :
  gbl_frag cfg = FRAG_NONE -> switch_sink cfg w st = Next st.
Proof. intros F. unfold switch_sink. now rewrite F. Qed.

Lemma switch_sink_insane cfg w st e st' :
  switch_sink cfg w st = Insane e st' ->
  sink_failure e /\ gbl_frag cfg <> FRAG_NONE /\
  written (trace st') = written (trace st).
Proof.
  unfold switch_sink, open_sink. intros H.
  destruct (gbl_frag cfg); [discriminate| |];
    (destruct (idx (emitgroups st) (lastemitted st)) as [[g|]|];
       try discriminate;
     destruct (gbl_out cfg) as [template|]; try discriminate;
     destruct (strcmp (last_group st) g); try discriminate).
  1,2: destruct (file_exists _ _);
    [injection H as <- <-; simpl; rewrite written_app; simpl;
     rewrite app_nil_r; repeat split; discriminate|].
  all: simpl in H; destruct (can_write w _); [discriminate|];
    injection H as <- <-; simpl; rewrite written_app; simpl;
    rewrite app_nil_r; repeat split; discriminate.
Qed.

Lemma slot_of_next content last p :
  Z.of_nat p <> last + 1 ->
  slot_of content (last + 1) p = slot_of content last p.
Proof.
  intros H. unfold slot_of.
  destruct (Z.of_nat p <=? last + 1) eqn:A;
    destruct (Z.of_nat p <=? last) eqn:B; try reflexivity.
  - apply Z.leb_le in A. apply Z.leb_gt in B. lia.
  - apply Z.leb_gt in A. apply Z.leb_le in B. lia.
Qed.

(** One turn of the drain loop on a filled position. *)
Lemma emit_turn cfg w tbl n content st :
  table_ok cfg tbl n -> buffer_inv cfg tbl n content st ->
  lastemitted st < Z.of_nat (length tbl) - 1 ->
  is_Some (content (Z.to_nat (lastemitted st + 1))) ->
  match emit_slot cfg w (set_lastemitted (lastemitted st + 1) st) with
  | Next st' =>
      buffer_inv cfg tbl n content st' /\ same_scanner st st' /\
      lastemitted st' = lastemitted st + 1
  | GotoBye _ => False
  | Insane e st' =>
      sink_failure e /\ gbl_frag cfg <> FRAG_NONE /\
      written (trace st') = written (trace st)
  | Fault => False
  end.
Proof.
  intros T B L [s C].
  pose proof (bi_cursor _ _ _ _ _ B) as Cur.
  pose proof (tk_length _ _ _ T) as Len.
  set (st1 := set_lastemitted (lastemitted st + 1) st).
  assert (Hslot : emitstrings st !! Z.to_nat (lastemitted st + 1)
                  = Some (Live s)).
  { rewrite (bi_slots _ _ _ _ _ B) by lia. unfold slot_of.
    destruct (Z.of_nat (Z.to_nat (lastemitted st + 1)) <=? lastemitted st)
      eqn:E; [apply Z.leb_le in E; lia|]. now rewrite C. }
  pose proof (switch_sink_ok cfg w st1 (tk_out _ _ _ T)) as S.
  unfold emit_slot.
  destruct (switch_sink cfg w st1) as [st2|st2|e st2|] eqn:E; simpl.
  - destruct (switch_sink_frame _ _ _ _ E) as (Sc & Es & El & Ew).
    simpl in Es, El, Ew. unfold idx. rewrite Es, El.
    destruct (lastemitted st + 1 <? 0) eqn:Neg;
      [apply Z.ltb_lt in Neg; lia|].
    rewrite Hslot. split; [|split; [|exact El]].
    + destruct Sc as (S1 & S2 & _).
      constructor; simpl; rewrite ?El, ?Es, ?S2.
      * rewrite length_insert. apply B.
      * apply B.
      * lia.
      * intros p Hp.
        destruct (decide (p = Z.to_nat (lastemitted st + 1))) as [->|Hne].
        -- rewrite list_lookup_insert_eq
             by (rewrite (bi_slots_len _ _ _ _ _ B); lia).
           unfold slot_of.
           destruct (Z.of_nat (Z.to_nat (lastemitted st + 1))
                     <=? lastemitted st + 1) eqn:A; [reflexivity|].
           apply Z.leb_gt in A. lia.
        -- rewrite list_lookup_insert_ne by congruence.
           rewrite slot_of_next by lia. now apply B.
      * rewrite written_app, Ew, (bi_written _ _ _ _ _ B). simpl.
        replace (Z.to_nat (lastemitted st + 1 + 1))
          with (Z.to_nat (lastemitted st + 1) + 1)%nat by lia.
        rewrite payloads_app. f_equal. simpl.
        rewrite payloads_S, C. reflexivity.
      * intros p Hp.
        destruct (decide (p = Z.to_nat (lastemitted st + 1))) as [->|Hne];
          [now exists s|].
        apply (bi_flushed _ _ _ _ _ B). lia.
      * apply B.
    + destruct Sc as (S1 & S2 & S3 & S4 & S5 & S6 & S7 & S8).
      repeat split; simpl; assumption.
  - exact (switch_sink_no_bye _ _ _ _ E).
  - destruct (switch_sink_insane _ _ _ _ _ E) as (F1 & F2 & F3).
    repeat split; auto.
  - apply S; simpl; [lia|].
    intros Fo. apply (bi_groups _ _ _ _ _ B Fo). now exists s.
Qed.

(** The drain loop on a buffer that holds [content]. *)
Lemma drain_buffer cfg w tbl n content fuel : forall st,
  table_ok cfg tbl n -> buffer_inv cfg tbl n content st ->
  lastemitted st < Z.of_nat (length tbl) - 1 ->
  Z.of_nat (length tbl) - 1 - lastemitted st <= Z.of_nat fuel ->
  match drain fuel cfg w (length tbl) st with
  | Next r =>
      buffer_inv cfg tbl n content r /\ same_scanner st r /\
      lastemitted r < Z.of_nat (length tbl) - 1 /\
      content (Z.to_nat (lastemitted r + 1)) = None
  | GotoBye r =>
      buffer_inv cfg tbl n content r /\ same_scanner st r /\
      lastemitted r = Z.of_nat (length tbl) - 1
  | Insane e _ => sink_failure e /\ gbl_frag cfg <> FRAG_NONE
  | Fault => False
  end.
Proof.
  induction fuel as [|f IH]; intros st T B L F; [lia|].
  rewrite drain_S.
  pose proof (bi_cursor _ _ _ _ _ B) as Cur.
  pose proof (tk_length _ _ _ T) as Len.
  unfold idx. destruct (lastemitted st + 1 <? 0) eqn:Neg;
    [apply Z.ltb_lt in Neg; lia|].
  rewrite (bi_slots _ _ _ _ _ B) by lia. unfold slot_of.
  destruct (Z.of_nat (Z.to_nat (lastemitted st + 1)) <=? lastemitted st)
    eqn:E; [apply Z.leb_le in E; lia|].
  destruct (content (Z.to_nat (lastemitted st + 1))) as [s|] eqn:C.
  2:{ split; [exact B|]. split; [apply same_scanner_refl|]. split; [lia|].
      exact C. }
  pose proof (emit_turn cfg w tbl n content st T B L
                (ex_intro _ s C)) as Turn.
  destruct (emit_slot cfg w (set_lastemitted (lastemitted st + 1) st))
    as [st1|st1|e st1|]; simpl; try contradiction.
  - destruct Turn as (B1 & Sc & El).
    destruct (lastemitted st1 =? Z.of_nat (length tbl) - 1) eqn:Q.
    + apply Z.eqb_eq in Q. auto.
    + apply Z.eqb_neq in Q.
      specialize (IH st1 T B1 ltac:(lia) ltac:(lia)).
      destruct (drain f cfg w (length tbl) st1) as [r|r|e r|]; auto.
      * destruct IH as (B2 & Sc2 & L2 & C2).
        split; [exact B2|]. split; [|auto].
        eapply same_scanner_trans; eauto.
      * destruct IH as (B2 & Sc2 & L2).
        split; [exact B2|]. split; [|auto].
        eapply same_scanner_trans; eauto.
  - destruct Turn as (F1 & F2 & _). auto.
Qed.

(** [bin_search] returns [-1] or the index of a row with the name. *)
Lemma bin_search_loop_range tbl k fuel : forall bot top,
  bin_search_loop fuel k tbl bot top = -1 \/
  (0 <= bin_search_loop fuel k tbl bot top /\
   exists r,
     tbl !! Z.to_nat (bin_search_loop fuel k tbl bot top) = Some r /\
     name r = k) \/
  bot < 0.
Proof.
  induction fuel as [|f IH]; intros bot top; simpl; [now left|].
  destruct (bot <=? top) eqn:Hbt; [|now left].
  apply Z.leb_le in Hbt.
  destruct (Z_lt_le_dec bot 0) as [Neg|Pos]; [now right; right|].
  assert (Hmid : bot <= (bot + top) / 2 <= top).
  { split; [apply Z.div_le_lower_bound|apply Z.div_le_upper_bound]; lia. }
  destruct (tbl !! Z.to_nat ((bot + top) / 2)) as [r|] eqn:Hr; [|now left].
  destruct (strcmp (name r) k) eqn:C.
  - right. left. split; [lia|]. exists r. split; [exact Hr|].
    now apply strcmp_eq.
  - destruct (IH ((bot + top) / 2 + 1) top) as [H|[H|H]]; auto. lia.
  - destruct (IH bot ((bot + top) / 2 - 1)) as [H|[H|H]]; auto.
Qed.

Lemma bin_search_range tbl k :
  bin_search k tbl = -1 \/
  (0 <= bin_search k tbl /\
   exists r, tbl !! Z.to_nat (bin_search k tbl) = Some r /\ name r = k).
Proof.
  unfold bin_search.
  destruct (bin_search_loop_range tbl k (S (length tbl)) 0
              (Z.of_nat (length tbl) - 1)) as [H|[H|H]]; auto. lia.
Qed.

Lemma orders_inj tbl i j a b :
  NoDup (map order tbl) -> tbl !! i = Some a -> tbl !! j = Some b ->
  order a = order b -> i = j.
Proof.
  intros Hd Ha Hb E.
  apply (NoDup_lookup (map order tbl) i j (order a)); auto.
  - change (map order tbl) with (order <$> tbl).
    now rewrite list_lookup_fmap, Ha.
  - change (map order tbl) with (order <$> tbl).
    rewrite list_lookup_fmap, Hb. simpl. now rewrite E.
Qed.

Lemma count_true_app a b :
  count_true (a ++ b) = (count_true a + count_true b)%nat.
Proof. induction a as [|x a IH]; simpl; [reflexivity|]. rewrite IH. lia. Qed.

Lemma count_true_set flags m :
  flags !! m = Some false ->
  count_true (<[m:=true]> flags) = S (count_true flags).
Proof.
  revert m. induction flags as [|f flags IH]; intros [|m] H;
    simpl in *; try discriminate.
  - now injection H as ->.
  - rewrite (IH m H). lia.
Qed.

Lemma count_true_le flags : (count_true flags <= length flags)%nat.
Proof.
  induction flags as [|f flags IH]; simpl; [lia|]. destruct f; lia.
Qed.

Lemma count_true_all flags :
  count_true flags = length flags ->
  forall i b, flags !! i = Some b -> b = true.
Proof.
  induction flags as [|f flags IH]; intros H i b Hi; [discriminate|].
  simpl in H. pose proof (count_true_le flags) as L.
  destruct f; [|lia]. destruct i as [|i]; simpl in Hi.
  - now injection Hi as <-.
  - apply (IH ltac:(lia) i b Hi).
Qed.

Lemma count_true_some_false flags i :
  flags !! i = Some false -> (count_true flags < length flags)%nat.
Proof.
  intros H. pose proof (count_true_le flags) as L.
  destruct (decide (count_true flags = length flags)) as [E|Ne]; [|lia].
  pose proof (count_true_all flags E i false H). discriminate.
Qed.

Lemma stored_flags cfg tbl n content st :
  table_ok cfg tbl n -> scanner_inv cfg tbl n content st ->
  flags_inv tbl (stored tbl st content) (emitlist st).
Proof.
  intros T Sc i r Hi.
  destruct (si_flags _ _ _ _ _ Sc i r Hi) as (b & Hb & Iff).
  exists b. split; [exact Hb|]. rewrite Iff. unfold stored.
  pose proof (si_accum _ _ _ _ _ Sc) as A.
  destruct (accumstring st) as [a|].
  - destruct A as (_ & r0 & Hr0 & C0 & _). rewrite Hr0.
    unfold update. unfold idx in Hr0.
    destruct (emitting st <? 0) eqn:Neg; [discriminate|].
    apply Z.ltb_ge in Neg.
    destruct (order r =? order r0)%nat eqn:E.
    + apply Nat.eqb_eq in E.
      pose proof (orders_inj tbl _ _ _ _ (tk_orders _ _ _ T) Hi Hr0 E).
      split; [eauto|]. intros _. right. split; [eauto|]. lia.
    + apply Nat.eqb_neq in E. split.
      * intros [H|[_ H]]; [exact H|].
        assert (i = Z.to_nat (emitting st)) by lia. subst i.
        rewrite Hi in Hr0. injection Hr0 as ->. congruence.
      * auto.
  - split; [|auto]. intros [H|[[x H] _]]; [exact H|discriminate].
Qed.

Lemma stored_rows cfg tbl n content st :
  scanner_inv cfg tbl n content st ->
  forall p, is_Some (stored tbl st content p) ->
    exists r, r ∈ tbl /\ order r = p.
Proof.
  intros Sc p. unfold stored.
  destruct (accumstring st) as [a|]; [|apply Sc].
  destruct (idx tbl (emitting st)) as [r0|] eqn:Hr0; [|apply Sc].
  unfold update. destruct (p =? order r0)%nat eqn:E; [|apply Sc].
  intros _. apply Nat.eqb_eq in E. exists r0. split; [|auto].
  unfold idx in Hr0. destruct (emitting st <? 0); [discriminate|].
  eapply list_elem_of_lookup_2; eauto.
Qed.

Lemma buffer_inv_ext cfg tbl n content st st' :
  buffer_inv cfg tbl n content st ->
  emitstrings st' = emitstrings st -> emitgroups st' = emitgroups st ->
  lastemitted st' = lastemitted st ->
  written (trace st') = written (trace st) ->
  buffer_inv cfg tbl n content st'.
Proof.
  intros B Es Eg El Ew. constructor; rewrite ?Es, ?Eg, ?El, ?Ew; apply B.
Qed.

Lemma new_entry_inv cfg w tbl n content st :
  table_ok cfg tbl n ->
  buffer_inv cfg tbl n content st -> scanner_inv cfg tbl n content st ->
  lastemitted st < Z.of_nat (length tbl) - 1 ->
  match new_entry cfg w tbl st with
  | Next r =>
      buffer_inv cfg tbl n (stored tbl st content) r /\
      lastemitted r < Z.of_nat (length tbl) - 1 /\ after_store st r
  | GotoBye r =>
      buffer_inv cfg tbl n (stored tbl st content) r /\
      lastemitted r = Z.of_nat (length tbl) - 1 /\ after_store st r
  | Insane e _ => sink_failure e /\ gbl_frag cfg <> FRAG_NONE
  | Fault => False
  end.
Proof.
  intros T B Sc L. unfold new_entry. rewrite (tk_select _ _ _ T).
  unfold store_accum, stored.
  change (accumstring (set_records (S (records st)) st))
    with (accumstring st).
  change (emitting (set_records (S (records st)) st)) with (emitting st).
  change (emitstrings (set_records (S (records st)) st))
    with (emitstrings st).
  pose proof (si_accum _ _ _ _ _ Sc) as A.
  destruct (accumstring st) as [a|] eqn:Ha.
  2:{ split; [|split; [exact L|]].
      - eapply buffer_inv_ext; eauto.
      - repeat split. exact Ha. }
  destruct A as (Em & r & Hr & C & G). rewrite Hr.
  assert (Hin : r ∈ tbl).
  { unfold idx in Hr. destruct (emitting st <? 0); [discriminate|].
    eapply list_elem_of_lookup_2; eauto. }
  pose proof (tk_rows _ _ _ T r Hin) as Hn.
  assert (Hlast : lastemitted st < Z.of_nat (order r)).
  { destruct (Z_lt_le_dec (lastemitted st) (Z.of_nat (order r)))
      as [Lt|Ge]; [exact Lt|].
    destruct (bi_flushed _ _ _ _ _ B (order r) Ge) as [x Hx]. congruence. }
  rewrite (bi_slots _ _ _ _ _ B) by exact Hn.
  unfold slot_of at 1.
  destruct (Z.of_nat (order r) <=? lastemitted st) eqn:Q;
    [apply Z.leb_le in Q; lia|].
  rewrite C.
  set (st2 := set_emitting 0 (set_accumstring None
                (set_emitstrings (<[order r:=Live a]> (emitstrings st))
                   (set_records (S (records st)) st)))).
  assert (B2 : buffer_inv cfg tbl n (update content (order r) a) st2).
  { constructor; simpl.
    - rewrite length_insert. apply B.
    - apply B.
    - apply B.
    - intros p Hp. rewrite slot_of_update.
      destruct (p =? order r)%nat eqn:E.
      + apply Nat.eqb_eq in E. subst p.
        rewrite list_lookup_insert_eq
          by (rewrite (bi_slots_len _ _ _ _ _ B); exact Hn).
        now rewrite Q.
      + apply Nat.eqb_neq in E.
        rewrite list_lookup_insert_ne by congruence. now apply B.
    - rewrite (bi_written _ _ _ _ _ B). apply payloads_ext.
      intros p Hp. unfold update.
      destruct (p =? order r)%nat eqn:E; [|reflexivity].
      apply Nat.eqb_eq in E. lia.
    - intros p Hp. unfold update.
      destruct (p =? order r)%nat eqn:E; [eauto|].
      now apply (bi_flushed _ _ _ _ _ B).
    - intros Fo p. unfold update.
      destruct (p =? order r)%nat eqn:E.
      + apply Nat.eqb_eq in E. subst p. intros _. exact (G Fo).
      + apply (bi_groups _ _ _ _ _ B Fo). }
  pose proof (drain_buffer cfg w tbl n (update content (order r) a)
                (S (length (emitstrings st2))) st2 T B2 L) as D.
  assert (Hfuel : Z.of_nat (length tbl) - 1 - lastemitted st2
                  <= Z.of_nat (S (length (emitstrings st2)))).
  { rewrite (bi_slots_len _ _ _ _ _ B2).
    pose proof (bi_cursor _ _ _ _ _ B2). pose proof (tk_length _ _ _ T).
    lia. }
  specialize (D Hfuel).
  change (length (emitstrings
            (set_emitstrings (<[order r:=Live a]> (emitstrings st))
               (set_records (S (records st)) st))))
    with (length (emitstrings st2)).
  fold st2.
  destruct (drain (S (length (emitstrings st2))) cfg w (length tbl) st2)
    as [x|x|e x|]; auto.
  - destruct D as (B3 & (S1&S2&S3&S4&S5&S6&S7&S8) & L3 & _).
    split; [exact B3|]. split; [exact L3|].
    unfold after_store. rewrite S1, S2, S3, S5, S6, S7, S8.
    repeat split.
  - destruct D as (B3 & (S1&S2&S3&S4&S5&S6&S7&S8) & L3).
    split; [exact B3|]. split; [exact L3|].
    unfold after_store. rewrite S1, S2, S3, S5, S6, S7, S8.
    repeat split.
Qed.

Lemma frag_on_none cfg : frag_on cfg = false <-> gbl_frag cfg = FRAG_NONE.
Proof. unfold frag_on. destruct (gbl_frag cfg); split; congruence. Qed.

(** The look-up of a header and the first line of the new record. *)
Lemma match_entry_inv cfg tbl n content l st :
  table_ok cfg tbl n ->
  buffer_inv cfg tbl n content st ->
  flags_inv tbl content (emitlist st) ->
  length (emitlist st) = n -> accumstring st = None ->
  emitted st = count_true (take (length tbl) (emitlist st)) ->
  (forall p, is_Some (content p) -> exists r, r ∈ tbl /\ order r = p) ->
  let m := bin_search (header_key cfg l) tbl in
  match bind (match_entry cfg tbl l st)
          (fun s => Next (accumulate cfg l s)) with
  | Next st' =>
      buffer_inv cfg tbl n content st' /\
      scanner_inv cfg tbl n content st' /\
      lastemitted st' = lastemitted st /\ stderr st' = stderr st /\
      accumstring st'
      = (if m =? -1 then None else Some ("" +:+ l +:+ LF)) /\
      (m <> -1 -> emitting st' = m /\ idx (emitlist st) m = Some false)
  | GotoBye _ => False
  | Insane e _ =>
      (e = MissingGroup /\ gbl_frag cfg <> FRAG_NONE) \/
      (exists h, e = DuplicateMatchError h /\
                 idx (emitlist st) m = Some true)
  | Fault => False
  end.
Proof.
  intros T B Fl Len Acc Em Rows m.
  unfold match_entry. fold m. rewrite (tk_select _ _ _ T).
  pose proof (tk_length _ _ _ T) as TL.
  destruct (bin_search_range tbl (header_key cfg l)) as [Hm|[Hm (r & Hr & Hk)]];
    fold m in Hm.
  - (* no row has the name *)
    rewrite Hm. simpl. unfold accumulate. simpl.
    split; [eapply buffer_inv_ext; eauto|].
    split; [|repeat split; auto; congruence].
    constructor; simpl; auto.
    + intros i x Hi. destruct (Fl i x Hi) as (b & Hb & Iff).
      exists b. split; [exact Hb|]. rewrite Iff, Acc. split; [auto|].
      intros [H|[[y H] _]]; [exact H|discriminate].
    + now rewrite Acc.
  - fold m in Hr.
    assert (Hne : (m =? -1) = false) by (apply Z.eqb_neq; lia).
    rewrite Hne. simpl. unfold select_match.
    change (emitlist (set_emitting m (set_emit false st)))
      with (emitlist st).
    destruct (Fl _ r Hr) as (b & Hb & Iff).
    assert (Hidx : idx (emitlist st) m = Some b).
    { unfold idx. destruct (m <? 0) eqn:Neg; [apply Z.ltb_lt in Neg; lia|].
      exact Hb. }
    rewrite Hidx. destruct b.
    { simpl. right. eauto. }
    assert (Hc : content (order r) = None).
    { destruct (content (order r)) eqn:C; [|reflexivity].
      destruct Iff as [_ Iff]. discriminate Iff. eauto. }
    assert (Hin : r ∈ tbl) by (eapply list_elem_of_lookup_2; eauto).
    pose proof (tk_rows _ _ _ T r Hin) as Hn.
    pose proof (lookup_lt_Some _ _ _ Hr) as Hmlt.
    set (flags' := <[Z.to_nat m:=true]> (emitlist st)).
    assert (Hflags : forall i x, tbl !! i = Some x ->
              exists b, flags' !! i = Some b /\
                (b = true <->
                 is_Some (content (order x)) \/ m = Z.of_nat i)).
    { intros i x Hi. unfold flags'.
      destruct (decide (i = Z.to_nat m)) as [->|Hd].
      - exists true. rewrite list_lookup_insert_eq by lia.
        split; [reflexivity|]. split; [|auto]. intros _. right. lia.
      - rewrite list_lookup_insert_ne by congruence.
        destruct (Fl i x Hi) as (b & Hb' & Iff'). exists b.
        split; [exact Hb'|]. rewrite Iff'. split; [auto|].
        intros [H|H]; [exact H|lia]. }
    assert (Hcount : S (emitted st)
                     = count_true (take (length tbl) flags')).
    { unfold flags'. rewrite take_insert_lt by lia.
      rewrite count_true_set; [congruence|].
      apply lookup_take_Some. split; [exact Hb|lia]. }
    destruct (frag_on cfg) eqn:Fo.
    + unfold idx. destruct (m <? 0) eqn:Neg; [apply Z.ltb_lt in Neg; lia|].
      rewrite Hr.
      assert (Fne : gbl_frag cfg <> FRAG_NONE).
      { intros F. apply frag_on_none in F. congruence. }
      destruct (group r) as [g|]; [|simpl; left; auto].
      destruct (String.length g =? 0)%nat; [simpl; left; auto|].
      cbn [emitgroups set_emitlist set_emitting set_emit].
      rewrite (bi_groups_len _ _ _ _ _ B).
      destruct (order r <? n)%nat eqn:Q; [|apply Nat.ltb_ge in Q; lia].
      simpl. unfold accumulate. simpl. rewrite (tk_select _ _ _ T).
      split; [|split; [|repeat split; auto; try congruence]].
      * constructor; simpl; try apply B.
        -- rewrite length_insert. apply B.
        -- intros _ p Hp.
           destruct (decide (p = order r)) as [->|Hd].
           ++ exists g. apply list_lookup_insert_eq.
              rewrite (bi_groups_len _ _ _ _ _ B). exact Hn.
           ++ rewrite list_lookup_insert_ne by congruence.
              now apply (bi_groups _ _ _ _ _ B).
      * constructor; simpl.
        -- unfold flags'. now rewrite length_insert.
        -- intros i x Hi. destruct (Hflags i x Hi) as (b & Hb' & Iff').
           exists b. split; [exact Hb'|]. rewrite Iff'.
           split; (intros [H|H]; [now left|right]); [eauto|apply H].
        -- split; [reflexivity|]. exists r. split; [|split; [exact Hc|]].
           ++ unfold idx. now rewrite Neg.
           ++ intros _. exists g. apply list_lookup_insert_eq.
              rewrite (bi_groups_len _ _ _ _ _ B). exact Hn.
        -- exact Hcount.
        -- exact Rows.
    + simpl. unfold accumulate. simpl. rewrite (tk_select _ _ _ T).
      split; [|split; [|repeat split; auto; try congruence]].
      * eapply buffer_inv_ext; eauto.
      * constructor; simpl.
        -- unfold flags'. now rewrite length_insert.
        -- intros i x Hi. destruct (Hflags i x Hi) as (b & Hb' & Iff').
           exists b. split; [exact Hb'|]. rewrite Iff'.
           split; (intros [H|H]; [now left|right]); [eauto|apply H].
        -- split; [reflexivity|]. exists r. split; [|split; [exact Hc|]].
           ++ unfold idx.
              destruct (m <? 0) eqn:Neg; [apply Z.ltb_lt in Neg; lia|].
              exact Hr.
           ++ congruence.
        -- exact Hcount.
        -- exact Rows.
Qed.

(** One turn of the reading loop in select mode. *)
Lemma step_inv cfg w tbl n content st line :
  table_ok cfg tbl n ->
  buffer_inv cfg tbl n content st -> scanner_inv cfg tbl n content st ->
  lastemitted st < Z.of_nat (length tbl) - 1 ->
  let l := chomp_cr line in
  let m := bin_search (header_key cfg l) tbl in
  match step cfg w tbl st line with
  | Next st' =>
      buffer_inv cfg tbl n (advance tbl st line content) st' /\
      scanner_inv cfg tbl n (advance tbl st line content) st' /\
      lastemitted st' < Z.of_nat (length tbl) - 1 /\
      stderr st' = stderr st /\
      accumstring st' = next_accum cfg tbl st line /\
      (is_header l = true -> m <> -1 ->
       emitting st' = m /\ idx (emitlist st) m = Some false) /\
      (is_header l = false -> emitting st' = emitting st)
  | GotoBye st' =>
      is_header l = true /\
      buffer_inv cfg tbl n (advance tbl st line content) st' /\
      lastemitted st' = Z.of_nat (length tbl) - 1 /\
      stderr st' = stderr st
  | Insane e _ =>
      (sink_failure e /\ gbl_frag cfg <> FRAG_NONE) \/
      (e = MissingGroup /\ gbl_frag cfg <> FRAG_NONE) \/
      (exists h, e = DuplicateMatchError h /\ is_header l = true /\
                 idx (emitlist st) m = Some true)
  | Fault => False
  end.
Proof.
  intros T B Sc L l m. unfold step, advance, next_accum. fold l.
  destruct (is_header l) eqn:H.
  - unfold on_header.
    pose proof (new_entry_inv cfg w tbl n content st T B Sc L) as NE.
    destruct (new_entry cfg w tbl st) as [r1|r1|e r1|]; simpl;
      try contradiction.
    + destruct NE as (B1 & L1 & (A1 & A2 & A3 & A4 & A5 & A6 & A7)).
      pose proof (match_entry_inv cfg tbl n (stored tbl st content) l r1
                    T B1) as ME.
      rewrite A1, A5 in ME.
      specialize (ME (stored_flags cfg tbl n content st T Sc)
                    (si_flags_len _ _ _ _ _ Sc) A3
                    (si_emitted _ _ _ _ _ Sc)
                    (stored_rows cfg tbl n content st Sc)).
      fold m in ME. simpl in ME.
      destruct (match_entry cfg tbl l r1) as [s|s|e s|]; simpl in *;
        try contradiction.
      * destruct ME as (B2 & S2 & L2 & E2 & Ac & Em).
        split; [exact B2|]. split; [exact S2|]. split; [lia|].
        split; [congruence|]. split; [exact Ac|].
        split; [intros _; exact Em|discriminate].
      * destruct ME as [ME|(h & -> & Hi)]; [auto|].
        right. right. exists h. auto.
    + destruct NE as (B1 & L1 & (A1 & A2 & A3 & A4 & A5 & A6 & A7)).
      auto.
    + auto.
  - simpl. unfold accumulate. rewrite (tk_select _ _ _ T).
    pose proof (si_accum _ _ _ _ _ Sc) as A.
    destruct (accumstring st) as [a|] eqn:Ha.
    + destruct A as (Em & r & Hr & C & G). rewrite Em. simpl.
      split; [eapply buffer_inv_ext; eauto|].
      split; [|repeat split; auto; discriminate].
      constructor; simpl; try apply Sc.
      * intros i x Hi.
        destruct (si_flags _ _ _ _ _ Sc i x Hi) as (b & Hb & Iff).
        exists b. split; [exact Hb|]. rewrite Iff, Ha.
        split; (intros [K|[K1 K2]]; [now left|right; split; eauto]).
      * split; [exact Em|]. exists r. auto.
    + rewrite A. split; [exact B|]. split; [exact Sc|].
      repeat split; auto; discriminate.
Qed.

(** ** After the stream is exhausted *)

Lemma emit_slot_live cfg w st s :
  (frag_on cfg = true -> is_Some (gbl_out cfg)) ->
  0 <= lastemitted st ->
  emitstrings st !! Z.to_nat (lastemitted st) = Some (Live s) ->
  (frag_on cfg = true ->
   exists g, emitgroups st !! Z.to_nat (lastemitted st) = Some (Some g)) ->
  match emit_slot cfg w st with
  | Next st' =>
      emitstrings st'
      = <[Z.to_nat (lastemitted st) := Released]> (emitstrings st) /\
      written (trace st') = written (trace st) ++ [s] /\
      lastemitted st' = lastemitted st /\ same_scanner st st'
  | GotoBye _ => False
  | Insane e _ => sink_failure e /\ gbl_frag cfg <> FRAG_NONE
  | Fault => False
  end.
Proof.
  intros To L Hs G.
  pose proof (switch_sink_ok cfg w st To L G) as S.
  unfold emit_slot.
  destruct (switch_sink cfg w st) as [st2|st2|e st2|] eqn:E; simpl;
    try contradiction.
  - destruct (switch_sink_frame _ _ _ _ E) as (Sc & Es & El & Ew).
    unfold idx. rewrite Es, El.
    destruct (lastemitted st <? 0) eqn:Neg; [apply Z.ltb_lt in Neg; lia|].
    rewrite Hs. simpl. rewrite written_app, Ew. simpl.
    destruct Sc as (S1 & S2 & S3 & S4 & S5 & S6 & S7 & S8).
    repeat split; assumption.
  - destruct (switch_sink_insane _ _ _ _ _ E) as (F1 & F2 & _). auto.
Qed.

Lemma slot_final_next content c p :
  (p <> c \/ content c = None) ->
  slot_final content (S c) p = slot_final content c p.
Proof.
  intros H. unfold slot_final. destruct (content p) eqn:C; [|reflexivity].
  destruct (p <? S c)%nat eqn:A; destruct (p <? c)%nat eqn:B;
    try reflexivity.
  - apply Nat.ltb_lt in A. apply Nat.ltb_ge in B.
    destruct H as [H|H]; [lia|]. assert (p = c) by lia. subst. congruence.
  - apply Nat.ltb_ge in A. apply Nat.ltb_lt in B. lia.
Qed.

Lemma final_drain_spec cfg w n content k : forall st c,
  (frag_on cfg = true -> is_Some (gbl_out cfg)) ->
  length (emitstrings st) = n -> (c + k <= n)%nat ->
  lastemitted st = Z.of_nat c ->
  (forall p, (p < n)%nat ->
     emitstrings st !! p = Some (slot_final content c p)) ->
  (frag_on cfg = true -> forall p, is_Some (content p) ->
     exists g, emitgroups st !! p = Some (Some g)) ->
  match final_drain k cfg w st with
  | Next r =>
      written (trace r) = written (trace st) ++ payloads content c k /\
      same_scanner st r /\ lastemitted r = Z.of_nat (c + k) /\
      forall p, (p < n)%nat ->
        emitstrings r !! p = Some (slot_final content (c + k) p)
  | GotoBye _ => False
  | Insane e _ => sink_failure e /\ gbl_frag cfg <> FRAG_NONE
  | Fault => False
  end.
Proof.
  induction k as [|k IH]; intros st c To Len Hk El Hs G; simpl.
  - unfold payloads. simpl. rewrite app_nil_r, Nat.add_0_r.
    repeat split; auto.
  - assert (Hidx : idx (emitstrings st) (lastemitted st)
                   = Some (slot_final content c c)).
    { unfold idx. rewrite El.
      destruct (Z.of_nat c <? 0) eqn:Neg; [apply Z.ltb_lt in Neg; lia|].
      rewrite Nat2Z.id. apply Hs. lia. }
    rewrite Hidx. unfold slot_final at 1. rewrite Nat.ltb_irrefl.
    destruct (content c) as [s|] eqn:C.
    + pose proof (emit_slot_live cfg w st s To ltac:(lia)) as E.
      rewrite El, Nat2Z.id in E.
      specialize (E ltac:(rewrite (Hs c) by lia; unfold slot_final;
                          now rewrite C, Nat.ltb_irrefl)
                    (fun Fo => G Fo c (ex_intro _ s C))).
      destruct (emit_slot cfg w st) as [st1|st1|e st1|]; simpl;
        try contradiction; [|exact E].
      destruct E as (Es & Ew & El1 & Sc).
      specialize (IH (set_lastemitted (lastemitted st1 + 1) st1) (S c) To).
      simpl in IH. rewrite Es, length_insert in IH.
      specialize (IH Len ltac:(lia) ltac:(lia)).
      assert (Hs1 : forall p, (p < n)%nat ->
                <[c:=Released]> (emitstrings st) !! p
                = Some (slot_final content (S c) p)).
      { intros p Hp. destruct (decide (p = c)) as [->|Hne].
        - rewrite list_lookup_insert_eq by lia. unfold slot_final.
          rewrite C. destruct (c <? S c)%nat eqn:Q; [reflexivity|].
          apply Nat.ltb_ge in Q. lia.
        - rewrite list_lookup_insert_ne by congruence.
          rewrite slot_final_next by auto. now apply Hs. }
      destruct Sc as (S1 & S2 & S3 & S4 & S5 & S6 & S7 & S8).
      specialize (IH Hs1 ltac:(rewrite S2; exact G)).
      destruct (final_drain k cfg w
                  (set_lastemitted (lastemitted st1 + 1) st1))
        as [r|r|e r|]; auto.
      destruct IH as (W & Sc' & L' & Sl'). simpl in W.
      split; [|split; [|split]].
      * rewrite W, Ew, <- app_assoc. f_equal.
        rewrite payloads_S, C. reflexivity.
      * destruct Sc' as (R1 & R2 & R3 & R4 & R5 & R6 & R7 & R8).
        simpl in *. repeat split; congruence.
      * rewrite L'. lia.
      * intros p Hp. rewrite Sl' by exact Hp. do 2 f_equal. lia.
    + specialize (IH (set_lastemitted (lastemitted st + 1) st) (S c) To).
      simpl in IH.
      specialize (IH Len ltac:(lia) ltac:(lia)).
      assert (Hs1 : forall p, (p < n)%nat ->
                emitstrings st !! p = Some (slot_final content (S c) p)).
      { intros p Hp. rewrite slot_final_next by auto. now apply Hs. }
      specialize (IH Hs1 G).
      destruct (final_drain k cfg w (set_lastemitted (lastemitted st + 1) st))
        as [r|r|e r|]; auto.
      destruct IH as (W & Sc' & L' & Sl'). simpl in W.
      split; [|split; [|split]].
      * rewrite W. f_equal. rewrite payloads_S, C. reflexivity.
      * exact Sc'.
      * rewrite L'. lia.
      * intros p Hp. rewrite Sl' by exact Hp. do 2 f_equal. lia.
Qed.

Lemma scanner_inv_ext cfg tbl n content st st' :
  scanner_inv cfg tbl n content st ->
  emitlist st' = emitlist st -> accumstring st' = accumstring st ->
  emitting st' = emitting st -> emit st' = emit st ->
  emitted st' = emitted st -> emitgroups st' = emitgroups st ->
  scanner_inv cfg tbl n content st'.
Proof.
  intros Sc E1 E2 E3 E4 E5 E6.
  constructor; rewrite ?E1, ?E2, ?E3, ?E4, ?E5, ?E6; apply Sc.
Qed.

Lemma store_last_inv cfg tbl n content st :
  table_ok cfg tbl n ->
  buffer_inv cfg tbl n content st -> scanner_inv cfg tbl n content st ->
  exists st1,
    store_last tbl st = Some st1 /\
    buffer_inv cfg tbl n (stored tbl st content) st1 /\
    trace st1 = trace st /\ stderr st1 = stderr st /\
    records st1 = records st /\ emitted st1 = emitted st /\
    fout st1 = fout st.
Proof.
  intros T B Sc. unfold store_last, stored.
  pose proof (si_accum _ _ _ _ _ Sc) as A.
  destruct (accumstring st) as [a|] eqn:Ha.
  2:{ exists st. split; [reflexivity|]. split; [exact B|]. repeat split. }
  destruct A as (Em & r & Hr & C & G). rewrite Hr.
  assert (Hin : r ∈ tbl).
  { unfold idx in Hr. destruct (emitting st <? 0); [discriminate|].
    eapply list_elem_of_lookup_2; eauto. }
  pose proof (tk_rows _ _ _ T r Hin) as Hn.
  rewrite (bi_slots_len _ _ _ _ _ B).
  destruct (order r <? n)%nat eqn:Q; [|apply Nat.ltb_ge in Q; lia].
  eexists. split; [reflexivity|]. split; [|repeat split].
  assert (Hlast : lastemitted st < Z.of_nat (order r)).
  { destruct (Z_lt_le_dec (lastemitted st) (Z.of_nat (order r)))
      as [Lt|Ge]; [exact Lt|].
    destruct (bi_flushed _ _ _ _ _ B (order r) Ge) as [x Hx]. congruence. }
  constructor; simpl.
  - rewrite length_insert. apply B.
  - apply B.
  - apply B.
  - intros p Hp. rewrite slot_of_update.
    destruct (p =? order r)%nat eqn:E.
    + apply Nat.eqb_eq in E. subst p.
      rewrite list_lookup_insert_eq
        by (rewrite (bi_slots_len _ _ _ _ _ B); exact Hn).
      destruct (Z.of_nat (order r) <=? lastemitted st) eqn:Q';
        [apply Z.leb_le in Q'; lia|reflexivity].
    + apply Nat.eqb_neq in E.
      rewrite list_lookup_insert_ne by congruence. now apply B.
  - rewrite (bi_written _ _ _ _ _ B). apply payloads_ext.
    intros p Hp. unfold update.
    destruct (p =? order r)%nat eqn:E; [|reflexivity].
    apply Nat.eqb_eq in E. lia.
  - intros p Hp. unfold update.
    destruct (p =? order r)%nat eqn:E; [eauto|].
    now apply (bi_flushed _ _ _ _ _ B).
  - intros Fo p. unfold update.
    destruct (p =? order r)%nat eqn:E.
    + apply Nat.eqb_eq in E. subst p. intros _. exact (G Fo).
    + apply (bi_groups _ _ _ _ _ B Fo).
Qed.

Lemma written_bye tbl st st' code :
  bye tbl st = Exited code st' ->
  code = EXIT_SUCCESS /\ written (trace st') = written (trace st) /\
  stderr st' = stderr st ++ [Status (length tbl) (records st) (emitted st)].
Proof.
  unfold bye. intros H. destruct (fout st); injection H as <- <-; simpl.
  - auto.
  - rewrite written_app. simpl. rewrite app_nil_r. auto.
Qed.

(** The end of main from a state of the reading loop. *)
Lemma finish_inv cfg w tbl n content st :
  table_ok cfg tbl n ->
  buffer_inv cfg tbl n content st -> scanner_inv cfg tbl n content st ->
  let short := Z.of_nat (emitted st) <=? Z.of_nat (length tbl) - 1 in
  let sev := if gbl_com cfg then Warning else FatalError in
  let report := if short then missing sev tbl (emitlist st) else [] in
  if short && negb (gbl_com cfg)
  then finish cfg w tbl st
       = Exited (EXIT_FAILURE MissingSelectorError)
           (set_stderr (stderr st ++ report) st)
  else
    match finish cfg w tbl st with
    | Exited EXIT_SUCCESS st' =>
        written (trace st')
        = payloads (stored tbl st content) 0 (length tbl) /\
        stderr st'
        = stderr st ++ report
          ++ [Status (length tbl) (records st) (emitted st)]
    | Exited (EXIT_FAILURE e) _ =>
        sink_failure e /\ gbl_frag cfg <> FRAG_NONE
    | Faulted => False
    end.
Proof.
  intros T B Sc short sev report. unfold finish.
  rewrite (tk_select _ _ _ T). simpl negb. rewrite andb_true_l.
  fold short. fold sev.
  destruct (short && negb (gbl_com cfg)) eqn:Stop.
  { apply andb_prop in Stop. destruct Stop as [-> _]. reflexivity. }
  set (st_r := if short
               then set_stderr (stderr st ++ missing sev tbl (emitlist st)) st
               else st).
  assert (Br : buffer_inv cfg tbl n content st_r).
  { unfold st_r. destruct short; [|exact B].
    eapply buffer_inv_ext; eauto. }
  assert (Sr : scanner_inv cfg tbl n content st_r).
  { unfold st_r. destruct short; [|exact Sc].
    eapply scanner_inv_ext; eauto. }
  assert (Er : stored tbl st_r content = stored tbl st content).
  { unfold st_r. destruct short; reflexivity. }
  assert (Fr : stderr st_r = stderr st ++ report
               /\ records st_r = records st /\ emitted st_r = emitted st).
  { unfold st_r, report. destruct short; simpl; [auto|].
    rewrite app_nil_r. auto. }
  destruct (store_last_inv cfg tbl n content st_r T Br Sr)
    as (st1 & -> & B1 & Tr & Se & Re & Em & Fo).
  rewrite Er in B1.
  pose proof (bi_cursor _ _ _ _ _ B1) as Cur.
  pose proof (tk_length _ _ _ T) as TL.
  set (c := Z.to_nat (lastemitted st1 + 1)).
  set (k := Z.to_nat
              (Z.of_nat (length tbl)
               - lastemitted (set_lastemitted (lastemitted st1 + 1) st1))).
  assert (Hk : (c + k = length tbl)%nat) by (unfold c, k; simpl; lia).
  pose proof (final_drain_spec cfg w n (stored tbl st content) k
                (set_lastemitted (lastemitted st1 + 1) st1) c
                (tk_out _ _ _ T)) as FD.
  simpl in FD.
  specialize (FD (bi_slots_len _ _ _ _ _ B1) ltac:(lia)
                ltac:(unfold c; lia)).
  assert (Hs : forall p, (p < n)%nat ->
            emitstrings st1 !! p
            = Some (slot_final (stored tbl st content) c p)).
  { intros p Hp. rewrite (bi_slots _ _ _ _ _ B1) by exact Hp.
    f_equal. unfold slot_of, slot_final.
    destruct (Z.of_nat p <=? lastemitted st1) eqn:Q.
    - apply Z.leb_le in Q.
      destruct (bi_flushed _ _ _ _ _ B1 p Q) as [s ->].
      destruct (p <? c)%nat eqn:Q2; [reflexivity|].
      apply Nat.ltb_ge in Q2. unfold c in Q2. lia.
    - apply Z.leb_gt in Q.
      destruct (stored tbl st content p); [|reflexivity].
      destruct (p <? c)%nat eqn:Q2; [|reflexivity].
      apply Nat.ltb_lt in Q2. unfold c in Q2. lia. }
  specialize (FD Hs (bi_groups _ _ _ _ _ B1)).
  fold k.
  destruct (final_drain k cfg w (set_lastemitted (lastemitted st1 + 1) st1))
    as [r|r|e r|]; try contradiction; [|exact FD].
  destruct FD as (W & (S1&S2&S3&S4&S5&S6&S7&S8) & _).
  pose proof (written_bye tbl r) as WB.
  destruct (bye tbl r) as [code st'|] eqn:Bye; [|discriminate].
  destruct (WB st' code eq_refl) as (-> & W' & E').
  split.
  - rewrite W', W. simpl. rewrite (bi_written _ _ _ _ _ B1).
    fold c. rewrite <- payloads_app. now rewrite Hk.
  - rewrite E', S6, S7, S8. simpl. rewrite Se, Re, Em.
    destruct Fr as (-> & -> & ->). now rewrite <- app_assoc.
Qed.

(** ** The invariants hold in every state of the reading loop *)

Lemma count_true_replicate k : count_true (replicate k false) = O.
Proof. induction k as [|k IH]; simpl; auto. Qed.

Lemma index_table_ok cfg lines tbl warnings :
  gbl_reject cfg = false ->
  (frag_on cfg = true -> is_Some (gbl_out cfg)) ->
  build_index cfg lines = inr (tbl, warnings) ->
  get_entries cfg lines <> [] ->
  table_ok cfg tbl (length (get_entries cfg lines)).
Proof.
  intros R O B Hne.
  destruct (build_index_spec _ _ _ _ B) as (Ok & _).
  constructor; auto.
  - intros r Hr. apply Ok, Hr.
  - apply Ok.
  - split; [|apply Ok].
    destruct (get_entries cfg lines) as [|e es] eqn:E; [congruence|].
    destruct (ix_keys _ _ Ok e ltac:(left)) as (r & Hr & _).
    destruct tbl; [inversion Hr|simpl; lia].
Qed.

Lemma started_inv cfg w tbl st :
  gbl_reject cfg = false ->
  (frag_on cfg = true -> is_Some (gbl_out cfg)) ->
  started cfg w tbl st ->
  let n := length (get_entries cfg (sel_file w)) in
  table_ok cfg tbl n /\
  buffer_inv cfg tbl n no_content st /\
  scanner_inv cfg tbl n no_content st /\
  lastemitted st < Z.of_nat (length tbl) - 1.
Proof.
  intros R O S n.
  destruct (started_shape _ _ _ _ S)
    as (warnings & B & Hne & Fl & Sl & Gl & Ac & Em & La & Ed & Wr & Se).
  pose proof (index_table_ok cfg _ tbl warnings R O B Hne) as T.
  fold n in T, Fl, Sl, Gl. pose proof (tk_length _ _ _ T) as TL.
  split; [exact T|]. split; [|split; [|lia]].
  - constructor; rewrite ?Sl, ?Gl, ?La, ?Wr.
    + apply length_replicate.
    + apply length_replicate.
    + lia.
    + intros p Hp. rewrite lookup_replicate_2 by exact Hp.
      unfold slot_of. destruct (Z.of_nat p <=? -1) eqn:Q; [|reflexivity].
      apply Z.leb_le in Q. lia.
    + reflexivity.
    + intros p Hp. lia.
    + intros _ p [x Hx]. discriminate.
  - constructor; rewrite ?Fl, ?Ac, ?Ed.
    + apply length_replicate.
    + intros i r Hi. exists false. split.
      * apply lookup_replicate_2. apply lookup_lt_Some in Hi. lia.
      * split; [discriminate|].
        intros [[x Hx]|[[x Hx] _]]; discriminate.
    + exact Em.
    + rewrite take_replicate. now rewrite count_true_replicate.
    + intros p [x Hx]. discriminate.
Qed.

Lemma reachable_inv cfg w tbl st :
  gbl_reject cfg = false ->
  (frag_on cfg = true -> is_Some (gbl_out cfg)) ->
  reachable cfg w tbl st ->
  let n := length (get_entries cfg (sel_file w)) in
  table_ok cfg tbl n /\
  exists content,
    buffer_inv cfg tbl n content st /\ scanner_inv cfg tbl n content st /\
    lastemitted st < Z.of_nat (length tbl) - 1.
Proof.
  intros R O Hr n.
  assert (T : table_ok cfg tbl n).
  { destruct Hr as (st0 & lines & S & _).
    apply (started_inv cfg w tbl st0 R O S). }
  split; [exact T|]. revert st Hr.
  apply (reachable_invariant cfg w tbl
           (fun st => exists content,
              buffer_inv cfg tbl n content st /\
              scanner_inv cfg tbl n content st /\
              lastemitted st < Z.of_nat (length tbl) - 1)).
  - intros st S. exists no_content. apply (started_inv cfg w tbl st R O S).
  - intros st line st' (content & B & Sc & L) H.
    pose proof (step_inv cfg w tbl n content st line T B Sc L) as SI.
    simpl in SI. rewrite H in SI.
    exists (advance tbl st line content).
    destruct SI as (B' & S' & L' & _). auto.
Qed.


Lemma count_true_lt_false flags :
  (count_true flags < length flags)%nat ->
  exists i, flags !! i = Some false.
Proof.
  induction flags as [|f flags IH]; simpl; intros H; [lia|].
  destruct f.
  - destruct (IH ltac:(lia)) as [i Hi]. now exists (S i).
  - now exists O.
Qed.



(** C7, as the program has it.  In select mode, when the reading loop
    comes to a header line whose name is found in the table at a row whose
    matched flag is set, the flush that precedes the look-up decides: if
    it leaves the loop running, the look-up ends the run at once with the
    fatal error "duplicate entry name in FASTA file", whatever -com, -cod
    and the fragment mode are; if it has written the last position, the
    run ends with success and the duplicate is not looked up; in a
    fragment mode it can end the run with the failure to open a group
    file.  In reject mode no flag is ever set, so the case does not
    arise. *)
Theorem duplicate_match_is_fatal cfg w tbl st line :
  reachable cfg w tbl st ->
  (frag_on cfg = true -> is_Some (gbl_out cfg)) ->
  is_header (chomp_cr line) = true ->
  let m := bin_search (header_key cfg (chomp_cr line)) tbl in
  idx (emitlist st) m = Some true ->
  gbl_reject cfg = false /\
  match new_entry cfg w tbl st with
  | Next st1 =>
      step cfg w tbl st line
      = Insane (DuplicateMatchError (str_drop 1 (chomp_cr line)))
          (set_emitting m (set_emit false st1))
  | GotoBye st1 =>
      lastemitted st1 + 1 = Z.of_nat (length tbl) /\
      forall rest, scan cfg w tbl st (line :: rest) = bye tbl st1
  | Insane e st1 =>
      sink_failure e /\ gbl_frag cfg <> FRAG_NONE /\
      forall rest,
        scan cfg w tbl st (line :: rest) = Exited (EXIT_FAILURE e) st1
  | Fault => False
  end.
Proof.
  intros Hr O Hh m Hf.
  assert (R : gbl_reject cfg = false).
  { destruct (gbl_reject cfg) eqn:R; [|reflexivity]. exfalso.
    unfold idx in Hf. destruct (m <? 0); [discriminate|].
    exact (reject_never_flags cfg w tbl st R Hr _ Hf). }
  split; [exact R|].
  destruct (reachable_inv cfg w tbl st R O Hr) as (T & content & B & Sc & L).
  pose proof (new_entry_inv cfg w tbl _ content st T B Sc L) as NE.
  destruct (new_entry cfg w tbl st) as [st1|st1|e st1|] eqn:N.
  - destruct NE as (_ & _ & El & _).
    unfold step, on_header. rewrite Hh, N. simpl.
    unfold match_entry. fold m. rewrite R.
    assert (Hm : (m =? -1) = false).
    { unfold idx in Hf. destruct (m <? 0) eqn:E; [discriminate|].
      apply Z.ltb_ge in E. apply Z.eqb_neq. lia. }
    rewrite Hm. simpl. unfold select_match. simpl.
    change (emitlist (set_emit false st1)) with (emitlist st1).
    now rewrite El, Hf.
  - destruct NE as (_ & Lr & _). split; [lia|]. intros rest.
    simpl. unfold step, on_header. now rewrite Hh, N.
  - destruct NE as [Sf Fr]. split; [exact Sf|]. split; [exact Fr|].
    intros rest. simpl. unfold step, on_header. now rewrite Hh, N.
  - exact NE.
Qed.

Lemma duplicate_match_is_fatal_witness :
  let cfg := select_cfg false false in
  let w := plain_world ["A"; "B"] [] in
  let tbl := table_of cfg ["A"; "B"] in
  let st := state_after cfg w tbl (start_of cfg w) [">A"; "ACGT"] in
  exists st1,
    new_entry cfg w tbl st = Next st1 /\
    step cfg w tbl st ">A again"
    = Insane (DuplicateMatchError "A again")
        (set_emitting 0 (set_emit false st1)).
Proof.
  intros cfg w tbl st.
  assert (Hr : reachable cfg w tbl st).
  { show_reachable (start_of cfg w) [">A"; "ACGT"] (@nil diag). }
  assert (Ho : frag_on cfg = true -> is_Some (gbl_out cfg))
    by (intros F; discriminate F).
  pose proof (duplicate_match_is_fatal cfg w tbl st ">A again" Hr Ho
                eq_refl) as H.
  cbv zeta in H. destruct H as [_ H]; [by_computation|].
  destruct (new_entry cfg w tbl st) as [st1|st1|e st1|] eqn:N;
    try (vm_compute in N; discriminate).
  exists st1. split; [reflexivity|exact H].
Defined.

(** C7, as the specification has it, fails: a selector matched a second
    time is not always fatal.  Selector A and the stream A, A in select
    mode: the header of the second A ends the first record, which
    completes the output, and the run ends with success before the name
    is looked up (records read: 2, written: 1).  Selector A and the stream
    A, A, B in reject mode: both records A match the selector, none is an
    error, and B is written. *)
Lemma duplicate_match_not_always_fatal :
  (let o := main (select_cfg false false)
              (plain_world ["A"] [">A"; "AC"; ">A"; "GT"]) in
   exit_of o = Some EXIT_SUCCESS /\
   output_of o = [">A" +:+ LF +:+ "AC" +:+ LF] /\
   stderr_of o = [Status 1 2 1]) /\
  (let o := main reject_cfg (plain_world ["A"] [">A"; ">A"; ">B"]) in
   exit_of o = Some EXIT_SUCCESS /\
   output_of o = [">B" +:+ LF] /\
   stderr_of o = [Status 1 3 1]).
Proof.
  split; intros o; (split; [by_computation|split; by_computation]).
Qed.




(** ** Record streams *)

Lemma buffer_inv_content cfg tbl n c1 c2 st :
  (forall p, c1 p = c2 p) ->
  buffer_inv cfg tbl n c1 st -> buffer_inv cfg tbl n c2 st.
Proof.
  intros E B. constructor; try apply B.
  - intros p Hp. rewrite (bi_slots _ _ _ _ _ B) by exact Hp.
    unfold slot_of. now rewrite E.
  - rewrite (bi_written _ _ _ _ _ B). apply payloads_ext. auto.
  - intros p Hp. rewrite <- E. now apply (bi_flushed _ _ _ _ _ B).
  - intros Fo p Hp. rewrite <- E in Hp. now apply (bi_groups _ _ _ _ _ B).
Qed.

Lemma scanner_inv_content cfg tbl n c1 c2 st :
  (forall p, c1 p = c2 p) ->
  scanner_inv cfg tbl n c1 st -> scanner_inv cfg tbl n c2 st.
Proof.
  intros E S. constructor; try apply S.
  - intros i r Hi. destruct (si_flags _ _ _ _ _ S i r Hi) as (b & Hb & Iff).
    exists b. split; [exact Hb|]. now rewrite <- E.
  - pose proof (si_accum _ _ _ _ _ S) as A.
    destruct (accumstring st); [|exact A].
    destruct A as (Em & r & Hr & C & G). split; [exact Em|].
    exists r. rewrite <- E. auto.
  - intros p Hp. rewrite <- E in Hp. now apply (si_rows _ _ _ _ _ S).
Qed.

(** The lines of a record after its header. *)
Lemma body_steps cfg w tbl n content lines : forall st,
  table_ok cfg tbl n ->
  Forall (fun l => is_header (chomp_cr l) = false) lines ->
  buffer_inv cfg tbl n content st -> scanner_inv cfg tbl n content st ->
  lastemitted st < Z.of_nat (length tbl) - 1 ->
  exists st',
    steps cfg w tbl st lines = Next st' /\
    buffer_inv cfg tbl n content st' /\ scanner_inv cfg tbl n content st' /\
    lastemitted st' < Z.of_nat (length tbl) - 1 /\
    stderr st' = stderr st /\ emitting st' = emitting st /\
    emitlist st' = emitlist st /\
    accumstring st'
    = match accumstring st with
      | Some a => Some (payload_from a lines)
      | None => None
      end.
Proof.
  induction lines as [|l lines IH]; intros st T F B Sc L.
  - exists st. simpl. split; [reflexivity|]. split; [exact B|].
    split; [exact Sc|]. split; [exact L|].
    split; [reflexivity|]. split; [reflexivity|]. split; [reflexivity|].
    now destruct (accumstring st).
  - apply Forall_cons in F. destruct F as [Hl F].
    pose proof (step_inv cfg w tbl n content st l T B Sc L) as SI.
    simpl in SI.
    assert (E : step cfg w tbl st l
                = Next (accumulate cfg (chomp_cr l) st)).
    { unfold step. now rewrite Hl. }
    rewrite E in SI. unfold advance, next_accum in SI. rewrite Hl in SI.
    destruct SI as (B1 & S1 & L1 & E1 & A1 & _ & M1).
    destruct (IH _ T F B1 S1 L1)
      as (st' & St & B2 & S2 & L2 & E2 & M2 & Fl2 & A2).
    exists st'. simpl. rewrite E. simpl.
    split; [exact St|]. split; [exact B2|]. split; [exact S2|].
    split; [exact L2|]. split; [congruence|].
    split; [rewrite M2; now apply M1|].
    split.
    + rewrite Fl2. apply accumulate_frame.
    + rewrite A2, A1. now destruct (accumstring st).
Qed.

Lemma row_at_some tbl p r : row_at tbl p = Some r -> r ∈ tbl /\ order r = p.
Proof.
  unfold row_at. intros H. apply List.find_some in H. destruct H as [Hin E].
  apply Nat.eqb_eq in E. split; [|exact E]. now apply list_elem_of_In.
Qed.

Lemma row_at_elem tbl r :
  NoDup (map order tbl) -> r ∈ tbl -> row_at tbl (order r) = Some r.
Proof.
  unfold row_at. induction tbl as [|x tbl IH]; intros Hd Hin;
    [inversion Hin|].
  simpl in Hd. apply NoDup_cons in Hd. destruct Hd as [Hx Hd].
  simpl. apply elem_of_cons in Hin. destruct Hin as [->|Hin].
  - now rewrite Nat.eqb_refl.
  - destruct (order x =? order r)%nat eqn:E; [|now apply IH].
    apply Nat.eqb_eq in E. exfalso. apply Hx. rewrite E.
    change (map order tbl) with (order <$> tbl).
    apply list_elem_of_fmap. eauto.
Qed.

Lemma row_at_none tbl p :
  row_at tbl p = None -> forall r, r ∈ tbl -> order r <> p.
Proof.
  unfold row_at. intros H r Hin E.
  apply list_elem_of_In in Hin.
  pose proof (List.find_none _ _ H r Hin) as F. simpl in F.
  apply Nat.eqb_neq in F. contradiction.
Qed.

Lemma found_app cfg k a b :
  found cfg k (a ++ b)
  = match found cfg k a with
    | Some x => Some x
    | None => found cfg k b
    end.
Proof.
  unfold found. induction a as [|x a IH]; simpl; [reflexivity|].
  destruct (String.eqb (key_of cfg x) k); [reflexivity|exact IH].
Qed.

Lemma found_single cfg k rec :
  found cfg k [rec] = if String.eqb (key_of cfg rec) k then Some rec else None.
Proof. reflexivity. Qed.

Lemma found_some cfg k recs rec :
  found cfg k recs = Some rec -> rec ∈ recs /\ key_of cfg rec = k.
Proof.
  unfold found. intros H. apply List.find_some in H. destruct H as [Hin E].
  apply String.eqb_eq in E. split; [|exact E]. now apply list_elem_of_In.
Qed.

Lemma bin_search_absent tbl k :
  StronglySorted name_lt tbl -> bin_search k tbl = -1 ->
  forall r, r ∈ tbl -> name r <> k.
Proof.
  intros Hs Hm r Hin.
  destruct (bin_search_spec tbl k Hs) as [[_ H]|[H _]]; [|lia].
  apply list_elem_of_lookup in Hin. destruct Hin as [i Hi]. eauto.
Qed.

Lemma names_inj tbl a b :
  StronglySorted name_lt tbl -> a ∈ tbl -> b ∈ tbl ->
  name a = name b -> a = b.
Proof.
  intros Hs Ha Hb E.
  apply list_elem_of_lookup in Ha. destruct Ha as [i Hi].
  apply list_elem_of_lookup in Hb. destruct Hb as [j Hj].
  pose proof (strict_lookup_inj tbl i j a b Hs Hi Hj E). subst j.
  congruence.
Qed.

(** Storing the record being read gives the content of the records read
    so far. *)
Lemma stored_content cfg tbl n done cur st :
  table_ok cfg tbl n -> StronglySorted name_lt tbl ->
  reading cfg tbl done cur st ->
  forall p,
    stored tbl st (content_of cfg tbl done) p
    = content_of cfg tbl (done ++ option_list cur) p.
Proof.
  intros T Hs R p. unfold stored.
  destruct cur as [rec|]; simpl in R.
  2:{ rewrite R. simpl. now rewrite app_nil_r. }
  simpl. destruct (bin_search_range tbl (key_of cfg rec))
    as [Hm|[Hm (r & Hr & Hk)]].
  - rewrite Hm in R. simpl in R. rewrite R.
    unfold content_of. destruct (row_at tbl p) as [x|] eqn:Hx; [|reflexivity].
    rewrite found_app, found_single.
    destruct (found cfg (name x) done); [reflexivity|].
    destruct (String.eqb_spec (key_of cfg rec) (name x)) as [E|_];
      [|reflexivity].
    apply row_at_some in Hx. destruct Hx as [Hx _].
    exfalso. exact (bin_search_absent tbl _ Hs Hm x Hx (eq_sym E)).
  - assert (Hne : (bin_search (key_of cfg rec) tbl =? -1) = false)
      by (apply Z.eqb_neq; lia).
    rewrite Hne in R. destruct R as (Ha & He & Hf). rewrite Ha, He.
    unfold idx.
    destruct (bin_search (key_of cfg rec) tbl <? 0) eqn:Neg;
      [apply Z.ltb_lt in Neg; lia|].
    rewrite Hr. unfold update, content_of.
    assert (Hin : r ∈ tbl) by (eapply list_elem_of_lookup_2; eauto).
    destruct (p =? order r)%nat eqn:E.
    + apply Nat.eqb_eq in E. subst p.
      rewrite (row_at_elem tbl r (tk_orders _ _ _ T) Hin).
      rewrite found_app, Hk, Hf, found_single, String.eqb_refl.
      reflexivity.
    + apply Nat.eqb_neq in E.
      destruct (row_at tbl p) as [x|] eqn:Hx; [|reflexivity].
      rewrite found_app, found_single.
      destruct (found cfg (name x) done); [reflexivity|].
      destruct (String.eqb_spec (key_of cfg rec) (name x)) as [E2|_];
        [|reflexivity].
      apply row_at_some in Hx. destruct Hx as [Hx Hp].
      assert (x = r) by (apply (names_inj tbl); auto; congruence).
      subst x. congruence.
Qed.

Lemma flag_found cfg tbl n done cur st i r :
  table_ok cfg tbl n -> StronglySorted name_lt tbl ->
  scanner_inv cfg tbl n (content_of cfg tbl done) st ->
  reading cfg tbl done cur st ->
  tbl !! i = Some r ->
  emitlist st !! i
  = Some (match found cfg (name r) (done ++ option_list cur) with
          | Some _ => true
          | None => false
          end).
Proof.
  intros T Hs Sc R Hi.
  assert (Hin : r ∈ tbl) by (eapply list_elem_of_lookup_2; eauto).
  destruct (si_flags _ _ _ _ _ Sc i r Hi) as (b & Hb & Iff).
  rewrite Hb. f_equal.
  unfold content_of in Iff.
  rewrite (row_at_elem tbl r (tk_orders _ _ _ T) Hin) in Iff.
  rewrite found_app.
  destruct (found cfg (name r) done) as [x|] eqn:F.
  { apply Iff. left. eauto. }
  destruct cur as [rec|]; simpl in *.
  2:{ destruct b; [|reflexivity]. destruct Iff as [Iff _].
      destruct (Iff eq_refl) as [[y Hy]|[[y Hy] _]]; congruence. }
  destruct (bin_search_range tbl (key_of cfg rec))
    as [Hm|[Hm (x & Hx & Hk)]].
  - rewrite Hm in R. simpl in R.
    destruct (String.eqb_spec (key_of cfg rec) (name r)) as [E|_].
    + exfalso. exact (bin_search_absent tbl _ Hs Hm r Hin (eq_sym E)).
    + destruct b; [|reflexivity]. destruct Iff as [Iff _].
      destruct (Iff eq_refl) as [[y Hy]|[[y Hy] _]]; congruence.
  - assert (Hne : (bin_search (key_of cfg rec) tbl =? -1) = false)
      by (apply Z.eqb_neq; lia).
    rewrite Hne in R. destruct R as (Ha & He & Hf).
    destruct (String.eqb_spec (key_of cfg rec) (name r)) as [E|Ne].
    + apply Iff. right. split; [rewrite Ha; eauto|].
      rewrite He.
      pose proof (strict_lookup_inj tbl _ _ x r Hs Hx Hi
                    ltac:(congruence)). lia.
    + destruct b; [|reflexivity]. destruct Iff as [Iff _].
      destruct (Iff eq_refl) as [[y Hy]|[_ Hy]]; [congruence|].
      exfalso. apply Ne. rewrite <- Hk.
      assert (i = Z.to_nat (bin_search (key_of cfg rec) tbl)) by lia.
      subst i. congruence.
Qed.

(** One record of the stream. *)
Lemma record_steps cfg w tbl n done cur rec st :
  table_ok cfg tbl n -> StronglySorted name_lt tbl -> wf_record rec ->
  buffer_inv cfg tbl n (content_of cfg tbl done) st ->
  scanner_inv cfg tbl n (content_of cfg tbl done) st ->
  lastemitted st < Z.of_nat (length tbl) - 1 ->
  reading cfg tbl done cur st ->
  let done' := done ++ option_list cur in
  match steps cfg w tbl st (header rec :: body rec) with
  | Next st' =>
      buffer_inv cfg tbl n (content_of cfg tbl done') st' /\
      scanner_inv cfg tbl n (content_of cfg tbl done') st' /\
      lastemitted st' < Z.of_nat (length tbl) - 1 /\
      reading cfg tbl done' (Some rec) st' /\
      stderr st' = stderr st
  | GotoBye st' =>
      buffer_inv cfg tbl n (content_of cfg tbl done') st' /\
      lastemitted st' = Z.of_nat (length tbl) - 1 /\
      stderr st' = stderr st
  | Insane e _ =>
      (sink_failure e /\ gbl_frag cfg <> FRAG_NONE) \/
      (e = MissingGroup /\ gbl_frag cfg <> FRAG_NONE) \/
      (exists h, e = DuplicateMatchError h /\
                 bin_search (key_of cfg rec) tbl <> -1 /\
                 is_Some (found cfg (key_of cfg rec) done'))
  | Fault => False
  end.
Proof.
  intros T Hs [Hh Hb] B Sc L R done'.
  pose proof (stored_content cfg tbl n done cur st T Hs R) as SC.
  pose proof (step_inv cfg w tbl n _ st (header rec) T B Sc L) as SI.
  simpl in SI. unfold advance, next_accum in SI. rewrite Hh in SI.
  fold (key_of cfg rec) in SI.
  set (m := bin_search (key_of cfg rec) tbl) in *.
  cbn [steps].
  destruct (step cfg w tbl st (header rec)) as [st1|st1|e st1|]; simpl;
    try contradiction.
  - destruct SI as (B1 & S1 & L1 & E1 & A1 & M1 & _).
    apply (buffer_inv_content _ _ _ _ _ _ SC) in B1.
    apply (scanner_inv_content _ _ _ _ _ _ SC) in S1.
    destruct (body_steps cfg w tbl n _ (body rec) st1 T Hb B1 S1 L1)
      as (st' & -> & B2 & S2 & L2 & E2 & M2 & Fl2 & A2).
    split; [exact B2|]. split; [exact S2|]. split; [exact L2|].
    split; [|congruence].
    unfold reading. fold m. rewrite A2, A1.
    destruct (m =? -1) eqn:Hm; [reflexivity|].
    apply Z.eqb_neq in Hm. destruct (M1 eq_refl Hm) as [Em Hf].
    split; [reflexivity|]. split; [congruence|].
    destruct (bin_search_range tbl (key_of cfg rec))
      as [Hm'|[Hm' (r & Hr & Hk)]]; [contradiction|].
    fold m in Hr, Hm'.
    pose proof (flag_found cfg tbl n done cur st _ r T Hs Sc R Hr) as FF.
    unfold idx in Hf. destruct (m <? 0); [discriminate|].
    rewrite FF in Hf. rewrite Hk in Hf. fold done' in Hf.
    destruct (found cfg (key_of cfg rec) done'); [discriminate|reflexivity].
  - destruct SI as (_ & B1 & L1 & E1).
    apply (buffer_inv_content _ _ _ _ _ _ SC) in B1. auto.
  - destruct SI as [SI|[SI|(h & -> & _ & Hf)]]; auto.
    right. right. exists h. split; [reflexivity|].
    unfold idx in Hf. destruct (m <? 0) eqn:Neg; [discriminate|].
    apply Z.ltb_ge in Neg. split; [lia|].
    destruct (bin_search_range tbl (key_of cfg rec))
      as [Hm'|[Hm' (r & Hr & Hk)]]; [fold m in Hm'; lia|].
    fold m in Hr.
    pose proof (flag_found cfg tbl n done cur st _ r T Hs Sc R Hr) as FF.
    rewrite FF in Hf. rewrite Hk in Hf. fold done' in Hf.
    destruct (found cfg (key_of cfg rec) done'); [eauto|discriminate].
Qed.

Lemma lines_of_cons rec recs :
  lines_of (rec :: recs) = (header rec :: body rec) ++ lines_of recs.
Proof. reflexivity. Qed.

(** The records of a stream, from a state of the reading loop. *)
Lemma stream_steps cfg w tbl n recs : forall done cur st,
  table_ok cfg tbl n -> StronglySorted name_lt tbl ->
  Forall wf_record recs ->
  buffer_inv cfg tbl n (content_of cfg tbl done) st ->
  scanner_inv cfg tbl n (content_of cfg tbl done) st ->
  lastemitted st < Z.of_nat (length tbl) - 1 ->
  reading cfg tbl done cur st ->
  match steps cfg w tbl st (lines_of recs) with
  | Next st' =>
      exists done' cur',
        done' ++ option_list cur' = done ++ option_list cur ++ recs /\
        buffer_inv cfg tbl n (content_of cfg tbl done') st' /\
        scanner_inv cfg tbl n (content_of cfg tbl done') st' /\
        lastemitted st' < Z.of_nat (length tbl) - 1 /\
        reading cfg tbl done' cur' st' /\
        stderr st' = stderr st
  | GotoBye st' =>
      exists pre post,
        done ++ option_list cur ++ recs = pre ++ post /\
        buffer_inv cfg tbl n (content_of cfg tbl pre) st' /\
        lastemitted st' = Z.of_nat (length tbl) - 1 /\
        stderr st' = stderr st
  | Insane e _ =>
      (sink_failure e /\ gbl_frag cfg <> FRAG_NONE) \/
      (e = MissingGroup /\ gbl_frag cfg <> FRAG_NONE) \/
      (exists h pre rec post,
         e = DuplicateMatchError h /\
         done ++ option_list cur ++ recs = pre ++ rec :: post /\
         bin_search (key_of cfg rec) tbl <> -1 /\
         is_Some (found cfg (key_of cfg rec) pre))
  | Fault => False
  end.
Proof.
  induction recs as [|rec recs IH]; intros done cur st T Hs F B Sc L R.
  - simpl. exists done, cur. rewrite app_nil_r. auto 10.
  - apply Forall_cons in F. destruct F as [Hw F].
    rewrite lines_of_cons, steps_app.
    pose proof (record_steps cfg w tbl n done cur rec st T Hs Hw B Sc L R)
      as RS. cbv zeta in RS.
    destruct (steps cfg w tbl st (header rec :: body rec))
      as [st1|st1|e st1|]; simpl; try contradiction.
    + destruct RS as (B1 & S1 & L1 & R1 & E1).
      specialize (IH (done ++ option_list cur) (Some rec) st1
                    T Hs F B1 S1 L1 R1).
      assert (Eq : (done ++ option_list cur) ++ option_list (Some rec) ++ recs
                   = done ++ option_list cur ++ rec :: recs).
      { simpl. now rewrite <- app_assoc. }
      rewrite Eq in IH.
      destruct (steps cfg w tbl st1 (lines_of recs)) as [st'|st'|e st'|];
        auto.
      * destruct IH as (d' & c' & E' & B' & S' & L' & R' & Se').
        exists d', c'. rewrite Se', E1. auto 10.
      * destruct IH as (pre & post & E' & B' & L' & Se').
        exists pre, post. rewrite Se', E1. auto.
    + destruct RS as (B1 & L1 & E1).
      exists (done ++ option_list cur), (rec :: recs).
      rewrite <- app_assoc. auto.
    + destruct RS as [RS|[RS|(h & -> & Hm & Hf)]]; auto.
      right. right. exists h, (done ++ option_list cur), rec, recs.
      rewrite <- app_assoc. auto.
Qed.

Lemma content_of_prefix cfg tbl pre post p s :
  content_of cfg tbl pre p = Some s ->
  content_of cfg tbl (pre ++ post) p = Some s.
Proof.
  unfold content_of. destruct (row_at tbl p) as [r|]; [|discriminate].
  rewrite found_app. destruct (found cfg (name r) pre); [auto|discriminate].
Qed.

(** What a run in select mode over a stream of records writes, and how
    it can fail. *)
Lemma select_run cfg w tbl warnings recs :
  gbl_reject cfg = false ->
  (frag_on cfg = true -> is_Some (gbl_out cfg)) ->
  build_index cfg (sel_file w) = inr (tbl, warnings) ->
  get_entries cfg (sel_file w) <> [] ->
  in_file w = Some (lines_of recs) ->
  Forall wf_record recs ->
  match main cfg w with
  | Exited EXIT_SUCCESS st =>
      written (trace st)
      = payloads (content_of cfg tbl recs) 0 (length tbl)
  | Exited (EXIT_FAILURE e) _ =>
      (e = CouldNotOpenOut /\
       exists path, gbl_out cfg = Some path /\ String.eqb path "-" = false /\
                    can_write w path = false) \/
      (e = MissingSelectorError /\ gbl_com cfg = false /\
       exists r, r ∈ tbl /\ found cfg (name r) recs = None) \/
      (sink_failure e /\ gbl_frag cfg <> FRAG_NONE) \/
      (e = MissingGroup /\ gbl_frag cfg <> FRAG_NONE) \/
      (exists h pre rec post,
         e = DuplicateMatchError h /\ recs = pre ++ rec :: post /\
         bin_search (key_of cfg rec) tbl <> -1 /\
         is_Some (found cfg (key_of cfg rec) pre))
  | Faulted => False
  end.
Proof.
  intros R O Bi Hne Hin F.
  rewrite (main_unfold cfg w tbl warnings _ Bi Hne Hin).
  destruct (open_out cfg w _) as [st0|st0|e st0|] eqn:Op.
  2-4: unfold open_out in Op; destruct (frag_on cfg); try discriminate;
       destruct (gbl_out cfg) as [path|]; try discriminate;
       destruct (String.eqb path "-") eqn:Dash; try discriminate;
       destruct (can_write w path) eqn:Cw; try discriminate;
       injection Op as <- <-; left;
       (split; [reflexivity|exists path; auto]).
  assert (S0 : started cfg w tbl st0) by (exists warnings; auto).
  destruct (started_inv cfg w tbl st0 R O S0) as (T & B0 & Sc0 & L0).
  set (n := length (get_entries cfg (sel_file w))) in *.
  destruct (build_index_spec _ _ _ _ Bi) as (Ok & _).
  pose proof (ix_sorted _ _ Ok) as Hs.
  assert (C0 : forall p, no_content p = content_of cfg tbl [] p).
  { intros p. unfold no_content, content_of.
    destruct (row_at tbl p); reflexivity. }
  apply (buffer_inv_content _ _ _ _ _ _ C0) in B0.
  apply (scanner_inv_content _ _ _ _ _ _ C0) in Sc0.
  assert (R0 : reading cfg tbl [] None st0).
  { simpl. destruct (started_shape _ _ _ _ S0) as (x & _ & _ & H).
    apply H. }
  pose proof (stream_steps cfg w tbl n recs [] None st0 T Hs F B0 Sc0 L0 R0)
    as SS. cbv zeta in SS.
  rewrite scan_steps.
  destruct (steps cfg w tbl st0 (lines_of recs)) as [st|st|e st|];
    try contradiction.
  - destruct SS as (done & cur & E & B & Sc & L & Rd & _). simpl in E.
    pose proof (finish_inv cfg w tbl n _ st T B Sc) as Fi. cbv zeta in Fi.
    destruct ((Z.of_nat (emitted st) <=? Z.of_nat (length tbl) - 1)
              && negb (gbl_com cfg)) eqn:Stop.
    + rewrite Fi. right. left. split; [reflexivity|].
      apply andb_prop in Stop. destruct Stop as [Sh Com].
      split; [now destruct (gbl_com cfg)|].
      apply Z.leb_le in Sh. rewrite (si_emitted _ _ _ _ _ Sc) in Sh.
      pose proof (tk_length _ _ _ T) as TL.
      destruct (count_true_lt_false (take (length tbl) (emitlist st)))
        as [i Hi].
      { rewrite length_take, (si_flags_len _ _ _ _ _ Sc). lia. }
      apply lookup_take_Some in Hi. destruct Hi as [Hi Li].
      destruct (tbl !! i) as [r|] eqn:Hr;
        [|apply lookup_ge_None in Hr; lia].
      exists r. split; [eapply list_elem_of_lookup_2; eauto|].
      pose proof (flag_found cfg tbl n done cur st i r T Hs Sc Rd Hr) as FF.
      rewrite E, Hi in FF.
      destruct (found cfg (name r) recs); [discriminate|reflexivity].
    + destruct (finish cfg w tbl st) as [[|e] st'|];
        [|destruct Fi; auto|contradiction].
      destruct Fi as [W _]. rewrite W. apply payloads_ext.
      intros p _. rewrite <- E.
      apply (stored_content cfg tbl n done cur st T Hs Rd).
  - destruct SS as (pre & post & E & B & L & _). simpl in E.
    pose proof (written_bye tbl st) as WB.
    destruct (bye tbl st) as [code st'|] eqn:Bye;
      [|unfold bye in Bye; discriminate].
    destruct (WB st' code eq_refl) as (-> & W & _).
    rewrite W, (bi_written _ _ _ _ _ B), L, E.
    replace (Z.to_nat (Z.of_nat (length tbl) - 1 + 1)) with (length tbl)
      by lia.
    apply payloads_ext. intros p Hp.
    destruct (bi_flushed _ _ _ _ _ B p ltac:(lia)) as [s Hs'].
    rewrite Hs'. symmetry. now apply content_of_prefix.
  - destruct SS as [SS|[SS|(h & pre & rec & post & -> & E & Hm & Hf)]];
      auto.
    simpl in E.
    right. right. right. right. exists h, pre, rec, post. auto.
Qed.

Lemma payloads_all content : forall k c,
  (forall p, (c <= p < c + k)%nat -> is_Some (content p)) ->
  length (payloads content c k) = k.
Proof.
  induction k as [|k IH]; intros c H; [reflexivity|].
  rewrite payloads_S. destruct (H c ltac:(lia)) as [x ->]. simpl.
  rewrite IH; [reflexivity|]. intros p Hp. apply H. lia.
Qed.

(** A run in select mode without -com over a stream that lacks the record
    of a selector: it does not end with success, and when it ends for the
    missing selector it has written the records of the first positions,
    all of them matched, up to some position that is not beyond the
    missing one. *)
Lemma select_run_miss cfg w tbl warnings recs r :
  gbl_reject cfg = false ->
  (frag_on cfg = true -> is_Some (gbl_out cfg)) ->
  build_index cfg (sel_file w) = inr (tbl, warnings) ->
  get_entries cfg (sel_file w) <> [] ->
  in_file w = Some (lines_of recs) ->
  Forall wf_record recs ->
  gbl_com cfg = false -> r ∈ tbl -> (order r < length tbl)%nat ->
  found cfg (name r) recs = None ->
  match main cfg w with
  | Exited EXIT_SUCCESS _ => False
  | Exited (EXIT_FAILURE e) st =>
      e = MissingSelectorError ->
      exists c,
        (c <= order r)%nat /\
        written (trace st) = payloads (content_of cfg tbl recs) 0 c /\
        forall q, (q < c)%nat -> is_Some (content_of cfg tbl recs q)
  | Faulted => True
  end.
Proof.
  intros R O Bi Hne Hin F Com Hr Ho Hf.
  rewrite (main_unfold cfg w tbl warnings _ Bi Hne Hin).
  destruct (open_out cfg w _) as [st0|st0|e st0|] eqn:Op.
  2-4: unfold open_out in Op; destruct (frag_on cfg); try discriminate;
       destruct (gbl_out cfg) as [path|]; try discriminate;
       destruct (String.eqb path "-") eqn:Dash; try discriminate;
       destruct (can_write w path) eqn:Cw; try discriminate;
       injection Op as <- <-; intros X; discriminate X.
  assert (S0 : started cfg w tbl st0) by (exists warnings; auto).
  destruct (started_inv cfg w tbl st0 R O S0) as (T & B0 & Sc0 & L0).
  set (n := length (get_entries cfg (sel_file w))) in *.
  destruct (build_index_spec _ _ _ _ Bi) as (Ok & _).
  pose proof (ix_sorted _ _ Ok) as Hs.
  assert (C0 : forall p, no_content p = content_of cfg tbl [] p).
  { intros p. unfold no_content, content_of.
    destruct (row_at tbl p); reflexivity. }
  apply (buffer_inv_content _ _ _ _ _ _ C0) in B0.
  apply (scanner_inv_content _ _ _ _ _ _ C0) in Sc0.
  assert (R0 : reading cfg tbl [] None st0).
  { simpl. destruct (started_shape _ _ _ _ S0) as (x & _ & _ & H).
    apply H. }
  pose proof (stream_steps cfg w tbl n recs [] None st0 T Hs F B0 Sc0 L0 R0)
    as SS. cbv zeta in SS.
  assert (Miss : forall pre post q,
            recs = pre ++ post -> q = order r ->
            ~ is_Some (content_of cfg tbl pre q)).
  { intros pre post q E -> [s Hs'].
    apply (content_of_prefix _ _ pre post) in Hs'. rewrite <- E in Hs'.
    unfold content_of in Hs'.
    rewrite (row_at_elem tbl r (tk_orders _ _ _ T) Hr), Hf in Hs'.
    discriminate. }
  rewrite scan_steps.
  destruct (steps cfg w tbl st0 (lines_of recs)) as [st|st|e st|];
    try contradiction.
  - destruct SS as (done & cur & E & B & Sc & L & Rd & _). simpl in E.
    pose proof (finish_inv cfg w tbl n _ st T B Sc) as Fi. cbv zeta in Fi.
    pose proof (tk_length _ _ _ T) as TL.
    assert (Short : (Z.of_nat (emitted st) <=? Z.of_nat (length tbl) - 1)
                    = true).
    { apply Z.leb_le. rewrite (si_emitted _ _ _ _ _ Sc).
      pose proof Hr as Hr'. apply list_elem_of_lookup in Hr'.
      destruct Hr' as [i Hi].
      pose proof (lookup_lt_Some _ _ _ Hi) as Li.
      assert (Hfl : take (length tbl) (emitlist st) !! i = Some false).
      { apply lookup_take_Some. split; [|exact Li].
        rewrite (flag_found cfg tbl n done cur st i r T Hs Sc Rd Hi), E, Hf.
        reflexivity. }
      pose proof (count_true_some_false _ _ Hfl) as C.
      rewrite length_take, (si_flags_len _ _ _ _ _ Sc) in C. lia. }
    rewrite Short, Com in Fi. simpl in Fi. rewrite Fi.
    intros _. exists (Z.to_nat (lastemitted st + 1)).
    pose proof (bi_cursor _ _ _ _ _ B) as Cur.
    assert (All : forall q, (q < Z.to_nat (lastemitted st + 1))%nat ->
              is_Some (content_of cfg tbl done q)).
    { intros q Hq. apply (bi_flushed _ _ _ _ _ B). lia. }
    assert (Pre : forall q x, content_of cfg tbl done q = Some x ->
              content_of cfg tbl recs q = Some x).
    { intros q x Hq. rewrite <- E. now apply content_of_prefix. }
    split; [|split].
    + destruct (Nat.le_gt_cases (Z.to_nat (lastemitted st + 1)) (order r))
        as [Le|Gt]; [exact Le|].
      exfalso.
      apply (Miss done (option_list cur) (order r) (eq_sym E) eq_refl).
      now apply All.
    + simpl. rewrite (bi_written _ _ _ _ _ B). apply payloads_ext.
      intros p Hp. destruct (All p ltac:(lia)) as [x Hx]. rewrite Hx.
      symmetry. now apply Pre.
    + intros q Hq. destruct (All q Hq) as [x Hx]. exists x. now apply Pre.
  - destruct SS as (pre & post & E & B & L & _). simpl in E.
    pose proof (written_bye tbl st) as WB.
    destruct (bye tbl st) as [code st'|] eqn:Bye; [|exact Logic.I].
    destruct (WB st' code eq_refl) as (-> & _).
    apply (Miss pre post (order r) E eq_refl).
    apply (bi_flushed _ _ _ _ _ B). lia.
  - intros ->.
    destruct SS as [[SF _]|[[X _]|(h & pre & rec & post & X & _)]];
      [destruct SF|discriminate X|discriminate X].
Qed.

Lemma payloads_list {A : Type} (g : A -> option string) content l : forall c,
  (forall p e, l !! p = Some e -> content (c + p)%nat = g e) ->
  payloads content c (length l) = omap g l.
Proof.
  induction l as [|x l IH]; intros c H; [reflexivity|].
  simpl length. rewrite payloads_S.
  pose proof (H O x eq_refl) as H0. rewrite Nat.add_0_r in H0.
  rewrite H0, (IH (S c)).
  - reflexivity.
  - intros p e Hp. rewrite <- (H (S p) e Hp). f_equal. lia.
Qed.

Lemma payloads_elem content c k p s :
  (c <= p < c + k)%nat -> content p = Some s -> s ∈ payloads content c k.
Proof.
  revert c. induction k as [|k IH]; intros c Hp Hs; [lia|].
  rewrite payloads_S. destruct (decide (p = c)) as [->|Hne].
  - rewrite Hs. left.
  - assert (s ∈ payloads content (S c) k) by (apply IH; [lia|exact Hs]).
    destruct (content c); [now right|assumption].
Qed.

Lemma missing_elem sev tbl : forall flags i r,
  tbl !! i = Some r -> flags !! i = Some false ->
  DidNotFind sev (name r) ∈ missing sev tbl flags.
Proof.
  induction tbl as [|x tbl IH]; intros flags i r Hi Hf; [discriminate|].
  destruct flags as [|f flags]; [discriminate|].
  simpl. apply elem_of_app. destruct i as [|i]; simpl in *.
  - injection Hi as ->. injection Hf as ->. left. left.
  - right. eapply IH; eauto.
Qed.

Lemma missing_only sev tbl : forall flags d,
  d ∈ missing sev tbl flags ->
  exists i r, tbl !! i = Some r /\ flags !! i = Some false /\
              d = DidNotFind sev (name r).
Proof.
  induction tbl as [|x tbl IH]; intros flags d H; [inversion H|].
  destruct flags as [|f flags]; [inversion H|].
  simpl in H. apply elem_of_app in H. destruct H as [H|H].
  - destruct f; [inversion H|]. apply list_elem_of_singleton in H.
    exists O, x. auto.
  - destruct (IH flags d H) as (i & r & Hi & Hf & E).
    exists (S i), r. auto.
Qed.

(** At the end of the stream the flags tell which selectors matched. *)
Lemma end_of_stream cfg w tbl st0 recs st :
  gbl_reject cfg = false ->
  (frag_on cfg = true -> is_Some (gbl_out cfg)) ->
  started cfg w tbl st0 -> Forall wf_record recs ->
  steps cfg w tbl st0 (lines_of recs) = Next st ->
  let n := length (get_entries cfg (sel_file w)) in
  table_ok cfg tbl n /\
  exists content,
    buffer_inv cfg tbl n content st /\ scanner_inv cfg tbl n content st /\
    (forall p, stored tbl st content p = content_of cfg tbl recs p) /\
    (forall i r, tbl !! i = Some r ->
       emitlist st !! i
       = Some (match found cfg (name r) recs with
               | Some _ => true
               | None => false
               end)) /\
    stderr st = stderr st0.
Proof.
  intros R O S0 F St n.
  destruct (started_inv cfg w tbl st0 R O S0) as (T & B0 & Sc0 & L0).
  fold n in T, B0, Sc0. split; [exact T|].
  destruct S0 as (warnings & Bi & Hne & Op).
  destruct (build_index_spec _ _ _ _ Bi) as (Ok & _).
  pose proof (ix_sorted _ _ Ok) as Hs.
  assert (C0 : forall p, no_content p = content_of cfg tbl [] p).
  { intros p. unfold no_content, content_of.
    destruct (row_at tbl p); reflexivity. }
  apply (buffer_inv_content _ _ _ _ _ _ C0) in B0.
  apply (scanner_inv_content _ _ _ _ _ _ C0) in Sc0.
  assert (R0 : reading cfg tbl [] None st0).
  { simpl. destruct (started_shape cfg w tbl st0) as (x & _ & _ & H).
    - exists warnings. auto.
    - apply H. }
  pose proof (stream_steps cfg w tbl n recs [] None st0 T Hs F B0 Sc0 L0 R0)
    as SS. cbv zeta in SS. rewrite St in SS.
  destruct SS as (done & cur & E & B & Sc & L & Rd & Se). simpl in E.
  exists (content_of cfg tbl done).
  split; [exact B|]. split; [exact Sc|]. split; [|split; [|exact Se]].
  - intros p. rewrite <- E.
    apply (stored_content cfg tbl n done cur st T Hs Rd).
  - intros i r Hi. rewrite <- E.
    apply (flag_found cfg tbl n done cur st i r T Hs Sc Rd Hi).
Qed.

Lemma started_warnings cfg w tbl st0 :
  started cfg w tbl st0 ->
  Forall (fun d => exists k, d = DuplicateSelectorWarning k) (stderr st0).
Proof.
  intros S. destruct (started_shape _ _ _ _ S)
    as (warnings & Bi & _ & _ & _ & _ & _ & _ & _ & _ & _ & ->).
  unfold build_index in Bi.
  pose proof (remove_dups_spec cfg
                (sort_entries (number_from 0
                   (get_entries cfg (sel_file w))))) as Rd.
  rewrite Bi in Rd. destruct Rd as (_ & -> & _).
  unfold all_warnings.
  destruct (sort_entries _); [constructor|apply dup_warnings_shape].
Qed.

Lemma report_unmatched cfg tbl recs sev st flags tail :
  Forall (fun d => exists k, d = DuplicateSelectorWarning k) (stderr st) ->
  Forall (fun d => exists a b c, d = Status a b c) tail ->
  (length tbl <= length flags)%nat ->
  (forall i r, tbl !! i = Some r ->
     flags !! i
     = Some (match found cfg (name r) recs with
             | Some _ => true
             | None => false
             end)) ->
  forall st',
    stderr st' = stderr st ++ missing sev tbl flags ++ tail ->
    reports_unmatched cfg tbl recs sev st'.
Proof.
  intros W Tl Len Fl st' E k. rewrite E. split.
  - intros H. apply elem_of_app in H. destruct H as [H|H].
    { rewrite Forall_forall in W. destruct (W _ H) as [x Hx]. discriminate. }
    apply elem_of_app in H. destruct H as [H|H].
    2:{ rewrite Forall_forall in Tl.
        destruct (Tl _ H) as (a & b & c & Hx). discriminate. }
    destruct (missing_only _ _ _ _ H) as (i & r & Hi & Hf & Ed).
    injection Ed as ->. exists r.
    split; [eapply list_elem_of_lookup_2; eauto|]. split; [reflexivity|].
    rewrite (Fl i r Hi) in Hf.
    destruct (found cfg (name r) recs); [discriminate|reflexivity].
  - intros (r & Hin & <- & Hf).
    apply list_elem_of_lookup in Hin. destruct Hin as [i Hi].
    apply elem_of_app. right. apply elem_of_app. left.
    apply (missing_elem sev tbl flags i r Hi).
    now rewrite (Fl i r Hi), Hf.
Qed.

Lemma switch_sink_stderr cfg w st :
  match switch_sink cfg w st with
  | Next r | GotoBye r | Insane _ r => stderr r = stderr st
  | Fault => True
  end.
Proof.
  unfold switch_sink, open_sink.
  destruct (gbl_frag cfg); [reflexivity| |];
    (destruct (idx (emitgroups st) (lastemitted st)) as [[g|]|];
       try exact Logic.I;
     destruct (gbl_out cfg) as [template|]; try exact Logic.I;
     destruct (strcmp (last_group st) g); [reflexivity| |]).
  1,2: destruct (file_exists _ _); [reflexivity|].
  all: simpl; destruct (can_write w _); reflexivity.
Qed.

Lemma emit_slot_stderr cfg w st :
  match emit_slot cfg w st with
  | Next r | GotoBye r | Insane _ r => stderr r = stderr st
  | Fault => True
  end.
Proof.
  unfold emit_slot. pose proof (switch_sink_stderr cfg w st) as H.
  destruct (switch_sink cfg w st) as [s|s|e s|]; simpl; try exact H.
  destruct (idx (emitstrings s) (lastemitted s)) as [[|x|]|];
    try exact Logic.I.
  simpl. exact H.
Qed.

Lemma final_drain_stderr cfg w n : forall st,
  match final_drain n cfg w st with
  | Next r | GotoBye r | Insane _ r => stderr r = stderr st
  | Fault => True
  end.
Proof.
  induction n as [|n IH]; intros st; simpl; [reflexivity|].
  destruct (idx (emitstrings st) (lastemitted st)) as [[|x|]|];
    try exact Logic.I.
  - apply (IH (set_lastemitted (lastemitted st + 1) st)).
  - pose proof (emit_slot_stderr cfg w st) as H.
    destruct (emit_slot cfg w st) as [s|s|e s|]; simpl; auto.
    specialize (IH (set_lastemitted (lastemitted s + 1) s)). simpl in IH.
    destruct (final_drain n cfg w _); try congruence; auto.
  - pose proof (emit_slot_stderr cfg w st) as H.
    destruct (emit_slot cfg w st) as [s|s|e s|]; simpl; auto.
    specialize (IH (set_lastemitted (lastemitted s + 1) s)). simpl in IH.
    destruct (final_drain n cfg w _); try congruence; auto.
Qed.

(** What a run that fails after the end of the stream has printed. *)
Lemma finish_failure_stderr cfg w tbl st e st' :
  finish cfg w tbl st = Exited (EXIT_FAILURE e) st' ->
  stderr st'
  = stderr st
    ++ (if negb (gbl_reject cfg)
           && (Z.of_nat (emitted st) <=? Z.of_nat (length tbl) - 1)
        then missing (if gbl_com cfg then Warning else FatalError)
               tbl (emitlist st)
        else []).
Proof.
  unfold finish.
  set (short := negb (gbl_reject cfg)
                && (Z.of_nat (emitted st) <=? Z.of_nat (length tbl) - 1)).
  set (sev := if gbl_com cfg then Warning else FatalError).
  set (st_r := if short
               then set_stderr (stderr st ++ missing sev tbl (emitlist st)) st
               else st).
  assert (Er : stderr st_r
               = stderr st ++ (if short then missing sev tbl (emitlist st)
                               else [])).
  { unfold st_r. destruct short; simpl; [reflexivity|].
    now rewrite app_nil_r. }
  destruct (short && negb (gbl_com cfg)).
  { intros H. injection H as _ <-. exact Er. }
  destruct (store_last tbl st_r) as [st1|] eqn:E1; [|discriminate].
  assert (E1' : stderr st1 = stderr st_r).
  { unfold store_last in E1. destruct (accumstring st_r);
      [|now injection E1 as <-].
    destruct (idx tbl (emitting st_r)); [|discriminate].
    destruct (order r <? _)%nat; [|discriminate]. now injection E1 as <-. }
  pose proof (final_drain_stderr cfg w
                (Z.to_nat (Z.of_nat (length tbl)
                           - lastemitted
                               (set_lastemitted (lastemitted st1 + 1) st1)))
                (set_lastemitted (lastemitted st1 + 1) st1)) as FD.
  destruct (final_drain _ cfg w _) as [r|r|e' r|].
  - unfold bye. destruct (fout r); discriminate.
  - unfold bye. destruct (fout r); discriminate.
  - intros H. injection H as _ <-. simpl in FD. congruence.
  - discriminate.
Qed.

(** C8, as the program has it.  When the reading loop reaches the end of
    the stream in select mode and a selector has not matched: without
    -com every unmatched key is reported as a fatal error and the program
    exits with failure, nothing more being written; with -com every
    unmatched key is reported as a warning and the buffer is written out.
    If that last write is completed the program exits with success, and
    the record of every matched selector has been written when no
    duplicate selector was discarded (-cod is not given, or the list
    holds no repeated key).  The last write can only be cut short by a
    group file that cannot be opened (-fragc, -fraga), which is fatal; the
    warnings have then been printed. *)
Theorem completeness_check cfg w tbl st0 recs st :
  gbl_reject cfg = false ->
  (frag_on cfg = true -> is_Some (gbl_out cfg)) ->
  started cfg w tbl st0 -> Forall wf_record recs ->
  steps cfg w tbl st0 (lines_of recs) = Next st ->
  (exists r, r ∈ tbl /\ found cfg (name r) recs = None) ->
  (gbl_com cfg = false ->
   exists st',
     finish cfg w tbl st = Exited (EXIT_FAILURE MissingSelectorError) st' /\
     trace st' = trace st /\
     reports_unmatched cfg tbl recs FatalError st') /\
  (gbl_com cfg = true ->
   match finish cfg w tbl st with
   | Exited EXIT_SUCCESS st' =>
       reports_unmatched cfg tbl recs Warning st' /\
       (gbl_cod cfg = false \/ NoDup (selector_keys cfg (sel_file w)) ->
        forall r rec,
          r ∈ tbl -> found cfg (name r) recs = Some rec ->
          payload rec ∈ written (trace st'))
   | Exited (EXIT_FAILURE e) st' =>
       sink_failure e /\ gbl_frag cfg <> FRAG_NONE /\
       reports_unmatched cfg tbl recs Warning st'
   | Faulted => False
   end).
Proof.
  intros R O S0 F St (r0 & Hin0 & Hf0).
  destruct (end_of_stream cfg w tbl st0 recs st R O S0 F St)
    as (T & content & B & Sc & Ec & Fl & Se).
  set (n := length (get_entries cfg (sel_file w))) in *.
  pose proof (started_warnings _ _ _ _ S0) as W. rewrite <- Se in W.
  pose proof (tk_length _ _ _ T) as TL.
  assert (Short : (Z.of_nat (emitted st) <=? Z.of_nat (length tbl) - 1)
                  = true).
  { apply Z.leb_le. rewrite (si_emitted _ _ _ _ _ Sc).
    apply list_elem_of_lookup in Hin0. destruct Hin0 as [i Hi].
    pose proof (lookup_lt_Some _ _ _ Hi) as Li.
    assert (Hfl : take (length tbl) (emitlist st) !! i = Some false).
    { apply lookup_take_Some. split; [|exact Li].
      now rewrite (Fl i r0 Hi), Hf0. }
    pose proof (count_true_some_false _ _ Hfl) as C.
    rewrite length_take, (si_flags_len _ _ _ _ _ Sc) in C. lia. }
  pose proof (finish_inv cfg w tbl n content st T B Sc) as Fi.
  cbv zeta in Fi. rewrite Short in Fi.
  assert (Len : (length tbl <= length (emitlist st))%nat)
    by (rewrite (si_flags_len _ _ _ _ _ Sc); lia).
  split; intros Com; rewrite Com in Fi; simpl in Fi.
  - eexists. split; [exact Fi|]. split; [reflexivity|].
    apply (report_unmatched cfg tbl recs FatalError st (emitlist st) []
             W ltac:(constructor) Len Fl).
    simpl. now rewrite app_nil_r.
  - destruct (finish cfg w tbl st) as [[|e] st'|] eqn:Fin; [| |exact Fi].
    + destruct Fi as [Wr Es]. split.
      * apply (report_unmatched cfg tbl recs Warning st (emitlist st)
                 [Status (length tbl) (records st) (emitted st)]
                 W ltac:(repeat constructor; eauto) Len Fl).
        exact Es.
      * intros Hd r rec Hin Hf. rewrite Wr.
        assert (Ho : (order r < length tbl)%nat).
        { destruct S0 as (warnings & Bi & _).
          destruct (build_index_spec _ _ _ _ Bi) as (_ & Hl & Hc & Hn).
          assert (Hw : warnings = []).
          { destruct Hd as [Cod|Hd]; [|apply Hn, Hd].
            destruct Hc as [Hc|Hc]; [congruence|exact Hc]. }
          subst warnings. simpl in Hl. rewrite Hl.
          apply (tk_rows _ _ _ T r Hin). }
        apply (payloads_elem _ 0 (length tbl) (order r)); [lia|].
        rewrite Ec. unfold content_of.
        rewrite (row_at_elem tbl r (tk_orders _ _ _ T) Hin), Hf. reflexivity.
    + destruct Fi as [Sf Fr]. split; [exact Sf|]. split; [exact Fr|].
      pose proof (finish_failure_stderr cfg w tbl st e st' Fin) as Es.
      rewrite R, Short, Com in Es. simpl in Es.
      apply (report_unmatched cfg tbl recs Warning st (emitlist st) []
               W ltac:(constructor) Len Fl).
      now rewrite app_nil_r.
Qed.

(** ** The order law *)

Lemma build_index_nodup cfg lines :
  NoDup (map fst (get_entries cfg lines)) ->
  exists tbl,
    build_index cfg lines = inr (tbl, []) /\
    tbl ≡ₚ number_from 0 (get_entries cfg lines).
Proof.
  intros Hd.
  destruct (build_index cfg lines) as [e|[tbl warnings]] eqn:B.
  - exfalso. unfold build_index in B.
    pose proof (remove_dups_spec cfg
                  (sort_entries (number_from 0 (get_entries cfg lines)))) as R.
    rewrite B in R. destruct R as (_ & _ & Ne). apply Ne.
    apply dedup_first_id.
    destruct (sort_entries_spec (number_from 0 (get_entries cfg lines)))
      as [P _].
    change (NoDup (name <$> sort_entries
                     (number_from 0 (get_entries cfg lines)))).
    rewrite P. change (NoDup (map name (number_from 0 (get_entries cfg lines)))).
    now rewrite number_from_name.
  - destruct (build_index_spec _ _ _ _ B) as (_ & _ & _ & H).
    destruct (H Hd) as [P ->]. eauto.
Qed.

Lemma content_of_position cfg tbl entries recs p e :
  index_ok entries tbl -> tbl ≡ₚ number_from 0 entries ->
  entries !! p = Some e ->
  content_of cfg tbl recs p
  = match found cfg e.1 recs with
    | Some rec => Some (payload rec)
    | None => None
    end.
Proof.
  intros Ok P He.
  pose proof (number_from_lookup entries 0 p e He) as L. simpl in L.
  apply list_elem_of_lookup_2 in L. rewrite <- P in L.
  unfold content_of.
  pose proof (row_at_elem tbl _ (ix_orders _ _ Ok) L) as Hr.
  simpl in Hr. rewrite Hr. reflexivity.
Qed.

Lemma key_selected entries tbl k :
  index_ok entries tbl -> bin_search k tbl <> -1 -> k ∈ map fst entries.
Proof.
  intros Ok Hm.
  destruct (bin_search_range tbl k) as [H|[_ (r & Hr & Hk)]];
    [contradiction|].
  apply list_elem_of_lookup_2 in Hr.
  destruct (ix_rows _ _ Ok r Hr) as [_ He].
  apply list_elem_of_lookup_2 in He.
  change (map fst entries) with (fst <$> entries).
  apply list_elem_of_fmap. exists (name r, group r). auto.
Qed.

Lemma row_selected entries tbl r :
  index_ok entries tbl -> r ∈ tbl -> name r ∈ map fst entries.
Proof.
  intros Ok Hr. destruct (ix_rows _ _ Ok r Hr) as [_ He].
  apply list_elem_of_lookup_2 in He.
  change (map fst entries) with (fst <$> entries).
  apply list_elem_of_fmap. exists (name r, group r). auto.
Qed.

(** C1, as the program has it.  For a selection list without repeated
    keys and a stream of records, both ending with a line feed, in select
    mode: a run that ends with success has written, in the order of the
    selection list, the records of the keys of the list that occur in the
    stream, wherever they stand in the stream.  Without -frag, for a list
    that is not empty, an output that can be opened and a stream in which
    no selected key occurs twice: the run ends with success when -com is
    given or every key of the list occurs in the stream; when a key is
    missing and -com is not given it ends with the missing-selector error,
    and what it has written is the records of the first [c] keys of the
    list, all of which occur, for some [c] that is not beyond the missing
    key: what the reading loop had flushed. *)
Theorem order_law cfg w ends recs :
  gbl_reject cfg = false ->
  (frag_on cfg = true -> is_Some (gbl_out cfg)) ->
  sel_rest ends = None -> in_rest ends = None ->
  NoDup (selector_keys cfg (sel_file w)) ->
  in_file w = Some (lines_of recs) ->
  Forall wf_record recs ->
  (forall st,
     main_text cfg w ends = Exited EXIT_SUCCESS st ->
     written (trace st) = expected_output cfg (sel_file w) recs) /\
  (gbl_frag cfg = FRAG_NONE -> selector_keys cfg (sel_file w) <> [] ->
   (forall path, gbl_out cfg = Some path -> can_write w path = true) ->
   matched_once cfg (sel_file w) recs ->
   ((gbl_com cfg = true \/
     forall k, k ∈ selector_keys cfg (sel_file w) ->
               is_Some (found cfg k recs)) ->
    exists st, main_text cfg w ends = Exited EXIT_SUCCESS st) /\
   (gbl_com cfg = false ->
    forall p k,
      selector_keys cfg (sel_file w) !! p = Some k ->
      found cfg k recs = None ->
      exists st c,
        main_text cfg w ends
        = Exited (EXIT_FAILURE MissingSelectorError) st /\
        (c <= p)%nat /\
        written (trace st)
        = take c (expected_output cfg (sel_file w) recs) /\
        forall q k',
          (q < c)%nat -> selector_keys cfg (sel_file w) !! q = Some k' ->
          is_Some (found cfg k' recs))).
Proof.
  unfold selector_keys, expected_output, matched_once.
  intros R O Es Ei Hd Hin F. rewrite (main_text_lines cfg w ends Es Ei).
  set (keys := map fst (get_entries cfg (sel_file w))).
  set (expected :=
         omap (fun k => match found cfg k recs with
                        | Some rec => Some (payload rec)
                        | None => None
                        end) keys).
  destruct (build_index_nodup cfg (sel_file w) Hd) as (tbl & Bi & P).
  destruct (build_index_spec _ _ _ _ Bi) as (Ok & _).
  assert (Hlen : length tbl = length (get_entries cfg (sel_file w))).
  { rewrite (Permutation_length P). apply number_from_length. }
  assert (Pos : forall p k,
            keys !! p = Some k ->
            (p < length tbl)%nat /\
            content_of cfg tbl recs p
            = match found cfg k recs with
              | Some rec => Some (payload rec)
              | None => None
              end).
  { intros p k Hk. unfold keys in Hk.
    change (map fst (get_entries cfg (sel_file w)))
      with (fst <$> get_entries cfg (sel_file w)) in Hk.
    rewrite list_lookup_fmap in Hk.
    destruct (get_entries cfg (sel_file w) !! p) as [x|] eqn:He;
      [|discriminate].
    injection Hk as <-. split.
    - rewrite Hlen. now apply lookup_lt_Some in He.
    - apply (content_of_position _ _ _ _ _ _ Ok P He). }
  assert (Exp : payloads (content_of cfg tbl recs) 0 (length tbl) = expected).
  { unfold expected, keys.
    rewrite Hlen, <- (length_map fst). apply payloads_list.
    intros p k Hk. simpl. apply (Pos p k Hk). }
  split.
  - intros st M.
    assert (Hne : get_entries cfg (sel_file w) <> []).
    { intros E. unfold main in M. rewrite E in M. discriminate. }
    pose proof (select_run cfg w tbl [] recs R O Bi Hne Hin F) as SR.
    rewrite M in SR. rewrite SR. exact Exp.
  - intros Fn Kne Cw Once.
    assert (Hne : get_entries cfg (sel_file w) <> []).
    { intros E. apply Kne. unfold keys. now rewrite E. }
    pose proof (select_run cfg w tbl [] recs R O Bi Hne Hin F) as SR.
    assert (Fail : forall e st,
              main cfg w = Exited (EXIT_FAILURE e) st ->
              e = MissingSelectorError /\ gbl_com cfg = false /\
              exists r, r ∈ tbl /\ found cfg (name r) recs = None).
    { intros e st M. rewrite M in SR.
      destruct SR as [(_ & path & Ho & _ & Hc)|
                      [H|[[_ Hn]|[[_ Hn]|
                        (h & pre & rec & post & _ & E & Hm & Hf)]]]].
      - rewrite (Cw path Ho) in Hc. discriminate.
      - exact H.
      - contradiction.
      - contradiction.
      - exfalso.
        destruct Hf as [x Hx]. apply found_some in Hx.
        destruct Hx as [Hx Hk].
        pose proof (key_selected _ _ _ Ok Hm) as Hsel. fold keys in Hsel.
        rewrite E in Once.
        change (map (key_of cfg) (pre ++ rec :: post))
          with (key_of cfg <$> (pre ++ rec :: post)) in Once.
        rewrite fmap_app, filter_app in Once. simpl in Once.
        rewrite filter_cons_True in Once by exact Hsel.
        apply NoDup_app in Once. destruct Once as (_ & Dis & _).
        apply (Dis (key_of cfg rec)); [|left].
        apply list_elem_of_filter. split; [exact Hsel|].
        apply list_elem_of_fmap. exists x. auto. }
    split.
    + intros Cov.
      destruct (main cfg w) as [[|e] st|] eqn:M; [eauto| |contradiction].
      exfalso. destruct (Fail e st eq_refl) as (_ & Com & r & Hr & Hf).
      destruct Cov as [Com'|Cov]; [congruence|].
      destruct (Cov (name r) (row_selected _ _ _ Ok Hr)) as [x Hx].
      congruence.
    + intros Com p k Hk Hf.
      destruct (Pos p k Hk) as [Hp Cp]. rewrite Hf in Cp.
      assert (Hrow : exists r, r ∈ tbl /\ order r = p /\ name r = k).
      { unfold keys in Hk.
        change (map fst (get_entries cfg (sel_file w)))
          with (fst <$> get_entries cfg (sel_file w)) in Hk.
        rewrite list_lookup_fmap in Hk.
        destruct (get_entries cfg (sel_file w) !! p) as [x|] eqn:He;
          [|discriminate].
        injection Hk as <-.
        pose proof (number_from_lookup _ 0 p x He) as L. simpl in L.
        apply list_elem_of_lookup_2 in L. rewrite <- P in L.
        eexists. split; [exact L|]. split; reflexivity. }
      destruct Hrow as (r & Hr & <- & <-).
      pose proof (select_run_miss cfg w tbl [] recs r R O Bi Hne Hin F
                    Com Hr Hp Hf) as SM.
      destruct (main cfg w) as [[|e] st|] eqn:M; [contradiction| |].
      2:{ contradiction. }
      destruct (Fail e st eq_refl) as (-> & _).
      destruct (SM eq_refl) as (c & Hc & Hw & Hall).
      exists st, c. split; [reflexivity|]. split; [exact Hc|]. split.
      * change (written (trace st) = take c expected).
        rewrite Hw, <- Exp.
        replace (length tbl) with (c + (length tbl - c))%nat by lia.
        rewrite payloads_app. symmetry. apply take_app_length'.
        symmetry. apply payloads_all. intros q Hq. apply Hall. lia.
      * intros q k' Hq Hk'. destruct (Pos q k' Hk') as [_ Cq].
        destruct (Hall q Hq) as [x Hx]. rewrite Cq in Hx.
        destruct (found cfg k' recs); [eauto|discriminate].
Qed.

(** ** Examples for the order law, the final drain and the completeness
    check *)

Ltac decide_NoDup := refine (bool_decide_unpack _ _); vm_compute; exact I.

Lemma order_law_witness :
  let cfg := select_cfg true false in
  let recs := [rec_of ">C" ["TT"]; rec_of ">A x" ["AA"; "CC"]] in
  let w := plain_world ["B"; "A"; "C"] (lines_of recs) in
  (exists st,
     main_text cfg w lf_ended = Exited EXIT_SUCCESS st /\
     written (trace st)
     = [">A x" +:+ LF +:+ "AA" +:+ LF +:+ "CC" +:+ LF;
        ">C" +:+ LF +:+ "TT" +:+ LF]) /\
  (exists st c,
     main_text (select_cfg false false) w lf_ended
     = Exited (EXIT_FAILURE MissingSelectorError) st /\
     (c <= 0)%nat /\ written (trace st) = []).
Proof.
  intros cfg recs w. split.
  - destruct (order_law cfg w lf_ended recs) as [Ha Hb].
    + reflexivity.
    + intros H. discriminate H.
    + reflexivity.
    + reflexivity.
    + decide_NoDup.
    + reflexivity.
    + repeat constructor.
    + destruct Hb as [Hb _].
      * reflexivity.
      * by_computation.
      * intros path H. discriminate H.
      * unfold matched_once. decide_NoDup.
      * destruct Hb as [st M]; [left; reflexivity|].
        exists st. split; [exact M|]. rewrite (Ha st M). by_computation.
  - destruct (order_law (select_cfg false false) w lf_ended recs)
      as [_ Hb].
    + reflexivity.
    + intros H. discriminate H.
    + reflexivity.
    + reflexivity.
    + decide_NoDup.
    + reflexivity.
    + repeat constructor.
    + destruct Hb as [_ Hb].
      * reflexivity.
      * by_computation.
      * intros path H. discriminate H.
      * unfold matched_once. decide_NoDup.
      * destruct (Hb eq_refl 0%nat "B" eq_refl eq_refl)
          as (st & c & M & Hc & Hw & _).
        exists st, c. split; [exact M|]. split; [exact Hc|].
        rewrite Hw. now destruct c; [|lia].
Defined.

(** C1, as the specification has it, fails in two ways.  Selectors A, B
    without -com and a stream that holds only B: B is a match for a subset
    of the list, but the missing A is fatal before the buffer is written
    out, and nothing is written.  Selectors A, A, B with -cod and the
    stream A, B: the deduplicated list is A, B and both keys occur, but
    the run ends with success having written A only (B keeps position 2
    of the list as read, beyond the two positions that are written). *)
Lemma order_law_fails :
  (let cfg := select_cfg false false in
   let recs := [rec_of ">B" ["GG"]] in
   let w := plain_world ["A"; "B"] (lines_of recs) in
   NoDup (selector_keys cfg (sel_file w)) /\
   matched_once cfg (sel_file w) recs /\
   expected_output cfg (sel_file w) recs = [">B" +:+ LF +:+ "GG" +:+ LF] /\
   exit_of (main_text cfg w lf_ended)
   = Some (EXIT_FAILURE MissingSelectorError) /\
   output_of (main_text cfg w lf_ended) = []) /\
  (let cfg := select_cfg false true in
   let recs := [rec_of ">A" []; rec_of ">B" []] in
   let w := plain_world ["A"; "A"; "B"] (lines_of recs) in
   table_of cfg (sel_file w)
   = [ {| name := "A"; group := None; order := 0 |};
       {| name := "B"; group := None; order := 2 |} ] /\
   expected_output cfg ["A"; "B"] recs = [">A" +:+ LF; ">B" +:+ LF] /\
   exit_of (main_text cfg w lf_ended) = Some EXIT_SUCCESS /\
   output_of (main_text cfg w lf_ended) = [">A" +:+ LF]).
Proof.
  split.
  - intros cfg recs w.
    split; [decide_NoDup|]. split; [unfold matched_once; decide_NoDup|].
    split; [by_computation|]. split; by_computation.
  - intros cfg recs w.
    split; [by_computation|]. split; [by_computation|].
    split; by_computation.
Qed.



Lemma completeness_check_witness :
  let cfg := select_cfg true false in
  let w := plain_world ["Z"; "B"; "A"] [] in
  let tbl := table_of cfg ["Z"; "B"; "A"] in
  let recs := [rec_of ">A" ["AA"]; rec_of ">B" ["GG"]] in
  let st := state_after cfg w tbl (start_of cfg w) (lines_of recs) in
  exists st',
    finish cfg w tbl st = Exited EXIT_SUCCESS st' /\
    DidNotFind Warning "Z" ∈ stderr st' /\
    written (trace st')
    = [">B" +:+ LF +:+ "GG" +:+ LF; ">A" +:+ LF +:+ "AA" +:+ LF].
Proof.
  intros cfg w tbl recs st.
  destruct (completeness_check cfg w tbl (start_of cfg w) recs st)
    as [_ H].
  - reflexivity.
  - intros F. discriminate F.
  - exists []. split; [by_computation|]. split; by_computation.
  - repeat constructor.
  - by_computation.
  - exists {| name := "Z"; group := None; order := 0 |}.
    split; [vm_compute; right; right; left|reflexivity].
  - specialize (H eq_refl).
    destruct (finish cfg w tbl st) as [[|e] st'|] eqn:Fi;
      [|vm_compute in Fi; discriminate|contradiction].
    destruct H as [Rep _].
    exists st'. split; [reflexivity|]. split.
    + apply Rep. exists {| name := "Z"; group := None; order := 0 |}.
      split; [vm_compute; right; right; left|]. split; reflexivity.
    + vm_compute in Fi. injection Fi as <-. by_computation.
Defined.

(** C8, as the specification has it, fails.  With -com and -fragc,
    selectors (A,g1), (B,g2), (C,g1), (Z,g3) and the stream A, B, C: the
    end of the stream is reached, Z is reported as a warning, and the
    final loop ends the program with failure when it comes back to group
    g1 for C, which is not written.  With -com and -cod, selectors A, A,
    Z, B and the stream A, B: a duplicate is discarded, the table has
    three rows and B keeps position 3 of the list as read; Z is reported
    as a warning and the program exits with success, but the final loop
    stops at position 2 and B, which was matched, is not written. *)
Lemma completeness_fails :
  (let cfg := fragc_cfg true in
   let sel := ["A g1"; "B g2"; "C g1"; "Z g3"] in
   let w := plain_world sel [">A"; ">B"; ">C"] in
   let tbl := table_of cfg sel in
   let st := state_after cfg w tbl (start_of cfg w) [">A"; ">B"; ">C"] in
   gbl_com cfg = true /\
   steps cfg w tbl (start_of cfg w) [">A"; ">B"; ">C"] = Next st /\
   emitlist st = [true; true; true; false] /\
   exit_of (finish cfg w tbl st)
   = Some (EXIT_FAILURE (GroupContiguityError "out_g1.fa")) /\
   exit_of (main cfg w)
   = Some (EXIT_FAILURE (GroupContiguityError "out_g1.fa")) /\
   output_of (main cfg w) = [">A" +:+ LF; ">B" +:+ LF] /\
   stderr_of (main cfg w) = [DidNotFind Warning "Z"]) /\
  (let cfg := select_cfg true true in
   let o := main cfg (plain_world ["A"; "A"; "Z"; "B"] [">A"; ">B"]) in
   exit_of o = Some EXIT_SUCCESS /\
   output_of o = [">A" +:+ LF] /\
   stderr_of o
   = [DuplicateSelectorWarning "A"; DidNotFind Warning "Z"; Status 3 2 2]).
Proof.
  split.
  - intros cfg sel w tbl st.
    split; [by_computation|]. split; [by_computation|].
    split; [by_computation|]. split; [by_computation|].
    split; [by_computation|]. split; by_computation.
  - intros cfg o.
    split; [by_computation|]. split; by_computation.
Qed.

(** * Further properties of the code *)

(** ** The selector table, function by function *)

(** [sort_entries] leaves the loop [for(done=0; !done; )] for every table,
    within the number of restarts that the potential allows: the result
    holds the same rows and no row is followed, anywhere later in the
    table, by a row with a smaller name. *)
Theorem sort_entries_sorts t :
  sort_loop (sort_fuel t) t 0 = Some (sort_entries t) /\
  sort_entries t ≡ₚ t /\
  length (sort_entries t) = length t /\
  forall i j a b,
    (i <= j)%nat ->
    sort_entries t !! i = Some a -> sort_entries t !! j = Some b ->
    strcmp (name a) (name b) <> Gt.
Proof.
  destruct (sort_entries_spec t) as [P S].
  split.
  { unfold sort_entries.
    destruct (sort_loop_spec t (sort_fuel t) t O) as (t' & E & _);
      [reflexivity|unfold sort_fuel; lia|].
    now rewrite E. }
  split; [exact P|]. split; [now rewrite P|].
  intros i j a b Hij Ha Hb.
  exact (sorted_names_le _ i j a b S Hij Ha Hb).
Qed.

Lemma sublist_same_length {A} (l k : list A) :
  l `sublist_of` k -> length l = length k -> l = k.
Proof.
  induction 1 as [|x l k _ IH|x l k Hs IH]; simpl; intros L.
  - reflexivity.
  - f_equal. apply IH. lia.
  - apply sublist_length in Hs. lia.
Qed.

Lemma all_warnings_nil_iff t :
  sorted_names t -> (all_warnings t = [] <-> NoDup (map name t)).
Proof.
  intros S. split.
  - intros W. pose proof (all_warnings_length t) as L.
    rewrite W in L. simpl in L.
    rewrite <- (sublist_same_length _ _ (dedup_first_sublist t) L).
    apply strict_NoDup_names, dedup_first_sorted, S.
  - intros N. apply dedup_first_id, N.
Qed.

(** Without -cod, [remove_dups] on a sorted table is the fatal error
    "duplicate entry names in list" exactly when two rows have the same
    name; otherwise the table is returned as it is, with no warning. *)
Theorem remove_dups_fatal_iff_duplicate cfg t :
  gbl_cod cfg = false -> sorted_names t ->
  (remove_dups cfg t = inl DuplicateSelectorError <->
   ~ NoDup (map name t)) /\
  (NoDup (map name t) -> remove_dups cfg t = inr (t, [])).
Proof.
  intros C S.
  pose proof (remove_dups_spec cfg t) as H.
  pose proof (all_warnings_nil_iff t S) as W.
  destruct (remove_dups cfg t) as [e|[t' w]].
  - destruct H as (-> & _ & Hw). split.
    + split; [|reflexivity]. intros _ N. apply Hw, W, N.
    + intros N. exfalso. apply Hw, W, N.
  - destruct H as (-> & -> & [Hc|Hw]); [congruence|]. split.
    + split; [discriminate|]. intros N. exfalso. apply N, W, Hw.
    + intros N. destruct (dedup_first_id t N) as [-> ->]. reflexivity.
Qed.

Lemma remove_dups_fatal_iff_duplicate_witness :
  let cfg := select_cfg false false in
  let t := [ {| name := "A"; group := None; order := 1 |};
             {| name := "B"; group := None; order := 0 |} ] in
  (remove_dups cfg t = inl DuplicateSelectorError <->
   ~ NoDup (map name t)) /\
  (NoDup (map name t) -> remove_dups cfg t = inr (t, [])).
Proof.
  intros cfg t. apply (remove_dups_fatal_iff_duplicate cfg t).
  - reflexivity.
  - intros [|[|i]] a b Ha Hb; simpl in Ha, Hb; try discriminate.
    injection Ha as <-. injection Hb as <-. vm_compute. discriminate.
Defined.

Lemma dup_warnings_names t : forall dst,
  Forall (fun d => exists r, r ∈ t /\ d = DuplicateSelectorWarning (name r))
    (dup_warnings dst t).
Proof.
  induction t as [|r t IH]; intros dst; simpl; [constructor|].
  assert (Up : forall l,
    Forall (fun d => exists x, x ∈ t /\
                       d = DuplicateSelectorWarning (name x)) l ->
    Forall (fun d => exists x, x ∈ r :: t /\
                       d = DuplicateSelectorWarning (name x)) l).
  { intros l Hl. eapply Forall_impl; [exact Hl|]. intros d (x & Hx & ->).
    exists x. split; [now right|reflexivity]. }
  destruct (strcmp dst (name r)) eqn:E; try (apply Up, IH).
  apply strcmp_eq in E. subst dst.
  constructor; [exists r; split; [left|reflexivity]|apply Up, IH].
Qed.

Lemma all_warnings_names t :
  Forall (fun d => exists r, r ∈ t /\ d = DuplicateSelectorWarning (name r))
    (all_warnings t).
Proof.
  destruct t as [|r t]; simpl; [constructor|].
  eapply Forall_impl; [apply dup_warnings_names|].
  intros d (x & Hx & ->). exists x. split; [now right|reflexivity].
Qed.

(** With -cod, [remove_dups] on a sorted table never fails: the table
    returned is strictly ascending, it is the input with rows taken out,
    every name of the input is still there, and there is one warning for
    every row taken out. *)
Theorem remove_dups_cod_result cfg t :
  gbl_cod cfg = true -> sorted_names t ->
  exists t' w,
    remove_dups cfg t = inr (t', w) /\
    StronglySorted name_lt t' /\
    t' `sublist_of` t /\
    (forall r, r ∈ t -> exists r', r' ∈ t' /\ name r' = name r) /\
    (length w + length t' = length t)%nat /\
    Forall (fun d => exists r, r ∈ t /\ d = DuplicateSelectorWarning (name r))
      w.
Proof.
  intros C S.
  pose proof (remove_dups_spec cfg t) as H.
  destruct (remove_dups cfg t) as [e|[t' w]].
  - destruct H as (_ & Hc & _). congruence.
  - destruct H as (-> & -> & _).
    exists (dedup_first t), (all_warnings t).
    split; [reflexivity|].
    split; [apply dedup_first_sorted, S|].
    split; [apply dedup_first_sublist|].
    split; [apply dedup_first_keys|].
    split; [apply all_warnings_length|].
    apply all_warnings_names.
Qed.

Lemma remove_dups_cod_result_witness :
  let cfg := select_cfg false true in
  let t := [ {| name := "A"; group := None; order := 1 |};
             {| name := "A"; group := None; order := 0 |};
             {| name := "B"; group := None; order := 2 |} ] in
  exists t' w,
    remove_dups cfg t = inr (t', w) /\
    StronglySorted name_lt t' /\
    t' `sublist_of` t /\
    (forall r, r ∈ t -> exists r', r' ∈ t' /\ name r' = name r) /\
    (length w + length t' = length t)%nat /\
    Forall (fun d => exists r, r ∈ t /\ d = DuplicateSelectorWarning (name r))
      w.
Proof.
  intros cfg t. apply (remove_dups_cod_result cfg t).
  - reflexivity.
  - intros [|[|[|i]]] a b Ha Hb; simpl in Ha, Hb; try discriminate;
      injection Ha as <-; injection Hb as <-; vm_compute; discriminate.
Defined.

(** On a strictly ascending table [bin_search] is a look-up by name: it
    returns the index of the row with the name searched, and [-1] exactly
    when no row has it. *)
Theorem bin_search_finds tbl k :
  StronglySorted name_lt tbl ->
  (forall i r, tbl !! i = Some r -> name r = k ->
     bin_search k tbl = Z.of_nat i) /\
  (bin_search k tbl = -1 <-> k ∉ map name tbl).
Proof.
  intros S. destruct (bin_search_spec tbl k S) as [[E N]|(P & r & L & Hk)].
  - split.
    + intros i r Hi Hr. exfalso. exact (N i r Hi Hr).
    + split; [|intros _; exact E]. intros _ Hin.
      change (map name tbl) with (name <$> tbl) in Hin.
      apply list_elem_of_fmap in Hin. destruct Hin as (r & -> & Hr).
      apply list_elem_of_lookup in Hr. destruct Hr as [i Hi].
      exact (N i r Hi eq_refl).
  - split.
    + intros i r' Hi Hr.
      rewrite <- (strict_lookup_inj tbl _ _ r r' S L Hi); [lia|congruence].
    + split; [lia|]. intros Hn. exfalso. apply Hn.
      change (map name tbl) with (name <$> tbl).
      apply list_elem_of_fmap. exists r. split; [auto|].
      eapply list_elem_of_lookup_2; eauto.
Qed.

Lemma bin_search_finds_witness :
  let tbl := [ {| name := "A"; group := None; order := 2 |};
               {| name := "C"; group := None; order := 0 |};
               {| name := "E"; group := None; order := 1 |} ] in
  bin_search "E" tbl = 2 /\ bin_search "D" tbl = -1.
Proof.
  intros tbl.
  assert (S : StronglySorted name_lt tbl).
  { repeat constructor. }
  split.
  - apply (proj1 (bin_search_finds tbl "E" S) 2%nat
             {| name := "E"; group := None; order := 1 |});
      reflexivity.
  - apply (proj2 (bin_search_finds tbl "D" S)).
    intros H. repeat (apply elem_of_cons in H; destruct H as [H|H];
                      [discriminate|]).
    inversion H.
Defined.

(** On every table, sorted or not, the result of [bin_search] is [-1] or
    an index inside the table, and the row at that index has the name
    searched: a name that is not in the table is never found. *)
Theorem bin_search_sound tbl k :
  -1 <= bin_search k tbl < Z.of_nat (length tbl) /\
  (bin_search k tbl <> -1 ->
   exists r, tbl !! Z.to_nat (bin_search k tbl) = Some r /\ name r = k) /\
  (k ∉ map name tbl -> bin_search k tbl = -1).
Proof.
  destruct (bin_search_range tbl k) as [E|(P & r & L & Hk)].
  - rewrite E. split; [lia|]. split; [congruence|reflexivity].
  - split; [|split].
    + apply lookup_lt_Some in L. lia.
    + intros _. exists r. auto.
    + intros Hn. exfalso. apply Hn.
      change (map name tbl) with (name <$> tbl).
      apply list_elem_of_fmap. exists r. split; [auto|].
      eapply list_elem_of_lookup_2; eauto.
Qed.

(** ** Lines of the selection list *)

Lemma length_str_take n : forall s,
  String.length (str_take n s) = Nat.min n (String.length s).
Proof.
  induction n as [|n IH]; intros [|c s]; simpl; auto.
Qed.

Lemma strcspn_le s r : (strcspn s r <= String.length s)%nat.
Proof.
  induction s as [|c s IH]; simpl; [lia|].
  destruct (in_set c r); lia.
Qed.

Lemma strcspn_take s r :
  strcspn (str_take (strcspn s r) s) r = strcspn s r.
Proof.
  induction s as [|c s IH]; simpl; [reflexivity|].
  destruct (in_set c r) eqn:E; simpl; [reflexivity|].
  now rewrite E, IH.
Qed.

Lemma key_clean s r :
  let k := str_take (strcspn s r) s in
  strcspn k r = String.length k.
Proof.
  intros k. unfold k. rewrite strcspn_take, length_str_take.
  pose proof (strcspn_le s r). lia.
Qed.

Lemma parse_entry_clean cfg l k g :
  parse_entry cfg l = Some (k, g) ->
  k = str_take (strcspn (chomp_cr l) (gbl_hs cfg)) (chomp_cr l) /\
  k <> "" /\
  strcspn k (gbl_hs cfg) = String.length k /\
  (frag_on cfg = false -> g = None) /\
  (forall gs, g = Some gs ->
     gs <> "" /\ strcspn gs (gbl_hs cfg) = String.length gs).
Proof.
  unfold parse_entry.
  set (line := chomp_cr l). set (hs := gbl_hs cfg).
  destruct (0 <? strcspn line hs)%nat eqn:P; [|discriminate].
  apply Nat.ltb_lt in P.
  assert (Hk : str_take (strcspn line hs) line <> "").
  { intros E. apply (f_equal String.length) in E.
    rewrite length_str_take in E. simpl in E.
    pose proof (strcspn_le line hs). lia. }
  intros H.
  assert (Hkey : k = str_take (strcspn line hs) line).
  { destruct (frag_on cfg); [|congruence].
    destruct (0 <? _)%nat in H; congruence. }
  subst k. split; [reflexivity|]. split; [exact Hk|].
  split; [apply key_clean|].
  destruct (frag_on cfg) eqn:F.
  - split; [discriminate|].
    set (rest := str_drop (strspn (str_drop (strcspn line hs + 1) line) hs)
                   (str_drop (strcspn line hs + 1) line)) in *.
    destruct (0 <? strcspn rest hs)%nat eqn:Q.
    + injection H as <-. intros gs [= <-]. apply Nat.ltb_lt in Q. split.
      * intros E. apply (f_equal String.length) in E.
        rewrite length_str_take in E. simpl in E.
        pose proof (strcspn_le rest hs). lia.
      * apply key_clean.
    + injection H as <-. discriminate.
  - injection H as <-. split; [reflexivity|discriminate].
Qed.

Lemma get_entries_clean cfg lines :
  (length (get_entries cfg lines) <= length lines)%nat /\
  forall k g, (k, g) ∈ get_entries cfg lines ->
    (exists l, l ∈ lines /\
       k = str_take (strcspn (chomp_cr l) (gbl_hs cfg)) (chomp_cr l)) /\
    k <> "" /\
    strcspn k (gbl_hs cfg) = String.length k /\
    (frag_on cfg = false -> g = None) /\
    (forall gs, g = Some gs ->
       gs <> "" /\ strcspn gs (gbl_hs cfg) = String.length gs).
Proof.
  induction lines as [|l lines [IHl IH]]; simpl.
  - split; [lia|]. intros k g H. inversion H.
  - destruct (parse_entry cfg l) as [[k0 g0]|] eqn:P.
    + split; [simpl; lia|]. intros k g H.
      apply elem_of_cons in H. destruct H as [[= -> ->]|H].
      * destruct (parse_entry_clean cfg l k0 g0 P) as (Hk & R).
        split; [exists l; split; [left|exact Hk]|exact R].
      * destruct (IH k g H) as ((l' & Hl & Hk) & R).
        split; [exists l'; split; [now right|exact Hk]|exact R].
    + split; [lia|]. intros k g H.
      destruct (IH k g H) as ((l' & Hl & Hk) & R).
      split; [exists l'; split; [now right|exact Hk]|exact R].
Qed.

(** Every entry that [get_entries] stores comes from a line of the list:
    its key is the line up to the first delimiter, it is not empty and
    holds no delimiter.  A group is stored only with -frag, and then it is
    not empty and holds no delimiter either.  No more entries are stored
    than there are lines. *)
Theorem get_entries_keys_clean cfg lines :
  (length (get_entries cfg lines) <= length lines)%nat /\
  forall k g, (k, g) ∈ get_entries cfg lines ->
    (exists l, l ∈ lines /\
       k = str_take (strcspn (chomp_cr l) (gbl_hs cfg)) (chomp_cr l)) /\
    k <> "" /\
    strcspn k (gbl_hs cfg) = String.length k /\
    (frag_on cfg = false -> g = None) /\
    (forall gs, g = Some gs ->
       gs <> "" /\ strcspn gs (gbl_hs cfg) = String.length gs).
Proof. exact (get_entries_clean cfg lines). Qed.

Lemma chomp_cr_app k : chomp_cr (k +:+ CR) = k.
Proof.
  induction k as [|c k IH]; [reflexivity|].
  change (String c k +:+ CR) with (String c (k +:+ CR)).
  destruct k as [|d k]; [|simpl in *; now rewrite IH].
  simpl. destruct (Ascii.eqb c "013"); reflexivity.
Qed.

Lemma str_take_all k : str_take (String.length k) k = k.
Proof. induction k as [|c k IH]; simpl; [reflexivity|now rewrite IH]. Qed.

Lemma parse_entry_key cfg l :
  frag_on cfg = false ->
  chomp_cr l <> "" ->
  strcspn (chomp_cr l) (gbl_hs cfg) = String.length (chomp_cr l) ->
  parse_entry cfg l = Some (chomp_cr l, None).
Proof.
  intros F N C. unfold parse_entry. rewrite C, F, str_take_all.
  destruct (chomp_cr l); [congruence|reflexivity].
Qed.

(** A selection list written one key per line is read back as it is: when
    no key is empty or holds a delimiter, and -frag is not given,
    [get_entries] returns the keys in the order of the lines, whether the
    lines end in a carriage return or not. *)
Theorem get_entries_round_trip cfg keys :
  frag_on cfg = false ->
  Forall (fun k => k <> "" /\
                   strcspn k (gbl_hs cfg) = String.length k) keys ->
  get_entries cfg (map (fun k => k +:+ CR) keys)
  = map (fun k => (k, None)) keys /\
  (Forall (fun k => chomp_cr k = k) keys ->
   get_entries cfg keys = map (fun k => (k, None)) keys).
Proof.
  intros F H. split.
  - induction H as [|k keys [N C] _ IH]; simpl; [reflexivity|].
    rewrite (parse_entry_key cfg (k +:+ CR) F); rewrite chomp_cr_app; auto.
    now rewrite IH.
  - intros Hc. induction H as [|k keys [N C] _ IH]; simpl; [reflexivity|].
    apply Forall_cons in Hc. destruct Hc as [Hk Hc].
    rewrite (parse_entry_key cfg k F); rewrite Hk; auto.
    now rewrite (IH Hc).
Qed.

Lemma get_entries_round_trip_witness :
  let cfg := select_cfg false false in
  get_entries cfg (map (fun k => k +:+ CR) ["sp_P1"; "X.2"])
  = [("sp_P1", None); ("X.2", None)] /\
  (Forall (fun k => chomp_cr k = k) ["sp_P1"; "X.2"] ->
   get_entries cfg ["sp_P1"; "X.2"] = [("sp_P1", None); ("X.2", None)]).
Proof.
  intros cfg. apply (get_entries_round_trip cfg ["sp_P1"; "X.2"]).
  - reflexivity.
  - repeat constructor; discriminate.
Defined.

(** ** The table as a whole *)

Lemma sorted_table_names es :
  map name (sort_entries (number_from 0 es)) ≡ₚ map fst es.
Proof.
  rewrite <- (number_from_name es 0).
  apply Permutation_map. apply sort_entries_spec.
Qed.

Lemma build_index_cases cfg lines :
  let keys := map fst (get_entries cfg lines) in
  match build_index cfg lines with
  | inl e =>
      e = DuplicateSelectorError /\ gbl_cod cfg = false /\ ~ NoDup keys
  | inr (tbl, warnings) =>
      (gbl_cod cfg = true \/ NoDup keys) /\
      StronglySorted name_lt tbl /\
      (forall k, k ∈ map name tbl <-> k ∈ keys) /\
      (length warnings + length tbl = length keys)%nat /\
      (NoDup keys -> warnings = [])
  end.
Proof.
  intros keys.
  set (es := get_entries cfg lines) in *.
  set (t := sort_entries (number_from 0 es)).
  assert (S : sorted_names t) by apply sort_entries_spec.
  assert (ND : NoDup (map name t) <-> NoDup keys).
  { unfold t, keys. now rewrite sorted_table_names. }
  destruct (build_index cfg lines) as [e|[tbl warnings]] eqn:B.
  - unfold build_index in B. fold es in B. fold t in B.
    pose proof (remove_dups_spec cfg t) as R. rewrite B in R.
    destruct R as (-> & C & W). split; [reflexivity|]. split; [exact C|].
    intros N. apply W, (all_warnings_nil_iff t S), ND, N.
  - destruct (build_index_spec cfg lines tbl warnings B)
      as (Ok & L & Cw & Nd).
    fold es in Ok, L, Nd.
    split.
    { destruct Cw as [C| ->]; [now left|]. right.
      unfold build_index in B. fold es in B. fold t in B.
      pose proof (remove_dups_spec cfg t) as R. rewrite B in R.
      destruct R as (_ & W & _).
      apply ND, (all_warnings_nil_iff t S). now rewrite <- W. }
    split; [exact (ix_sorted _ _ Ok)|].
    split; [|split].
    + intros k. split.
      * intros Hin. change (map name tbl) with (name <$> tbl) in Hin.
        apply list_elem_of_fmap in Hin. destruct Hin as (r & -> & Hr).
        destruct (ix_rows _ _ Ok r Hr) as [_ He].
        apply list_elem_of_lookup_2 in He.
        unfold keys. change (map fst es) with (fst <$> es).
        apply list_elem_of_fmap. exists (name r, group r). auto.
      * intros Hin. unfold keys in Hin.
        change (map fst es) with (fst <$> es) in Hin.
        apply list_elem_of_fmap in Hin. destruct Hin as (e & -> & He).
        destruct (ix_keys _ _ Ok e He) as (r & Hr & <-).
        change (map name tbl) with (name <$> tbl).
        apply list_elem_of_fmap. exists r. auto.
    + unfold keys. now rewrite length_map.
    + intros N. apply (Nd N).
Qed.

(** The table that main builds from the selection list.  It cannot be
    built only when -cod is not given and a key occurs twice in the list
    (fatal error "duplicate entry names in list").  Otherwise the table
    is strictly ascending by name, its names are the keys of the list,
    and the warnings and the rows together are as many as the entries
    read. *)
Theorem build_index_table cfg lines :
  let keys := map fst (get_entries cfg lines) in
  match build_index cfg lines with
  | inl e =>
      e = DuplicateSelectorError /\ gbl_cod cfg = false /\ ~ NoDup keys
  | inr (tbl, warnings) =>
      (gbl_cod cfg = true \/ NoDup keys) /\
      StronglySorted name_lt tbl /\
      (forall k, k ∈ map name tbl <-> k ∈ keys) /\
      (length warnings + length tbl = length keys)%nat /\
      (NoDup keys -> warnings = [])
  end.
Proof. exact (build_index_cases cfg lines). Qed.

(** ** The two files as main reads them *)

Ltac same := match goal with |- ?x = ?x => reflexivity end.

Section Worlds.

Variables (cfg : config) (w w' : world).
Hypothesis same_devices : forall path, can_write w path = can_write w' path.

Lemma open_sink_world path mode st :
  open_sink w path mode st = open_sink w' path mode st.
Proof. unfold open_sink. now rewrite same_devices. Qed.

Lemma switch_sink_world st : switch_sink cfg w st = switch_sink cfg w' st.
Proof.
  unfold switch_sink.
  destruct (gbl_frag cfg); try same;
    destruct (idx (emitgroups st) (lastemitted st)) as [[g|]|]; try same;
    destruct (gbl_out cfg); try same;
    destruct (strcmp (last_group st) g); try same;
    now rewrite ?open_sink_world.
Qed.

Lemma emit_slot_world st : emit_slot cfg w st = emit_slot cfg w' st.
Proof. unfold emit_slot. now rewrite switch_sink_world. Qed.

Lemma drain_world entrynum fuel : forall st,
  drain fuel cfg w entrynum st = drain fuel cfg w' entrynum st.
Proof.
  induction fuel as [|fuel IH]; intros st; [reflexivity|].
  rewrite !drain_S.
  destruct (idx (emitstrings st) (lastemitted st + 1)) as [[|live|]|];
    try same;
    rewrite emit_slot_world;
    (destruct (emit_slot cfg w' _) as [r| | |]; cbn [bind]; try same);
    (destruct (lastemitted r =? _); [same|apply IH]).
Qed.

Lemma store_accum_world tbl st :
  store_accum cfg w tbl st = store_accum cfg w' tbl st.
Proof.
  unfold store_accum.
  destruct (accumstring st) as [acc|]; try same.
  destruct (idx tbl (emitting st)) as [r|]; try same.
  destruct (emitstrings st !! order r) as [[|live|]|]; try same.
  apply drain_world.
Qed.

Lemma step_world tbl st line :
  step cfg w tbl st line = step cfg w' tbl st line.
Proof.
  unfold step, on_header, new_entry.
  destruct (is_header (chomp_cr line)); try same.
  destruct (gbl_reject cfg); try same.
  now rewrite store_accum_world.
Qed.

Lemma final_drain_world n : forall st,
  final_drain n cfg w st = final_drain n cfg w' st.
Proof.
  induction n as [|n IH]; intros st; [reflexivity|]. cbn [final_drain].
  destruct (idx (emitstrings st) (lastemitted st)) as [[|live|]|];
    try same; try apply IH;
    rewrite emit_slot_world;
    (destruct (emit_slot cfg w' st) as [r| | |]; cbn [bind]; try same);
    apply IH.
Qed.

Lemma finish_world tbl st : finish cfg w tbl st = finish cfg w' tbl st.
Proof.
  unfold finish. cbv zeta.
  destruct (_ && negb (gbl_com cfg)); try same.
  destruct (store_last tbl _) as [r|]; try same.
  now rewrite final_drain_world.
Qed.

Lemma scan_world tbl lines : forall st,
  scan cfg w tbl st lines = scan cfg w' tbl st lines.
Proof.
  induction lines as [|l lines IH]; intros st; cbn [scan].
  - apply finish_world.
  - rewrite step_world.
    destruct (step cfg w' tbl st l); try same. apply IH.
Qed.

Lemma open_out_world st : open_out cfg w st = open_out cfg w' st.
Proof.
  unfold open_out.
  destruct (frag_on cfg); try same.
  destruct (gbl_out cfg) as [path|]; try same.
  destruct (String.eqb path "-"); try same.
  now rewrite same_devices.
Qed.

End Worlds.

Lemma step_chomp cfg w tbl st l l' :
  chomp_cr l = chomp_cr l' -> step cfg w tbl st l = step cfg w tbl st l'.
Proof. unfold step. now intros ->. Qed.

Lemma scan_chomp cfg w tbl lines lines' :
  map chomp_cr lines = map chomp_cr lines' ->
  forall st, scan cfg w tbl st lines = scan cfg w tbl st lines'.
Proof.
  revert lines'. induction lines as [|l lines IH]; intros [|l' lines'] E st;
    try discriminate; [reflexivity|].
  simpl in E. injection E as El E. cbn [scan].
  rewrite (step_chomp cfg w tbl st l l' El).
  destruct (step cfg w tbl st l'); try same. apply IH, E.
Qed.

Lemma parse_entry_chomp cfg l l' :
  chomp_cr l = chomp_cr l' -> parse_entry cfg l = parse_entry cfg l'.
Proof. unfold parse_entry. now intros ->. Qed.

Lemma get_entries_chomp cfg lines lines' :
  map chomp_cr lines = map chomp_cr lines' ->
  get_entries cfg lines = get_entries cfg lines'.
Proof.
  revert lines'. induction lines as [|l lines IH]; intros [|l' lines'] E;
    try discriminate; [reflexivity|].
  simpl in E. injection E as El E. simpl.
  rewrite (parse_entry_chomp cfg l l' El), (IH lines' E). reflexivity.
Qed.

Lemma main_lines cfg w sel stream :
  map chomp_cr sel = map chomp_cr (sel_file w) ->
  option_map (map chomp_cr) stream = option_map (map chomp_cr) (in_file w) ->
  main cfg (with_files w sel stream) = main cfg w.
Proof.
  intros Es Ei. unfold main. simpl.
  unfold build_index.
  rewrite (get_entries_chomp cfg sel (sel_file w) Es).
  destruct (length (get_entries cfg (sel_file w)) =? 0)%nat; try same.
  destruct (remove_dups cfg _) as [e|[tbl warnings]]; try same.
  destruct stream as [lines|], (in_file w) as [lines'|];
    try discriminate; try same.
  simpl in Ei. injection Ei as Ei.
  rewrite (open_out_world cfg (with_files w sel (Some lines)) w);
    [|reflexivity].
  destruct (open_out cfg w _); try same.
  rewrite (scan_world cfg (with_files w sel (Some lines)) w);
    [|reflexivity].
  apply scan_chomp, Ei.
Qed.

(** main sees a line of either file only with one trailing carriage
    return taken off: files whose lines end in CR LF give the same
    outcome, to the last event and message, as the same files with lines
    ended by LF alone. *)
Theorem carriage_returns_are_dropped cfg w :
  Forall (fun l => chomp_cr l = l) (sel_file w) ->
  (forall lines, in_file w = Some lines ->
     Forall (fun l => chomp_cr l = l) lines) ->
  main cfg (dos_files w) = main cfg w.
Proof.
  intros Hs Hi.
  assert (M : forall lines, Forall (fun l => chomp_cr l = l) lines ->
    map chomp_cr (map (fun l => l +:+ CR) lines) = map chomp_cr lines).
  { induction 1 as [|l lines Hl _ IH]; simpl; [reflexivity|].
    now rewrite chomp_cr_app, Hl, IH. }
  apply main_lines.
  - apply M, Hs.
  - destruct (in_file w) as [lines|]; simpl; [|reflexivity].
    f_equal. apply M, Hi. reflexivity.
Qed.

Lemma carriage_returns_are_dropped_witness :
  let w := plain_world ["B"; "A"] [">A x"; "AC"; ">B"; "GT"] in
  main (select_cfg false false) (dos_files w)
  = main (select_cfg false false) w.
Proof.
  intros w. apply (carriage_returns_are_dropped (select_cfg false false) w).
  - repeat constructor.
  - intros lines [= <-]. repeat constructor.
Defined.

Lemma open_out_emit cfg w st st' :
  open_out cfg w st = Next st' ->
  emit st' = emit st /\ accumstring st' = accumstring st.
Proof.
  unfold open_out. destruct (frag_on cfg); [now intros [= <-]|].
  destruct (gbl_out cfg) as [path|]; [|now intros [= <-]].
  destruct (String.eqb path "-"); [now intros [= <-]|].
  destruct (can_write w path); [|discriminate].
  intros [= <-]. split; reflexivity.
Qed.

Lemma idle_steps cfg w tbl st junk :
  emit st = false ->
  Forall (fun l => is_header (chomp_cr l) = false) junk ->
  steps cfg w tbl st junk = Next st.
Proof.
  intros E. induction 1 as [|l junk Hl _ IH]; simpl; [reflexivity|].
  unfold step. rewrite Hl. simpl. unfold accumulate. rewrite E. exact IH.
Qed.

(** Lines of the stream before its first header line (a line starting
    with [>]) change nothing: in every mode the outcome is that of the
    stream without them. *)
Theorem text_before_first_header_is_skipped cfg w junk lines :
  Forall (fun l => is_header (chomp_cr l) = false) junk ->
  in_file w = Some lines ->
  main cfg (with_files w (sel_file w) (Some (junk ++ lines))) = main cfg w.
Proof.
  intros J I. unfold main. simpl. rewrite I.
  destruct (length (get_entries cfg (sel_file w)) =? 0)%nat; try same.
  destruct (build_index cfg (sel_file w)) as [e|[tbl warnings]]; try same.
  set (w' := with_files w (sel_file w) (Some (junk ++ lines))).
  rewrite (open_out_world cfg w' w); [|reflexivity].
  destruct (open_out cfg w _) as [st| | |] eqn:O; try same.
  rewrite (scan_world cfg w' w); [|reflexivity].
  rewrite !scan_steps, steps_app.
  rewrite (idle_steps cfg w tbl st junk); [reflexivity| |exact J].
  apply open_out_emit in O. now rewrite (proj1 O).
Qed.

Lemma text_before_first_header_is_skipped_witness :
  let w := plain_world ["A"] [">A"; "AC"] in
  main (select_cfg false false)
    (with_files w (sel_file w) (Some (["; comment"; ""] ++ [">A"; "AC"])))
  = main (select_cfg false false) w.
Proof.
  intros w.
  apply (text_before_first_header_is_skipped (select_cfg false false) w).
  - repeat constructor.
  - reflexivity.
Defined.

(** ** Reject mode *)

Lemma reject_run_refl st :
  accumstring st = None -> reject_run st st 0 0 [].
Proof.
  intros A. split; auto; try lia. simpl. now rewrite app_nil_r.
Qed.

Lemma reject_run_trans st1 st2 st3 n1 e1 o1 n2 e2 o2 :
  reject_run st1 st2 n1 e1 o1 -> reject_run st2 st3 n2 e2 o2 ->
  reject_run st1 st3 (n1 + n2) (e1 + e2) (o1 ++ o2).
Proof.
  intros [] []. split; try congruence; try lia.
  rewrite rr_trace1, rr_trace0, rr_fout0, map_app, app_assoc. reflexivity.
Qed.

Lemma reject_line cfg w tbl st l :
  gbl_reject cfg = true -> accumstring st = None ->
  is_header (chomp_cr l) = false ->
  exists st',
    step cfg w tbl st l = Next st' /\ emit st' = emit st /\
    reject_run st st' 0 0
      (if emit st then [chomp_cr l +:+ LF] else []).
Proof.
  intros R A H. unfold step. rewrite H. cbn [bind].
  unfold accumulate. rewrite R.
  destruct (emit st) eqn:E.
  - eexists. split; [reflexivity|]. split; [exact E|].
    split; simpl; auto; lia.
  - exists st. split; [reflexivity|]. split; [exact E|].
    now apply reject_run_refl.
Qed.

Lemma reject_lines cfg w tbl body :
  gbl_reject cfg = true ->
  Forall (fun l => is_header (chomp_cr l) = false) body ->
  forall st, accumstring st = None ->
  exists st',
    steps cfg w tbl st body = Next st' /\ emit st' = emit st /\
    reject_run st st' 0 0
      (if emit st then map (fun l => chomp_cr l +:+ LF) body else []).
Proof.
  intros R. induction 1 as [|l body Hl _ IH]; intros st A.
  - exists st. split; [reflexivity|]. split; [reflexivity|].
    destruct (emit st); now apply reject_run_refl.
  - destruct (reject_line cfg w tbl st l R A Hl) as (st1 & S1 & E1 & R1).
    destruct (IH st1 (rr_accum _ _ _ _ _ R1)) as (st2 & S2 & E2 & R2).
    exists st2. cbn [steps]. rewrite S1. cbn [bind].
    split; [exact S2|]. split; [congruence|].
    pose proof (reject_run_trans _ _ _ _ _ _ _ _ _ R1 R2) as T.
    rewrite E1 in T. destruct (emit st); exact T.
Qed.

Lemma reject_header cfg w tbl st l :
  gbl_reject cfg = true -> accumstring st = None ->
  is_header (chomp_cr l) = true ->
  let out := bin_search (header_key cfg (chomp_cr l)) tbl =? -1 in
  exists st',
    step cfg w tbl st l = Next st' /\ emit st' = out /\
    reject_run st st' 1 (if out then 1 else 0)
      (if out then [chomp_cr l +:+ LF] else []).
Proof.
  intros R A H out. unfold step. rewrite H.
  unfold on_header, new_entry, match_entry. rewrite R. cbn [bind].
  fold out. destruct out; cbn [negb xorb bind].
  - unfold accumulate. rewrite R. cbn [emit set_emitted set_accumstring
      set_emit].
    eexists. split; [reflexivity|]. split; [reflexivity|].
    split; simpl; auto; lia.
  - unfold accumulate. cbn [emit set_emit set_records].
    eexists. split; [reflexivity|]. split; [reflexivity|].
    split; simpl; auto; try lia. now rewrite app_nil_r.
Qed.

(** The table-level test of a record in reject mode. *)
Lemma reject_records cfg w tbl recs :
  gbl_reject cfg = true -> Forall wf_record recs ->
  forall st, accumstring st = None ->
  exists st',
    steps cfg w tbl st (lines_of recs) = Next st' /\
    reject_run st st' (length recs)
      (length (List.filter
                 (fun rec => bin_search (key_of cfg rec) tbl =? -1) recs))
      (flat_map
         (fun rec => if bin_search (key_of cfg rec) tbl =? -1
                     then record_lines rec else []) recs).
Proof.
  intros R. induction 1 as [|rec recs [Hh Hb] _ IH]; intros st A.
  - exists st. split; [reflexivity|]. now apply reject_run_refl.
  - destruct (reject_header cfg w tbl st (header rec) R A Hh)
      as (st1 & S1 & E1 & R1).
    destruct (reject_lines cfg w tbl (body rec) R Hb st1
                (rr_accum _ _ _ _ _ R1)) as (st2 & S2 & E2 & R2).
    destruct (IH st2 (rr_accum _ _ _ _ _ R2)) as (st3 & S3 & R3).
    exists st3. split.
    + change (lines_of (rec :: recs))
        with ((header rec :: body rec) ++ lines_of recs).
      rewrite steps_app. cbn [steps]. rewrite S1. cbn [bind].
      rewrite S2. cbn [bind]. exact S3.
    + rewrite E1 in R2. cbn [List.filter flat_map].
      change (key_of cfg rec)
        with (header_key cfg (chomp_cr (header rec))).
      unfold record_lines at 1.
      destruct (bin_search (header_key cfg (chomp_cr (header rec))) tbl
                =? -1);
        pose proof (reject_run_trans _ _ _ _ _ _ _ _ _
                      (reject_run_trans _ _ _ _ _ _ _ _ _ R1 R2) R3) as T;
        simpl in T |- *; exact T.
Qed.

Lemma final_drain_idle cfg w n k : forall st c,
  emitstrings st = replicate n Null ->
  lastemitted st = Z.of_nat c -> (c + k <= n)%nat ->
  exists r,
    final_drain k cfg w st = Next r /\
    trace r = trace st /\ stderr r = stderr st /\ fout r = fout st /\
    records r = records st /\ emitted r = emitted st.
Proof.
  induction k as [|k IH]; intros st c Hs Hc Hk.
  - exists st. repeat split.
  - cbn [final_drain]. unfold idx. rewrite Hc.
    destruct (Z.of_nat c <? 0) eqn:N; [apply Z.ltb_lt in N; lia|].
    rewrite Nat2Z.id, Hs, lookup_replicate_2 by lia.
    destruct (IH (set_lastemitted (Z.of_nat c + 1) st) (S c))
      as (r & Fr & Hr); auto; [simpl; lia|lia|].
    exists r. split; [exact Fr|exact Hr].
Qed.

Lemma reject_finish cfg w tbl n st :
  gbl_reject cfg = true -> accumstring st = None ->
  emitstrings st = replicate n Null -> lastemitted st = -1 ->
  (length tbl <= n)%nat ->
  exists st',
    finish cfg w tbl st = Exited EXIT_SUCCESS st' /\
    written (trace st') = written (trace st) /\
    stderr st'
    = stderr st ++ [Status (length tbl) (records st) (emitted st)].
Proof.
  intros R A Hs Hc Hn. unfold finish. rewrite R. cbn [negb andb].
  unfold store_last. rewrite A.
  destruct (final_drain_idle cfg w n (length tbl)
              (set_lastemitted (lastemitted st + 1) st) 0)
    as (r & Fr & Tr & Er & Fo & Rc & Em); auto.
  { simpl. rewrite Hc. reflexivity. }
  cbn [lastemitted set_lastemitted].
  replace (Z.to_nat (Z.of_nat (length tbl) - (lastemitted st + 1)))
    with (length tbl) by lia.
  rewrite Fr. unfold bye.
  eexists. split; [reflexivity|].
  cbn [trace stderr set_stderr]. split.
  - destruct (fout r); cbn [trace set_trace]; rewrite ?written_app, Tr;
      simpl; rewrite ?app_nil_r; reflexivity.
  - destruct (fout r); cbn [stderr set_trace records emitted];
      now rewrite Er, Rc, Em.
Qed.

Lemma open_out_fields cfg w st st' :
  open_out cfg w st = Next st' ->
  emitstrings st' = emitstrings st /\ lastemitted st' = lastemitted st /\
  accumstring st' = accumstring st /\ stderr st' = stderr st /\
  records st' = records st /\ emitted st' = emitted st /\
  written (trace st') = written (trace st).
Proof.
  unfold open_out. destruct (frag_on cfg); [intros [= <-]; tauto|].
  destruct (gbl_out cfg) as [path|]; [|intros [= <-]; tauto].
  destruct (String.eqb path "-"); [intros [= <-]; tauto|].
  destruct (can_write w path); [|discriminate].
  intros [= <-]. cbn. rewrite written_app. simpl.
  rewrite app_nil_r. tauto.
Qed.

Lemma open_out_succeeds cfg w st :
  (forall path, gbl_out cfg = Some path -> can_write w path = true) ->
  exists st', open_out cfg w st = Next st'.
Proof.
  intros H. unfold open_out. destruct (frag_on cfg); [eauto|].
  destruct (gbl_out cfg) as [path|]; [|eauto].
  destruct (String.eqb path "-"); [eauto|].
  rewrite (H path eq_refl). eauto.
Qed.

Lemma existsb_eqb_elem k keys :
  existsb (String.eqb k) keys = true <-> k ∈ keys.
Proof.
  rewrite existsb_exists. split.
  - intros (x & Hx & E). apply String.eqb_eq in E. subst x.
    now apply list_elem_of_In.
  - intros H. exists k. split; [now apply list_elem_of_In|].
    apply String.eqb_refl.
Qed.

Lemma unselected_test cfg lines tbl warnings rec :
  build_index cfg lines = inr (tbl, warnings) ->
  (bin_search (key_of cfg rec) tbl =? -1) = negb (selected cfg lines rec).
Proof.
  intros B. pose proof (build_index_cases cfg lines) as C.
  rewrite B in C. cbv zeta in C. destruct C as (_ & S & K & _).
  unfold selected, selector_keys.
  destruct (bin_search_spec tbl (key_of cfg rec) S)
    as [[E N]|(P & r & L & Hk)].
  - rewrite E. simpl. symmetry. apply negb_true_iff.
    apply not_true_is_false. rewrite existsb_eqb_elem, <- K.
    intros Hin. change (map name tbl) with (name <$> tbl) in Hin.
    apply list_elem_of_fmap in Hin. destruct Hin as (r & Hr & Hin).
    apply list_elem_of_lookup in Hin. destruct Hin as [i Hi].
    exact (N i r Hi (eq_sym Hr)).
  - replace (bin_search (key_of cfg rec) tbl =? -1) with false
      by (symmetry; apply Z.eqb_neq; lia).
    symmetry. apply negb_false_iff. rewrite existsb_eqb_elem, <- K.
    change (map name tbl) with (name <$> tbl).
    apply list_elem_of_fmap. exists r. split; [auto|].
    eapply list_elem_of_lookup_2; eauto.
Qed.

Lemma written_prints f out : written (map (Fprintf f) out) = out.
Proof.
  induction out as [|x out IH]; simpl; [reflexivity|now rewrite IH].
Qed.

Lemma rejected_lines_table cfg lines tbl warnings recs :
  build_index cfg lines = inr (tbl, warnings) ->
  flat_map (fun rec => if bin_search (key_of cfg rec) tbl =? -1
                       then record_lines rec else []) recs
  = rejected_lines cfg lines recs /\
  length (List.filter (fun rec => bin_search (key_of cfg rec) tbl =? -1)
            recs)
  = rejected_count cfg lines recs.
Proof.
  intros B. unfold rejected_lines, rejected_count.
  induction recs as [|rec recs [IH1 IH2]]; [split; reflexivity|].
  cbn [flat_map List.filter].
  rewrite (unselected_test cfg lines tbl warnings rec B).
  destruct (selected cfg lines rec); cbn [negb length].
  - split; [exact IH1|exact IH2].
  - split; [now rewrite IH1|now rewrite IH2].
Qed.

Lemma main_text_unfold cfg w ends tbl warnings lines :
  sel_rest ends = None ->
  build_index cfg (sel_file w) = inr (tbl, warnings) ->
  get_entries cfg (sel_file w) <> [] ->
  in_file w = Some lines ->
  main_text cfg w ends
  = match
      open_out cfg w
        (set_trace [OpenStream]
           (init_state (length (get_entries cfg (sel_file w)))
              (existing w) warnings))
    with
    | Next st =>
        reading_loop cfg w (sel_stdin ends) tbl st lines (in_rest ends)
    | GotoBye st => bye tbl st
    | Insane e st => Exited (EXIT_FAILURE e) st
    | Fault => Faulted
    end.
Proof.
  intros Hs B Hne Hin. unfold main_text, get_entries_text.
  unfold build_index in B. rewrite Hs, B, Hin.
  destruct (get_entries cfg (sel_file w)) as [|x es]; [congruence|].
  reflexivity.
Qed.

(** Reject mode is a filter.  With -reject, a selection list that ends
    with a line feed and could be read (no duplicate key, or -cod) and an
    output that can be opened: every stream of records that ends with a
    line feed ends the run with success; the lines written are those of
    the records whose key is not in the selection list, in the order of
    the stream, and the status line counts the table rows, the records
    read and the records written.  A key of the list that never occurs,
    or occurs many times, is no error in this mode.  When characters
    follow the last line feed of the stream and the selection list was
    read from a file, the same lines are written and the run then fails
    as for a record that is too long: line 832 asks [feof(stdin)], which
    does not hold. *)
Theorem reject_mode_filters cfg w ends recs :
  gbl_reject cfg = true ->
  gbl_cod cfg = true \/ NoDup (selector_keys cfg (sel_file w)) ->
  selector_keys cfg (sel_file w) <> [] ->
  (forall path, gbl_out cfg = Some path -> can_write w path = true) ->
  sel_rest ends = None ->
  in_file w = Some (lines_of recs) -> Forall wf_record recs ->
  exists tbl warnings,
    build_index cfg (sel_file w) = inr (tbl, warnings) /\
    match in_rest ends with
    | Some (String c s) =>
        sel_stdin ends = false ->
        exists st,
          main_text cfg w ends = Exited (EXIT_FAILURE RecordTooLong) st /\
          written (trace st) = rejected_lines cfg (sel_file w) recs /\
          stderr st = warnings
    | _ =>
        exists st,
          main_text cfg w ends = Exited EXIT_SUCCESS st /\
          written (trace st) = rejected_lines cfg (sel_file w) recs /\
          stderr st
          = warnings ++ [Status (length tbl) (length recs)
                           (rejected_count cfg (sel_file w) recs)]
    end.
Proof.
  intros R Hd Hne Ho Hse Hin F.
  pose proof (build_index_cases cfg (sel_file w)) as C. cbv zeta in C.
  destruct (build_index cfg (sel_file w)) as [e|[tbl warnings]] eqn:B.
  { destruct C as (_ & Hc & Hn). destruct Hd as [Hd|Hd]; [congruence|].
    exfalso. exact (Hn Hd). }
  assert (Hne' : get_entries cfg (sel_file w) <> []).
  { intros E. apply Hne. unfold selector_keys. now rewrite E. }
  set (n := length (get_entries cfg (sel_file w))).
  destruct (open_out_succeeds cfg w
              (set_trace [OpenStream] (init_state n (existing w) warnings))
              Ho) as [st0 O].
  assert (St : started cfg w tbl st0) by (exists warnings; auto).
  destruct (started_shape cfg w tbl st0 St)
    as (warnings' & B' & _ & _ & Hs & _ & Ha & _ & Hc & He & Hw & Hst).
  rewrite B in B'. injection B' as <-.
  destruct (open_out_fields cfg w _ st0 O) as (_ & _ & _ & _ & Hr & _).
  cbn in Hr.
  destruct (reject_records cfg w tbl recs R F st0 Ha) as (st1 & S1 & R1).
  destruct (build_index_spec cfg (sel_file w) tbl warnings B) as (Ok & _).
  assert (W1 : written (trace st1) = rejected_lines cfg (sel_file w) recs).
  { rewrite (rr_trace _ _ _ _ _ R1), written_app, Hw, written_prints.
    apply (rejected_lines_table cfg (sel_file w) tbl warnings recs B). }
  exists tbl, warnings. split; [reflexivity|].
  rewrite (main_text_unfold cfg w ends tbl warnings (lines_of recs)
             Hse B Hne' Hin).
  fold n. rewrite O, reading_loop_steps, S1.
  assert (Fin : exists st,
            finish cfg w tbl st1 = Exited EXIT_SUCCESS st /\
            written (trace st) = rejected_lines cfg (sel_file w) recs /\
            stderr st
            = warnings ++ [Status (length tbl) (length recs)
                             (rejected_count cfg (sel_file w) recs)]).
  { destruct (reject_finish cfg w tbl n st1 R (rr_accum _ _ _ _ _ R1))
      as (st2 & F2 & W2 & E2).
    { rewrite (rr_slots _ _ _ _ _ R1). exact Hs. }
    { rewrite (rr_cursor _ _ _ _ _ R1). exact Hc. }
    { exact (ix_length _ _ Ok). }
    exists st2. split; [exact F2|]. split; [now rewrite W2|].
    rewrite E2, (rr_stderr _ _ _ _ _ R1), (rr_records _ _ _ _ _ R1),
      (rr_emitted _ _ _ _ _ R1), Hst, Hr, He. simpl. do 3 f_equal.
    apply (rejected_lines_table cfg (sel_file w) tbl warnings recs B). }
  destruct (in_rest ends) as [[|c s]|]; cbn [reading_loop];
    [exact Fin| |exact Fin].
  intros ->. exists st1. split; [reflexivity|]. split; [exact W1|].
  now rewrite (rr_stderr _ _ _ _ _ R1).
Qed.

Lemma reject_mode_filters_witness :
  let cfg := reject_cfg in
  let recs := [ {| header := ">A one"; body := ["AC"] |};
                {| header := ">B"; body := ["GT"; "TT"] |};
                {| header := ">A two"; body := [] |};
                {| header := ">C"; body := ["GG"] |} ] in
  let w := plain_world ["A"; "Z"] (lines_of recs) in
  let cut :=
    {| sel_stdin := false; sel_rest := None; in_rest := Some "AC" |} in
  let out := [">B" +:+ LF; "GT" +:+ LF; "TT" +:+ LF;
              ">C" +:+ LF; "GG" +:+ LF] in
  (exists st,
     main_text cfg w lf_ended = Exited EXIT_SUCCESS st /\
     written (trace st) = out /\ stderr st = [Status 2 4 2]) /\
  (exists st,
     main_text cfg w cut = Exited (EXIT_FAILURE RecordTooLong) st /\
     written (trace st) = out /\ stderr st = []).
Proof.
  intros cfg recs w cut out.
  assert (Hd : gbl_cod cfg = true \/ NoDup (selector_keys cfg (sel_file w))).
  { right. refine (bool_decide_unpack _ _). vm_compute. exact I. }
  assert (Hne : selector_keys cfg (sel_file w) <> [])
    by (vm_compute; discriminate).
  assert (Ho : forall path, gbl_out cfg = Some path ->
                 can_write w path = true)
    by (intros path H; discriminate H).
  assert (F : Forall wf_record recs) by (repeat constructor).
  split.
  - destruct (reject_mode_filters cfg w lf_ended recs eq_refl Hd Hne Ho
                eq_refl eq_refl F) as (tbl & warnings & B & st & M & Hw & He).
    vm_compute in B. injection B as <- <-.
    exists st. split; [exact M|]. split; [exact Hw|exact He].
  - destruct (reject_mode_filters cfg w cut recs eq_refl Hd Hne Ho
                eq_refl eq_refl F) as (tbl & warnings & B & H).
    vm_compute in B. injection B as <- <-.
    destruct (H eq_refl) as (st & M & Hw & He).
    exists st. split; [exact M|]. split; [exact Hw|exact He].
Defined.

(** ** Where the output goes *)

Lemma flow_inv_bind P Q f k :
  flow_inv P Q f -> (forall st, P st -> flow_inv P Q (k st)) ->
  flow_inv P Q (bind f k).
Proof. destruct f; simpl; auto. Qed.

Lemma flow_inv_weaken (P Q P' Q' : state -> Prop) f :
  (forall st, P st -> P' st) -> (forall st, Q st -> Q' st) ->
  flow_inv P Q f -> flow_inv P' Q' f.
Proof. destruct f; simpl; auto. Qed.

Lemma drain_flow_inv cfg w entrynum (P Q : state -> Prop) :
  (forall st, P st ->
     flow_inv P Q
       (emit_slot cfg w (set_lastemitted (lastemitted st + 1) st))) ->
  forall fuel st, P st -> flow_inv P Q (drain fuel cfg w entrynum st).
Proof.
  intros H. induction fuel as [|fuel IH]; intros st Hst; [exact I|].
  rewrite drain_S.
  destruct (idx (emitstrings st) (lastemitted st + 1)) as [[|live|]|];
    try exact I; try exact Hst;
    (apply flow_inv_bind; [apply H, Hst|]);
    intros r Hr; (destruct (lastemitted r =? _); [exact Hr|apply IH, Hr]).
Qed.

Lemma final_drain_flow_inv cfg w (P Q : state -> Prop) :
  (forall st, P st -> flow_inv P Q (emit_slot cfg w st)) ->
  (forall st v, P st -> P (set_lastemitted v st)) ->
  forall n st, P st -> flow_inv P Q (final_drain n cfg w st).
Proof.
  intros H L. induction n as [|n IH]; intros st Hst; [exact Hst|].
  cbn [final_drain].
  destruct (idx (emitstrings st) (lastemitted st)) as [[|live|]|];
    try exact I; try (apply IH, L, Hst);
    (apply flow_inv_bind; [apply H, Hst|]);
    intros r Hr; apply IH, L, Hr.
Qed.

Lemma scan_outcome_inv cfg w tbl (P Q : state -> Prop) :
  (forall st line, P st -> flow_inv P Q (step cfg w tbl st line)) ->
  (forall st, P st -> outcome_inv Q (finish cfg w tbl st)) ->
  (forall st, P st -> outcome_inv Q (bye tbl st)) ->
  forall lines st, P st -> outcome_inv Q (scan cfg w tbl st lines).
Proof.
  intros Hs Hf Hb. induction lines as [|l lines IH]; intros st Hst.
  - apply Hf, Hst.
  - cbn [scan]. pose proof (Hs st l Hst) as H.
    destruct (step cfg w tbl st l) as [r|r|e r|]; simpl in H |- *.
    + apply IH, H.
    + apply Hb, H.
    + exact H.
    + exact I.
Qed.

Lemma reading_loop_outcome_inv cfg w tbl (P Q : state -> Prop) :
  (forall st line, P st -> flow_inv P Q (step cfg w tbl st line)) ->
  (forall st, P st -> outcome_inv Q (finish cfg w tbl st)) ->
  (forall st, P st -> outcome_inv Q (bye tbl st)) ->
  (forall st, P st -> Q st) ->
  (forall st x, P st -> P (set_stderr x st)) ->
  forall feof rest lines st,
    P st -> outcome_inv Q (reading_loop cfg w feof tbl st lines rest).
Proof.
  intros Hs Hf Hb Hq He feof rest.
  induction lines as [|l lines IH]; intros st Hst.
  - cbn [reading_loop].
    destruct rest as [[|c s]|]; try (apply Hf, Hst).
    destruct feof; [|apply Hq, Hst].
    set (st' := set_stderr (stderr st ++ [LastLineWarning]) st).
    pose proof (Hs st' (String c s) (He st _ Hst)) as H.
    destruct (step cfg w tbl st' (String c s)) as [r|r|e r|];
      simpl in H |- *.
    + apply Hf, H.
    + apply Hb, H.
    + exact H.
    + exact I.
  - cbn [reading_loop]. pose proof (Hs st l Hst) as H.
    destruct (step cfg w tbl st l) as [r|r|e r|]; simpl in H |- *.
    + apply IH, H.
    + apply Hb, H.
    + exact H.
    + exact I.
Qed.

Section OneSink.

Variables (cfg : config) (w : world).
Hypothesis no_frag : gbl_frag cfg = FRAG_NONE.

Lemma one_sink_weak st : one_sink cfg st -> one_sink_trace cfg st.
Proof. now intros [_ H]. Qed.

Lemma one_sink_print st s :
  one_sink cfg st ->
  one_sink cfg (set_trace (trace st ++ [Fprintf (fout st) s]) st).
Proof.
  intros [F T]. split; [exact F|]. cbn [trace set_trace].
  apply Forall_app. split; [exact T|]. repeat constructor. exact F.
Qed.

Lemma one_sink_emit_slot st :
  one_sink cfg st ->
  flow_inv (one_sink cfg) (one_sink_trace cfg) (emit_slot cfg w st).
Proof.
  intros Hst. unfold emit_slot, switch_sink. rewrite no_frag. cbn [bind].
  destruct (idx (emitstrings st) (lastemitted st)) as [[|s|]|];
    try exact I.
  destruct (one_sink_print st s Hst) as [F T]. split; assumption.
Qed.

Lemma one_sink_frame st st' :
  fout st' = fout st -> trace st' = trace st ->
  one_sink cfg st -> one_sink cfg st'.
Proof.
  intros F T [Hf Ht]. split; [congruence|].
  unfold one_sink_trace. now rewrite T.
Qed.

Lemma one_sink_store_accum tbl st :
  one_sink cfg st ->
  flow_inv (one_sink cfg) (one_sink_trace cfg) (store_accum cfg w tbl st).
Proof.
  intros Hst. unfold store_accum.
  destruct (accumstring st) as [acc|]; [|exact Hst].
  destruct (idx tbl (emitting st)) as [r|]; [|exact I].
  destruct (emitstrings st !! order r) as [[|live|]|];
    try exact I; try (apply one_sink_weak, Hst).
  apply drain_flow_inv.
  - intros s Hs. apply one_sink_emit_slot.
    revert Hs. apply one_sink_frame; reflexivity.
  - revert Hst. apply one_sink_frame; reflexivity.
Qed.

Lemma one_sink_match_entry tbl l st :
  one_sink cfg st ->
  flow_inv (one_sink cfg) (one_sink_trace cfg) (match_entry cfg tbl l st).
Proof.
  intros Hst.
  pose proof (match_entry_frame cfg tbl l st) as Fr.
  destruct (match_entry cfg tbl l st) as [r|r|e r|] eqn:M; simpl.
  - destruct (Fr r eq_refl) as (_ & _ & T & _ & _ & F & _).
    revert Hst. now apply one_sink_frame.
  - exfalso. exact (match_entry_no_bye cfg tbl l st r M).
  - clear Fr. unfold match_entry in M.
    destruct (xorb _ _); [|discriminate].
    destruct (gbl_reject cfg); [discriminate|].
    unfold select_match in M. cbn [bind] in M.
    destruct (idx _ _) as [[|]|] in M; try discriminate.
    + injection M as _ <-. apply one_sink_weak.
      revert Hst. apply one_sink_frame; reflexivity.
    + destruct (frag_on cfg); [|discriminate].
      destruct (idx tbl _) as [x|]; [|discriminate].
      destruct (group x) as [g|].
      * destruct (String.length g =? 0)%nat.
        -- injection M as _ <-. apply one_sink_weak.
           revert Hst. apply one_sink_frame; reflexivity.
        -- destruct (order x <? _)%nat; discriminate.
      * injection M as _ <-. apply one_sink_weak.
        revert Hst. apply one_sink_frame; reflexivity.
  - exact I.
Qed.

Lemma one_sink_accumulate l st :
  one_sink cfg st -> one_sink cfg (accumulate cfg l st).
Proof.
  intros Hst. unfold accumulate.
  destruct (emit st); [|exact Hst].
  destruct (gbl_reject cfg); [now apply one_sink_print|].
  revert Hst. apply one_sink_frame; reflexivity.
Qed.

Lemma one_sink_step tbl st line :
  one_sink cfg st ->
  flow_inv (one_sink cfg) (one_sink_trace cfg) (step cfg w tbl st line).
Proof.
  intros Hst. unfold step. apply flow_inv_bind.
  - destruct (is_header (chomp_cr line)); [|exact Hst].
    unfold on_header. apply flow_inv_bind.
    + unfold new_entry.
      assert (H1 : (one_sink cfg) (set_records (S (records st)) st)).
      { revert Hst. apply one_sink_frame; reflexivity. }
      destruct (gbl_reject cfg); [exact H1|].
      now apply one_sink_store_accum.
    + intros r Hr. now apply one_sink_match_entry.
  - intros r Hr. now apply one_sink_accumulate.
Qed.

Lemma one_sink_bye tbl st :
  one_sink cfg st -> outcome_inv (one_sink_trace cfg) (bye tbl st).
Proof.
  intros [F T]. unfold bye. simpl.
  destruct (fout st) as [|path] eqn:E; cbn [trace set_stderr set_trace].
  - exact T.
  - apply Forall_app. split; [exact T|]. repeat constructor.
    + now rewrite <- F.
    + discriminate.
Qed.

Lemma one_sink_finish tbl st :
  one_sink cfg st ->
  outcome_inv (one_sink_trace cfg) (finish cfg w tbl st).
Proof.
  intros Hst. unfold finish. cbv zeta.
  set (short := negb (gbl_reject cfg) && _).
  set (st1 := if short
              then set_stderr
                     (stderr st
                      ++ missing (if gbl_com cfg then Warning else FatalError)
                           tbl (emitlist st)) st
              else st).
  assert (H1 : one_sink cfg st1).
  { unfold st1. destruct short; [|exact Hst].
    revert Hst. apply one_sink_frame; reflexivity. }
  destruct (short && negb (gbl_com cfg)); [apply one_sink_weak, H1|].
  destruct (store_last tbl st1) as [st2|] eqn:L; [|exact I].
  assert (H2 : one_sink cfg st2).
  { unfold store_last in L.
    destruct (accumstring st1); [|now injection L as <-].
    destruct (idx tbl (emitting st1)) as [r|]; [|discriminate].
    destruct (order r <? _)%nat; [|discriminate].
    injection L as <-. revert H1. apply one_sink_frame; reflexivity. }
  pose proof (final_drain_flow_inv cfg w (one_sink cfg) (one_sink_trace cfg)
                one_sink_emit_slot) as D.
  specialize (D (fun s v H =>
    one_sink_frame s (set_lastemitted v s) eq_refl eq_refl H)).
  specialize (D (Z.to_nat (Z.of_nat (length tbl)
                           - lastemitted
                               (set_lastemitted (lastemitted st2 + 1) st2)))
                (set_lastemitted (lastemitted st2 + 1) st2)
                (one_sink_frame st2 _ eq_refl eq_refl H2)).
  destruct (final_drain _ cfg w _) as [r|r|e r|]; simpl in D |- *;
    try exact D; try exact I; now apply one_sink_bye.
Qed.

Lemma one_sink_open_out st :
  fout st = stdout -> Forall (one_sink_event cfg) (trace st) ->
  flow_inv (one_sink cfg) (one_sink_trace cfg) (open_out cfg w st).
Proof.
  intros F T. unfold open_out, frag_on. rewrite no_frag.
  assert (S : forall path, gbl_out cfg = Some path ->
            String.eqb path "-" = false -> sink_of cfg = opened path).
  { intros path O E. unfold sink_of. now rewrite O, E. }
  assert (S0 : (gbl_out cfg = None \/
                exists path, gbl_out cfg = Some path /\
                             String.eqb path "-" = true) ->
               one_sink cfg st).
  { intros H. split; [|exact T]. rewrite F. unfold sink_of.
    destruct H as [->|(path & -> & ->)]; reflexivity. }
  destruct (gbl_out cfg) as [path|] eqn:O; [|apply S0; now left].
  destruct (String.eqb path "-") eqn:E; [apply S0; right; eauto|].
  destruct (can_write w path); [|exact T].
  split; [symmetry; now apply S|].
  apply Forall_app. split; [exact T|]. repeat constructor.
  now apply S.
Qed.

End OneSink.

Lemma main_one_sink cfg w :
  gbl_frag cfg = FRAG_NONE ->
  outcome_inv (one_sink_trace cfg) (main cfg w).
Proof.
  intros NF. unfold main.
  destruct (length (get_entries cfg (sel_file w)) =? 0)%nat;
    [constructor|].
  destruct (build_index cfg (sel_file w)) as [e|[tbl warnings]];
    [constructor|].
  destruct (in_file w) as [lines|]; [|constructor].
  set (st0 := set_trace _ _).
  assert (T0 : Forall (one_sink_event cfg) (trace st0)).
  { repeat constructor. }
  pose proof (one_sink_open_out cfg w NF st0 eq_refl T0) as O.
  destruct (open_out cfg w st0) as [r|r|e r|]; simpl in O.
  - apply (scan_outcome_inv cfg w tbl (one_sink cfg)); auto.
    + intros st line. apply (one_sink_step cfg w NF).
    + intros st. apply (one_sink_finish cfg w NF).
    + intros st. apply (one_sink_bye cfg).
  - now apply (one_sink_bye cfg).
  - exact O.
  - exact I.
Qed.

(** Without -frag all the output of a run goes to one place, whatever the
    files hold and however the run ends: every write is to standard
    output when -out is absent or [-], and to the -out file otherwise; no
    other file is opened for writing, and standard output is never
    closed. *)
Theorem output_goes_to_one_sink cfg w :
  gbl_frag cfg = FRAG_NONE ->
  Forall (one_sink_event cfg) (trace_of (main cfg w)).
Proof.
  intros NF. pose proof (main_one_sink cfg w NF) as H.
  destruct (main cfg w) as [c st|]; [exact H|constructor].
Qed.

Lemma output_goes_to_one_sink_witness :
  let cfg :=
    {| gbl_hs := default_hs; gbl_hi := default_hi;
       gbl_out := Some "picked.fa"; gbl_frag := FRAG_NONE;
       gbl_com := true; gbl_cod := false; gbl_reject := false |} in
  let w := plain_world ["B"; "A"] [">A"; "AC"; ">B"; "GT"] in
  trace_of (main cfg w)
  = [OpenStream; Fopen "picked.fa" "w";
     Fprintf (opened "picked.fa") (">B" +:+ LF +:+ "GT" +:+ LF);
     Fprintf (opened "picked.fa") (">A" +:+ LF +:+ "AC" +:+ LF);
     Fclose (opened "picked.fa")] /\
  Forall (one_sink_event cfg) (trace_of (main cfg w)).
Proof.
  intros cfg w. split; [by_computation|].
  apply (output_goes_to_one_sink cfg w). reflexivity.
Defined.

(** ** lcl_strcasecmp *)

Lemma ord_inj a b : ord a = ord b -> a = b.
Proof.
  unfold ord. intros H. apply (f_equal ascii_of_N) in H.
  now rewrite !ascii_N_embedding in H.
Qed.

Lemma ord_lt_256 a : (ord a < 256)%N.
Proof. apply N_ascii_bounded. Qed.

Lemma toupper_eq c :
  toupper c = if ((97 <=? c) && (c <=? 122))%N then (c - 32)%N else c.
Proof. reflexivity. Qed.

Lemma toupper_low c : (c <= 127)%N -> (toupper c <= 127)%N.
Proof.
  rewrite toupper_eq. intros H.
  destruct ((97 <=? c)%N && (c <=? 122)%N) eqn:E; [|exact H]. lia.
Qed.

Lemma toupper_zero c : toupper c = 0%N <-> c = 0%N.
Proof.
  rewrite toupper_eq.
  destruct ((97 <=? c)%N && (c <=? 122)%N) eqn:E; [|tauto].
  apply andb_true_iff in E. destruct E as [E1 E2].
  apply N.leb_le in E1. lia.
Qed.

Lemma ord_upper ch :
  (ord ch <= 127)%N ->
  ord (ascii_of_N (toupper (ord ch))) = toupper (ord ch).
Proof.
  intros H. unfold ord at 1. apply N_ascii_embedding.
  pose proof (toupper_low _ H). lia.
Qed.

Lemma ascii_compare_ords a b :
  Ascii.compare a b = (ord a ?= ord b)%N.
Proof. reflexivity. Qed.

Lemma lcl_strcasecmp_compare a : forall b,
  ascii_text a = true -> ascii_text b = true ->
  lcl_strcasecmp a b
  = Some (match String.compare (upper a) (upper b) with
          | Lt => -1
          | Eq => 0
          | Gt => 1
          end).
Proof.
  induction a as [|x a IH]; intros [|y b] Ha Hb.
  - reflexivity.
  - cbn [ascii_text] in Hb. apply andb_true_iff in Hb.
    destruct Hb as [Hy Hb]. unfold between in Hy.
    apply andb_true_iff in Hy. destruct Hy as [Y1 Y2].
    apply N.leb_le in Y1, Y2.
    cbn [lcl_strcasecmp deref upper String.compare].
    replace (127 <? 0)%N with false by reflexivity.
    replace (127 <? ord y)%N with false by (symmetry; apply N.ltb_ge; lia).
    cbn [orb].
    assert (T : (toupper 0 <? toupper (ord y))%N = true).
    { apply N.ltb_lt. change (toupper 0) with 0%N.
      pose proof (toupper_zero (ord y)). lia. }
    now rewrite T.
  - cbn [ascii_text] in Ha. apply andb_true_iff in Ha.
    destruct Ha as [Hx Ha]. unfold between in Hx.
    apply andb_true_iff in Hx. destruct Hx as [X1 X2].
    apply N.leb_le in X1, X2.
    cbn [lcl_strcasecmp deref upper String.compare].
    replace (127 <? 0)%N with false by reflexivity.
    replace (127 <? ord x)%N with false by (symmetry; apply N.ltb_ge; lia).
    cbn [orb].
    assert (P : (0 < toupper (ord x))%N).
    { pose proof (toupper_zero (ord x)). lia. }
    change (toupper 0) with 0%N.
    replace (toupper (ord x) <? 0)%N with false
      by (symmetry; apply N.ltb_ge; lia).
    replace (0 <? toupper (ord x))%N with true
      by (symmetry; apply N.ltb_lt; lia).
    reflexivity.
  - cbn [ascii_text] in Ha, Hb.
    apply andb_true_iff in Ha. destruct Ha as [Hx Ha].
    apply andb_true_iff in Hb. destruct Hb as [Hy Hb].
    unfold between in Hx, Hy.
    apply andb_true_iff in Hx. destruct Hx as [X1 X2].
    apply andb_true_iff in Hy. destruct Hy as [Y1 Y2].
    apply N.leb_le in X1, X2, Y1, Y2.
    cbn [lcl_strcasecmp deref upper String.compare].
    replace (127 <? ord x)%N with false by (symmetry; apply N.ltb_ge; lia).
    replace (127 <? ord y)%N with false by (symmetry; apply N.ltb_ge; lia).
    cbn [orb].
    rewrite ascii_compare_ords, !ord_upper by lia.
    destruct (N.compare_spec (toupper (ord x)) (toupper (ord y)))
      as [E|L|G].
    + rewrite E, N.ltb_irrefl.
      replace (toupper (ord y) =? 0)%N with false.
      * apply IH; assumption.
      * symmetry. apply N.eqb_neq. pose proof (toupper_zero (ord y)). lia.
    + replace (toupper (ord x) <? toupper (ord y))%N with true
        by (symmetry; apply N.ltb_lt; lia).
      reflexivity.
    + replace (toupper (ord x) <? toupper (ord y))%N with false
        by (symmetry; apply N.ltb_ge; lia).
      replace (toupper (ord y) <? toupper (ord x))%N with true
        by (symmetry; apply N.ltb_lt; lia).
      reflexivity.
Qed.

Lemma string_compare_eq a b : String.compare a b = Eq <-> a = b.
Proof.
  split; [apply strcmp_eq|intros ->; apply strcmp_refl].
Qed.

(** On text that [toupper] can read, [lcl_strcasecmp] is the comparison
    of the two strings in upper case: -1, 0 or 1 as the first is below,
    equal to or above the second, and 0 exactly when they differ only in
    the case of letters. *)
Theorem lcl_strcasecmp_is_caseless_compare a b :
  ascii_text a = true -> ascii_text b = true ->
  lcl_strcasecmp a b
  = Some (match String.compare (upper a) (upper b) with
          | Lt => -1
          | Eq => 0
          | Gt => 1
          end) /\
  (lcl_strcasecmp a b = Some 0 <-> upper a = upper b) /\
  lcl_strcasecmp b a = option_map Z.opp (lcl_strcasecmp a b).
Proof.
  intros Ha Hb.
  rewrite (lcl_strcasecmp_compare a b Ha Hb),
    (lcl_strcasecmp_compare b a Hb Ha).
  split; [reflexivity|]. split.
  - rewrite <- string_compare_eq.
    destruct (String.compare (upper a) (upper b)); split;
      try reflexivity; try discriminate.
  - rewrite (String.compare_antisym (upper a) (upper b)).
    destruct (String.compare (upper b) (upper a)); reflexivity.
Qed.

Lemma lcl_strcasecmp_is_caseless_compare_witness :
  lcl_strcasecmp "-FragC" "-fragc" = Some 0 /\
  lcl_strcasecmp "-in" "-out" = Some (-1).
Proof.
  destruct (lcl_strcasecmp_is_caseless_compare "-FragC" "-fragc"
              eq_refl eq_refl) as (_ & E & _).
  destruct (lcl_strcasecmp_is_caseless_compare "-in" "-out"
              eq_refl eq_refl) as (C & _).
  split; [apply E; reflexivity|exact C].
Defined.

(** ** convert_escape *)

Ltac split_ifs :=
  repeat match goal with
         | |- context [if ?b then _ else _] => destruct b
         end.

Lemma convert_loop_fresh s : forall state sum count sum' count',
  state = NORMAL \/ state = ESCAPE \/ state = CONTROL ->
  convert_loop state sum count s = convert_loop state sum' count' s.
Proof.
  induction s as [|ch rest IH]; intros state sum count sum' count' Hs.
  - reflexivity.
  - cbn [convert_loop]. cbv zeta.
    destruct (ord ch =? 0)%N; [reflexivity|].
    destruct Hs as [->|[->| ->]]; split_ifs; try reflexivity;
      try (f_equal; apply IH; auto); apply IH; auto.
Qed.

Lemma put_ord ch parsed :
  put (ord ch) (Some parsed) = Some (String ch parsed).
Proof. unfold put, ord. now rewrite ascii_N_embedding. Qed.

Lemma plain_text_cons ch rest :
  plain_text (String ch rest) = true ->
  (ord ch =? 0)%N = false /\ (ord ch =? ord "\")%N = false /\
  (ord ch =? ord "^")%N = false /\ plain_text rest = true.
Proof.
  cbn [plain_text]. rewrite !andb_true_iff, !negb_true_iff. tauto.
Qed.

Lemma convert_loop_plain s t : forall sum count,
  plain_text s = true ->
  convert_loop NORMAL sum count (s +:+ t)
  = option_map (String.append s) (convert_loop NORMAL sum count t).
Proof.
  induction s as [|ch rest IH]; intros sum count P.
  - change ("" +:+ t) with t.
    destruct (convert_loop NORMAL sum count t); reflexivity.
  - destruct (plain_text_cons ch rest P) as (Z & B & C & R).
    change (String ch rest +:+ t) with (String ch (rest +:+ t)).
    cbn [convert_loop]. cbv zeta. rewrite Z, B, C, (IH sum count R).
    destruct (convert_loop NORMAL sum count t) as [p|]; [|reflexivity].
    cbn [option_map]. now rewrite put_ord.
Qed.

Lemma append_empty s : s +:+ "" = s.
Proof.
  induction s as [|c s IH]; [reflexivity|].
  change (String c s +:+ "") with (String c (s +:+ "")). now rewrite IH.
Qed.

(** Text without a backslash or a caret goes through [convert_escape]
    unchanged, also in front of text that has them.  Followed by one
    backslash or one caret and nothing more, an escape cut short, it is a
    syntax error; followed by two backslashes it ends with one backslash,
    and followed by two carets with the control character of the caret,
    number 30. *)
Theorem convert_escape_plain_text s :
  plain_text s = true ->
  convert_escape s = Some s /\
  (forall t,
     convert_escape (s +:+ t)
     = option_map (String.append s) (convert_escape t)) /\
  convert_escape (s +:+ "\") = None /\
  convert_escape (s +:+ "^") = None /\
  convert_escape (s +:+ "\\") = Some (s +:+ "\") /\
  convert_escape (s +:+ "^^") = Some (s +:+ String "030" "").
Proof.
  intros P. unfold convert_escape.
  assert (C : forall t,
    convert_loop NORMAL 0 0 (s +:+ t)
    = option_map (String.append s) (convert_loop NORMAL 0 0 t)).
  { intros t. now apply convert_loop_plain. }
  split; [|split; [exact C|repeat split; rewrite C; reflexivity]].
  specialize (C "").
  change (convert_loop NORMAL 0 0 "") with (Some "") in C.
  cbn [option_map] in C. now rewrite !append_empty in C.
Qed.

Lemma convert_escape_plain_text_witness :
  convert_escape "|,; " = Some "|,; " /\
  (forall t,
     convert_escape ("|,; " +:+ t)
     = option_map (String.append "|,; ") (convert_escape t)) /\
  convert_escape ("|,; " +:+ "\") = None /\
  convert_escape ("|,; " +:+ "^") = None /\
  convert_escape ("|,; " +:+ "\\") = Some ("|,; " +:+ "\") /\
  convert_escape ("|,; " +:+ "^^") = Some ("|,; " +:+ String "030" "").
Proof. apply (convert_escape_plain_text "|,; "). reflexivity. Defined.

Lemma put_length c r p :
  put c r = Some p ->
  exists q, r = Some q /\ String.length p = S (String.length q).
Proof.
  destruct r as [q|]; [|discriminate]. intros [= <-]. eauto.
Qed.

Lemma convert_loop_length s : forall state sum count p,
  convert_loop state sum count s = Some p ->
  (String.length p <= String.length s)%nat.
Proof.
  induction s as [|ch rest IH]; intros state sum count p H.
  - destruct state; try discriminate. injection H as <-. simpl. lia.
  - cbn [convert_loop] in H. cbv zeta in H. cbn [String.length].
    destruct (ord ch =? 0)%N.
    { destruct state; try discriminate. injection H as <-. simpl. lia. }
    destruct state;
      repeat match type of H with
             | context [if ?b then _ else _] => destruct b
             | context [match ?d with Some _ => _ | None => _ end] =>
                 destruct d
             end;
      try discriminate;
      try (apply IH in H; lia);
      try (apply put_length in H; destruct H as (q & H & ->);
           apply IH in H; lia).
Qed.

(** [convert_escape] writes its result over its argument.  The parsed
    string is never longer than the text read so far, so the write
    pointer does not pass the read pointer. *)
Theorem convert_escape_never_grows s p :
  convert_escape s = Some p ->
  (String.length p <= String.length s)%nat.
Proof. apply convert_loop_length. Qed.

Lemma convert_escape_never_grows_witness :
  (String.length (String "009"%char " :") <= String.length "\t\032:")%nat.
Proof.
  apply (convert_escape_never_grows "\t\032:").
  vm_compute. reflexivity.
Defined.

Lemma hex_escape_step ch rest sum count :
  convert_loop NORMAL sum count (hex_escape ch +:+ rest)
  = put (ord ch) (convert_loop NORMAL (ord ch) 2 rest).
Proof.
  destruct ch as [[] [] [] [] [] [] [] []]; reflexivity.
Qed.

Lemma convert_escape_of_escape s : convert_escape (escape s) = Some s.
Proof.
  unfold convert_escape. generalize 0%N at 1. generalize O.
  induction s as [|ch rest IH]; intros count sum; [reflexivity|].
  cbn [escape]. rewrite hex_escape_step, IH. apply put_ord.
Qed.

(** Every string, whatever bytes it holds, can be handed to
    [convert_escape] written as escapes of two hexadecimal digits: the
    string is what comes back. *)
Theorem convert_escape_round_trip s : convert_escape (escape s) = Some s.
Proof. exact (convert_escape_of_escape s). Qed.

Ltac digit_cases a H :=
  let E := fresh "E" in
  assert (E : (a = 0 \/ a = 1 \/ a = 2 \/ a = 3 \/ a = 4 \/ a = 5 \/ a = 6 \/
               a = 7 \/ a = 8 \/ a = 9)%N) by lia;
  clear H;
  destruct E as [->|[->|[->|[->|[->|[->|[->|[->|[->| ->]]]]]]]]].

(** A character can be given by its number: a backslash, or a backslash
    and [d], and exactly three decimal digits, or a backslash and [o] and
    exactly three octal digits.  The character is the one with that
    number; a number above 255 is a syntax error. *)
Theorem convert_escape_numeric a b c :
  (a < 10)%N -> (b < 10)%N -> (c < 10)%N ->
  let byte n :=
    if (n <=? 255)%N then Some (String (ascii_of_N n) EmptyString)
    else None in
  convert_escape ("\" +:+ three_digits a b c)
  = byte (100 * a + 10 * b + c)%N /\
  convert_escape ("\d" +:+ three_digits a b c)
  = byte (100 * a + 10 * b + c)%N /\
  ((a < 8)%N -> (b < 8)%N -> (c < 8)%N ->
   convert_escape ("\o" +:+ three_digits a b c)
   = byte (64 * a + 8 * b + c)%N).
Proof.
  intros Ha Hb Hc.
  digit_cases a Ha; digit_cases b Hb; digit_cases c Hc;
    vm_compute; (split; [reflexivity|split; [reflexivity|]]);
    intros; try reflexivity; discriminate.
Qed.

Lemma convert_escape_numeric_witness :
  convert_escape "\009" = Some (String "009"%char EmptyString) /\
  convert_escape "\d300" = None.
Proof.
  destruct (convert_escape_numeric 0 0 9) as (A & _); try reflexivity.
  destruct (convert_escape_numeric 3 0 0) as (_ & B & _); try reflexivity.
  split; [exact A|exact B].
Defined.

(** ** process_command_line_args *)

Lemma c_str_idem bytes : c_str (c_str bytes) = c_str bytes.
Proof.
  induction bytes as [|ch rest IH]; [reflexivity|].
  cbn [c_str]. destruct (ord ch =? 0)%N eqn:E; [reflexivity|].
  cbn [c_str]. now rewrite E, IH.
Qed.

Lemma setirangenumeric_range lower upper args label v :
  setirangenumeric lower upper args label = Done v -> lower <= v <= upper.
Proof.
  unfold setirangenumeric. destruct args as [|arg rest]; [discriminate|].
  destruct (sscanf_d arg) as [n| |]; try discriminate.
  destruct (n <? lower) eqn:L; [discriminate|].
  destruct (upper <? n) eqn:U; [discriminate|].
  intros [= <-]. apply Z.ltb_ge in L, U. lia.
Qed.

Lemma settings_inv_frame g g' :
  g_wl g' = g_wl g -> g_hs g' = g_hs g -> g_hi g' = g_hi g ->
  settings_inv g -> settings_inv g'.
Proof. unfold settings_inv. intros -> -> ->. auto. Qed.

Lemma parse_args_inv n : forall args g g',
  (length args <= n)%nat -> settings_inv g ->
  parse_args g args = Done g' -> settings_inv g'.
Proof.
  induction n as [|n IH]; intros [|arg rest] g g' L I H;
    try (simpl in L; lia); try (now injection H as <-).
  simpl in L. cbn [parse_args] in H.
  assert (Step : forall g1 l, (length l <= length rest)%nat ->
            settings_inv g1 -> parse_args g1 l = Done g' -> settings_inv g').
  { intros g1 l Hl. apply IH. lia. }
  assert (Fr : forall g1, g_wl g1 = g_wl g -> g_hs g1 = g_hs g ->
            g_hi g1 = g_hi g -> settings_inv g1).
  { intros g1 A B C. exact (settings_inv_frame g g1 A B C I). }
  destruct (which_option arg) as [[]|why|]; try discriminate.
  - destruct rest as [|v rest'].
    + injection H as <-. now apply Fr.
    + refine (Step _ _ _ _ H); [simpl; lia|now apply Fr].
  - destruct rest as [|v rest'].
    + injection H as <-. now apply Fr.
    + refine (Step _ _ _ _ H); [simpl; lia|now apply Fr].
  - destruct rest as [|v rest'].
    + injection H as <-. now apply Fr.
    + refine (Step _ _ _ _ H); [simpl; lia|now apply Fr].
  - refine (Step _ _ _ _ H); [lia|now apply Fr].
  - refine (Step _ _ _ _ H); [lia|now apply Fr].
  - refine (Step _ _ _ _ H); [lia|now apply Fr].
  - destruct (setirangenumeric 1 INT_MAX rest "-wl") as [v| |] eqn:W;
      try discriminate.
    apply setirangenumeric_range in W.
    assert (Iw : settings_inv (set_g_wl v g)).
    { destruct I as (_ & B & C). split; [exact W|split; assumption]. }
    destruct rest as [|x rest'].
    + now injection H as <-.
    + refine (Step _ _ _ _ H); [simpl; lia|exact Iw].
  - destruct rest as [|v rest']; [discriminate|].
    destruct (convert_escape v) as [bytes|]; [|discriminate].
    refine (Step _ _ _ _ H); [simpl; lia|].
    destruct I as (A & B & C). split; [exact A|]. split; [|exact C].
    apply c_str_idem.
  - destruct rest as [|v rest']; [discriminate|].
    destruct (convert_escape v) as [bytes|]; [|discriminate].
    refine (Step _ _ _ _ H); [simpl; lia|].
    destruct I as (A & B & C). split; [exact A|]. split; [exact B|].
    apply c_str_idem.
  - refine (Step _ _ _ _ H); [lia|now apply Fr].
  - refine (Step _ _ _ _ H); [lia|now apply Fr].
Qed.

Lemma sanity_done g g' :
  sanity g = Done g' ->
  g' = g /\ is_Some (g_in g) /\ is_Some (g_sel g) /\
  (g_frag g <> FRAG_NONE ->
   g_reject g = false /\
   exists template,
     g_out g = Some template /\ has_conversion template = true).
Proof.
  unfold sanity.
  destruct (g_in g) as [i|]; [|discriminate].
  destruct (g_sel g) as [s|]; [|discriminate].
  destruct (g_frag g).
  - intros [= <-]. repeat split; eauto; congruence.
  - destruct (g_out g) as [t|]; [|discriminate].
    destruct (has_conversion t) eqn:C; [|discriminate].
    destruct (g_reject g); [discriminate|].
    intros [= <-]. repeat split; eauto.
  - destruct (g_out g) as [t|]; [|discriminate].
    destruct (has_conversion t) eqn:C; [|discriminate].
    destruct (g_reject g); [discriminate|].
    intros [= <-]. repeat split; eauto.
Qed.

(** The settings with which [process_command_line_args] returns to main.
    The stream and the selection list are named; the line width is
    between 1 and [INT_MAX]; the terminator sets hold no null character;
    and with -fragc or -fraga there is an -out template that holds [%s],
    and -reject is not set.  So main never runs in fragment mode without
    a template. *)
Theorem parsed_settings_are_sane args g :
  process_command_line_args args = Done g ->
  is_Some (g_in g) /\ is_Some (g_sel g) /\
  1 <= g_wl g <= INT_MAX /\
  c_str (g_hs g) = g_hs g /\ c_str (g_hi g) = g_hi g /\
  (frag_on (config_of g) = true ->
   gbl_reject (config_of g) = false /\
   exists template,
     gbl_out (config_of g) = Some template /\
     has_conversion template = true).
Proof.
  unfold process_command_line_args.
  destruct (parse_args initial_globals args) as [g0| |] eqn:P;
    try discriminate.
  intros S. apply sanity_done in S. destruct S as (-> & Hi & Hs & Hf).
  assert (I0 : settings_inv initial_globals).
  { split; [vm_compute; split; discriminate|]. split; reflexivity. }
  destruct (parse_args_inv (length args) args initial_globals g0
              (Nat.le_refl _) I0 P) as (W & A & B).
  repeat (split; [assumption|]).
  unfold frag_on, config_of. cbn [gbl_frag gbl_out gbl_reject].
  intros F. apply Hf. intros E. rewrite E in F. discriminate.
Qed.

Lemma parsed_settings_are_sane_witness :
  let args := ["-IN"; "db.fa"; "-sel"; "-"; "-FragC"; "-out"; "g_%s.fa";
               "-hs"; "\t,"; "-wl"; " 4096"] in
  exists g,
    process_command_line_args args = Done g /\
    g_hs g = String "009"%char "," /\ g_wl g = 4096 /\
    (frag_on (config_of g) = true ->
     gbl_reject (config_of g) = false /\
     exists template,
       gbl_out (config_of g) = Some template /\
       has_conversion template = true).
Proof.
  intros args.
  destruct (process_command_line_args args) as [g| |] eqn:P;
    try (vm_compute in P; discriminate).
  exists g. split; [reflexivity|].
  pose proof (parsed_settings_are_sane args g P) as (_ & _ & _ & _ & _ & F).
  vm_compute in P. injection P as <-.
  split; [reflexivity|]. split; [reflexivity|exact F].
Defined.

Lemma lcl_strcasecmp_step s1 s2 :
  lcl_strcasecmp s1 s2
  = if (127 <? deref s1)%N || (127 <? deref s2)%N then None
    else if (toupper (deref s1) <? toupper (deref s2))%N then Some (-1)
    else if (toupper (deref s2) <? toupper (deref s1))%N then Some 1
    else if (toupper (deref s1) =? 0)%N then Some 0
    else
      match s1, s2 with
      | String _ s1', String _ s2' => lcl_strcasecmp s1' s2'
      | _, _ => Some 0
      end.
Proof. destruct s1; reflexivity. Qed.

Lemma lcl_strcasecmp_zero a b :
  lcl_strcasecmp a b = Some 0 ->
  (127 <? deref a)%N = false /\ (127 <? deref b)%N = false /\
  toupper (deref a) = toupper (deref b) /\
  (toupper (deref a) <> 0%N ->
   exists x a' y b',
     a = String x a' /\ b = String y b' /\
     lcl_strcasecmp a' b' = Some 0).
Proof.
  rewrite lcl_strcasecmp_step.
  destruct (127 <? deref a)%N; [discriminate|].
  destruct (127 <? deref b)%N; [discriminate|]. cbn [orb].
  destruct (N.ltb_spec (toupper (deref a)) (toupper (deref b))) as [L1|L1];
    [discriminate|].
  destruct (N.ltb_spec (toupper (deref b)) (toupper (deref a))) as [L2|L2];
    [discriminate|].
  assert (E : toupper (deref a) = toupper (deref b)) by lia.
  intros H. repeat (split; [auto|]). intros Nz.
  destruct (N.eqb_spec (toupper (deref a)) 0); [contradiction|].
  destruct a as [|x a'].
  { exfalso. apply Nz. reflexivity. }
  destruct b as [|y b'].
  { exfalso. apply Nz. rewrite E. reflexivity. }
  eauto 8.
Qed.

Lemma lcl_strcasecmp_same_upto n : forall a b c,
  (String.length a <= n)%nat ->
  lcl_strcasecmp a b = Some 0 ->
  lcl_strcasecmp a c = lcl_strcasecmp b c.
Proof.
  induction n as [|n IH]; intros a b c L H;
    destruct (lcl_strcasecmp_zero a b H) as (A & B & E & T);
    rewrite (lcl_strcasecmp_step a c), (lcl_strcasecmp_step b c), A, B, E;
    cbn [orb];
    (destruct (127 <? deref c)%N; [reflexivity|]);
    (destruct (toupper (deref b) <? toupper (deref c))%N; [reflexivity|]);
    (destruct (toupper (deref c) <? toupper (deref b))%N; [reflexivity|]);
    (destruct (N.eqb_spec (toupper (deref b)) 0) as [Z|Nz];
       [reflexivity|]);
    rewrite <- E in Nz;
    destruct (T Nz) as (x & a' & y & b' & -> & -> & H');
    (destruct c as [|z c']; [reflexivity|]).
  - simpl in L. lia.
  - apply IH; [simpl in L; lia|exact H'].
Qed.

Lemma lcl_strcasecmp_same a b c :
  lcl_strcasecmp a b = Some 0 ->
  lcl_strcasecmp a c = lcl_strcasecmp b c.
Proof. now apply (lcl_strcasecmp_same_upto (String.length a)). Qed.

Lemma when_option_same {A} a b name (yes no : parsed A) :
  lcl_strcasecmp a b = Some 0 ->
  when_option a name yes no = when_option b name yes no.
Proof.
  intros H. unfold when_option. now rewrite (lcl_strcasecmp_same a b name H).
Qed.

Lemma which_option_same a b :
  lcl_strcasecmp a b = Some 0 -> which_option a = which_option b.
Proof.
  intros H. unfold which_option.
  repeat rewrite (when_option_same a b _ _ _ H). reflexivity.
Qed.

(** The names of the options can be written in any case.  When the first
    argument is replaced by one that [lcl_strcasecmp] finds equal to it,
    the settings or the reason for stopping are the same; only an
    argument that is no option is named as it was written. *)
Theorem option_names_ignore_case a b rest :
  lcl_strcasecmp a b = Some 0 ->
  process_command_line_args (a :: rest)
  = process_command_line_args (b :: rest) \/
  (process_command_line_args (a :: rest) = Halt (UnknownArgument a) /\
   process_command_line_args (b :: rest) = Halt (UnknownArgument b)).
Proof.
  intros H. unfold process_command_line_args. cbn [parse_args].
  rewrite (which_option_same a b H).
  destruct (which_option b) as [[]|why|]; try (left; reflexivity).
  right. split; reflexivity.
Qed.

Lemma option_names_ignore_case_witness :
  process_command_line_args ["-SEL"; "ids.txt"; "-in"; "db.fa"]
  = process_command_line_args ["-sel"; "ids.txt"; "-in"; "db.fa"] \/
  (process_command_line_args ["-SEL"; "ids.txt"; "-in"; "db.fa"]
   = Halt (UnknownArgument "-SEL") /\
   process_command_line_args ["-sel"; "ids.txt"; "-in"; "db.fa"]
   = Halt (UnknownArgument "-sel")).
Proof.
  apply (option_names_ignore_case "-SEL" "-sel"). reflexivity.
Defined.

Ltac option_step name :=
  cbn [parse_args];
  let v := eval vm_compute in (which_option name) in
  change (which_option name) with v; reflexivity.

Lemma parse_in g v rest :
  parse_args g ("-in" :: v :: rest) = parse_args (set_g_in (Some v) g) rest.
Proof. option_step "-in". Qed.

Lemma parse_sel g v rest :
  parse_args g ("-sel" :: v :: rest)
  = parse_args (set_g_sel (Some v) g) rest.
Proof. option_step "-sel". Qed.

Lemma parse_out g v rest :
  parse_args g ("-out" :: v :: rest)
  = parse_args (set_g_out (Some v) g) rest.
Proof. option_step "-out". Qed.

Lemma parse_fragc g rest :
  parse_args g ("-fragc" :: rest) = parse_args (set_g_frag FRAG_NEW g) rest.
Proof. option_step "-fragc". Qed.

Lemma parse_fraga g rest :
  parse_args g ("-fraga" :: rest)
  = parse_args (set_g_frag FRAG_APPEND g) rest.
Proof. option_step "-fraga". Qed.

Lemma parse_reject g rest :
  parse_args g ("-reject" :: rest) = parse_args (set_g_reject true g) rest.
Proof. option_step "-reject". Qed.

Lemma parse_com g rest :
  parse_args g ("-com" :: rest) = parse_args (set_g_com true g) rest.
Proof. option_step "-com". Qed.

Lemma parse_cod g rest :
  parse_args g ("-cod" :: rest) = parse_args (set_g_cod true g) rest.
Proof. option_step "-cod". Qed.

Lemma parse_hs g bytes rest :
  parse_args g ("-hs" :: escape bytes :: rest)
  = parse_args (set_g_hs (c_str bytes) g) rest.
Proof.
  cbn [parse_args].
  change (which_option "-hs") with (@Done option_name OptHs).
  cbv iota beta. now rewrite convert_escape_of_escape.
Qed.

Lemma parse_hi g bytes rest :
  parse_args g ("-hi" :: escape bytes :: rest)
  = parse_args (set_g_hi (c_str bytes) g) rest.
Proof.
  cbn [parse_args].
  change (which_option "-hi") with (@Done option_name OptHi).
  cbv iota beta. now rewrite convert_escape_of_escape.
Qed.

(** Every setting that passes the checks can be asked for: the command
    line written for it by [render], with the two terminator sets as
    hexadecimal escapes, is parsed back to the same settings. *)
Theorem render_round_trip g :
  sanity g = Done g -> g_wl g = MYMAXSTRING ->
  c_str (g_hs g) = g_hs g -> c_str (g_hi g) = g_hi g ->
  process_command_line_args (render g) = Done g.
Proof.
  intros S W Hs Hi.
  destruct g as [hs hi i s o f com cod wl rej]. cbn in W, Hs, Hi. subst wl.
  unfold process_command_line_args, render.
  cbn [g_in g_sel g_out g_frag g_reject g_com g_cod g_hs g_hi].
  assert (Hin : is_Some i /\ is_Some s).
  { apply sanity_done in S. cbn in S. tauto. }
  destruct Hin as [[i' ->] [s' ->]].
  destruct o as [o'|], f, rej, com, cod; cbn [app];
    rewrite ?parse_in, ?parse_sel, ?parse_out, ?parse_fragc, ?parse_fraga,
      ?parse_reject, ?parse_com, ?parse_cod, parse_hs, parse_hi, Hs, Hi;
    exact S.
Qed.

Lemma render_round_trip_witness :
  let g :=
    {| g_hs := ";,"; g_hi := default_hi;
       g_in := Some "db.fa"; g_sel := Some "-"; g_out := Some "part_%s.fa";
       g_frag := FRAG_APPEND; g_com := true; g_cod := false;
       g_wl := MYMAXSTRING; g_reject := false |} in
  render g
  = ["-in"; "db.fa"; "-sel"; "-"; "-out"; "part_%s.fa"; "-fraga"; "-com";
     "-hs"; "\x3b\x2c"; "-hi"; "\x01\x09\x20"] /\
  process_command_line_args (render g) = Done g.
Proof.
  intros g. split; [reflexivity|].
  apply (render_round_trip g); reflexivity.
Defined.

(** ** File names of the groups *)

Lemma append_cons c a b : String c a +:+ b = String c (a +:+ b).
Proof. reflexivity. Qed.











(** ** Fragment mode: which file a record goes to *)






Section Routing.

Variables (cfg : config) (w : world) (template : string) (tbl : list row).
Hypothesis select_mode : gbl_reject cfg = false.
Hypothesis frag_mode_on : frag_on cfg = true.
Hypothesis out_template : gbl_out cfg = Some template.
Hypothesis orders_differ : NoDup (map order tbl).





Lemma routed_weak st :
  route_inv cfg template tbl st -> routed cfg template tbl st.
Proof. apply ri_trace. Qed.








End Routing.





(** ** Names that hold a delimiter of the selection list *)

Lemma table_names_clean cfg lines tbl warnings r :
  build_index cfg lines = inr (tbl, warnings) -> r ∈ tbl ->
  name r <> "" /\ strcspn (name r) (gbl_hs cfg) = String.length (name r).
Proof.
  intros B Hr.
  destruct (build_index_spec cfg lines tbl warnings B) as (Ok & _).
  destruct (ix_rows _ _ Ok r Hr) as [_ He].
  apply list_elem_of_lookup_2 in He.
  destruct (proj2 (get_entries_clean cfg lines) _ _ He)
    as (_ & N & C & _).
  auto.
Qed.

(** A record whose name holds a delimiter of the selection list (with
    the default settings a vertical bar or a colon) is never found,
    whatever the selection list says: a key is read from the list only up
    to its first delimiter.  Neither is a record with an empty name. *)
Theorem name_with_delimiter_is_never_found cfg lines tbl warnings l :
  build_index cfg lines = inr (tbl, warnings) ->
  (strcspn (header_key cfg l) (gbl_hs cfg)
   < String.length (header_key cfg l))%nat \/
  header_key cfg l = "" ->
  bin_search (header_key cfg l) tbl = -1.
Proof.
  intros B H.
  destruct (bin_search_range tbl (header_key cfg l)) as [E|(_ & r & L & K)];
    [exact E|].
  exfalso. apply list_elem_of_lookup_2 in L.
  destruct (table_names_clean cfg lines tbl warnings r B L) as [N C].
  rewrite K in N, C. destruct H as [H|H]; [lia|contradiction].
Qed.

Lemma name_with_delimiter_is_never_found_witness :
  let cfg := select_cfg false false in
  exists tbl,
    build_index cfg ["sp|P12345|X"; "Q9"] = inr (tbl, []) /\
    header_key cfg ">sp|P12345|X human" = "sp|P12345|X" /\
    bin_search (header_key cfg ">sp|P12345|X human") tbl = -1.
Proof.
  intros cfg.
  destruct (build_index cfg ["sp|P12345|X"; "Q9"]) as [e|[tbl ws]] eqn:B;
    [vm_compute in B; discriminate|].
  exists tbl.
  assert (W : ws = []) by (vm_compute in B; congruence). subst ws.
  split; [reflexivity|]. split; [reflexivity|].
  apply (name_with_delimiter_is_never_found cfg _ tbl [] _ B).
  left. vm_compute. lia.
Defined.

(** ** Selection lists with groups *)

Lemma strcspn_app k t hs :
  strcspn k hs = String.length k ->
  strcspn (k +:+ t) hs = (String.length k + strcspn t hs)%nat.
Proof.
  induction k as [|c k IH]; [reflexivity|].
  rewrite append_cons. cbn [strcspn String.length].
  destruct (in_set c hs); [discriminate|].
  intros [= E]. now rewrite (IH E).
Qed.

Lemma strspn_app s t hs :
  strspn s hs = String.length s ->
  strspn (s +:+ t) hs = (String.length s + strspn t hs)%nat.
Proof.
  induction s as [|c s IH]; [reflexivity|].
  rewrite append_cons. cbn [strspn String.length].
  destruct (in_set c hs); [|discriminate].
  intros [= E]. now rewrite (IH E).
Qed.

Lemma str_take_app k t : str_take (String.length k) (k +:+ t) = k.
Proof.
  induction k as [|c k IH]; [now destruct t|].
  rewrite append_cons. cbn [str_take String.length]. now rewrite IH.
Qed.

Lemma str_drop_app k t n :
  str_drop (String.length k + n) (k +:+ t) = str_drop n t.
Proof.
  induction k as [|c k IH]; [reflexivity|].
  rewrite append_cons. cbn [String.length Nat.add str_drop]. exact IH.
Qed.

Lemma chomp_cr_keeps a g :
  g <> "" -> chomp_cr g = g -> chomp_cr (a +:+ g) = a +:+ g.
Proof.
  intros N C. induction a as [|c a IH]; [exact C|].
  rewrite append_cons. cbn [chomp_cr].
  destruct (a +:+ g) as [|d r] eqn:E.
  - destruct a; [|discriminate].
    change ("" +:+ g) with g in E. congruence.
  - now rewrite IH.
Qed.

Lemma clean_head g hs :
  g <> "" -> strcspn g hs = String.length g -> strspn g hs = O.
Proof.
  destruct g as [|c g]; [congruence|]. cbn [strcspn strspn String.length].
  destruct (in_set c hs); [discriminate|reflexivity].
Qed.

Lemma parse_entry_group cfg sep k g :
  frag_on cfg = true ->
  sep <> "" -> strspn sep (gbl_hs cfg) = String.length sep ->
  k <> "" -> strcspn k (gbl_hs cfg) = String.length k ->
  g <> "" -> strcspn g (gbl_hs cfg) = String.length g ->
  chomp_cr g = g ->
  parse_entry cfg (k +:+ sep +:+ g) = Some (k, Some g).
Proof.
  intros F Ns Cs Nk Ck Ng Cg Hg. unfold parse_entry.
  rewrite (chomp_cr_keeps k (sep +:+ g));
    [|destruct sep; [congruence|discriminate]
     |apply chomp_cr_keeps; assumption].
  destruct sep as [|d sep']; [congruence|].
  cbn [strspn String.length] in Cs.
  destruct (in_set d (gbl_hs cfg)) eqn:D; [|discriminate].
  injection Cs as Cs.
  rewrite (strcspn_app k _ _ Ck), append_cons. cbn [strcspn]. rewrite D.
  rewrite Nat.add_0_r, F, str_take_app.
  replace (0 <? String.length k)%nat with true
    by (symmetry; apply Nat.ltb_lt; destruct k; [congruence|simpl; lia]).
  rewrite (str_drop_app k (String d (sep' +:+ g)) 1). cbn [str_drop].
  rewrite (strspn_app sep' g _ Cs), (clean_head g _ Ng Cg), Nat.add_0_r.
  rewrite <- (Nat.add_0_r (String.length sep')), (str_drop_app sep' g 0).
  cbn [str_drop]. rewrite Cg, str_take_all.
  replace (0 <? String.length g)%nat with true
    by (symmetry; apply Nat.ltb_lt; destruct g; [congruence|simpl; lia]).
  reflexivity.
Qed.

(** With -fragc or -fraga a line of the selection list is a key, one or
    more delimiters, and a group: when neither the key nor the group is
    empty or holds a delimiter, [get_entries] reads back every key with
    its group, in the order of the lines. *)
Theorem get_entries_reads_groups cfg sep pairs :
  frag_on cfg = true ->
  sep <> "" -> strspn sep (gbl_hs cfg) = String.length sep ->
  Forall (fun p =>
            p.1 <> "" /\ strcspn p.1 (gbl_hs cfg) = String.length p.1 /\
            p.2 <> "" /\ strcspn p.2 (gbl_hs cfg) = String.length p.2 /\
            chomp_cr p.2 = p.2) pairs ->
  get_entries cfg (map (fun p => p.1 +:+ sep +:+ p.2) pairs)
  = map (fun p => (p.1, Some p.2)) pairs.
Proof.
  intros F Ns Cs.
  induction 1 as [|[k g] pairs (Nk & Ck & Ng & Cg & Hg) _ IH];
    [reflexivity|].
  cbn [map get_entries fst snd] in *.
  now rewrite (parse_entry_group cfg sep k g), IH.
Qed.

Lemma get_entries_reads_groups_witness :
  get_entries (fragc_cfg false)
    (map (fun p => p.1 +:+ " | " +:+ p.2) [("A", "g1"); ("B", "g2")])
  = [("A", Some "g1"); ("B", Some "g2")].
Proof.
  apply (get_entries_reads_groups (fragc_cfg false) " | "
           [("A", "g1"); ("B", "g2")]).
  - reflexivity.
  - discriminate.
  - reflexivity.
  - repeat constructor; discriminate.
Defined.

(** ** -fragc never opens a file that its probe finds *)

Lemma opened_files_app a b :
  opened_files (a ++ b) = opened_files a ++ opened_files b.
Proof.
  induction a as [|[] a IH]; simpl; auto. now rewrite IH.
Qed.

Lemma file_exists_elem path files :
  file_exists path files = true <-> path ∈ files.
Proof. unfold file_exists. apply existsb_eqb_elem. Qed.

Lemma files_known_frame w st st' :
  fs st' = fs st -> opened_files (trace st') = opened_files (trace st) ->
  files_known w st -> files_known w st'.
Proof.
  unfold files_known, fresh_files. intros -> ->. auto.
Qed.

Lemma fresh_files_frame w st st' :
  opened_files (trace st') = opened_files (trace st) ->
  fresh_files w st -> fresh_files w st'.
Proof. unfold fresh_files. intros ->. auto. Qed.

Section FreshFiles.

Variables (cfg : config) (w : world).
Hypothesis frag_new : gbl_frag cfg = FRAG_NEW.

Lemma files_known_switch st :
  files_known w st ->
  flow_inv (files_known w) (fresh_files w) (switch_sink cfg w st).
Proof.
  intros K. unfold switch_sink. rewrite frag_new.
  destruct (idx (emitgroups st) (lastemitted st)) as [[g|]|];
    try exact I.
  destruct (gbl_out cfg) as [template|]; [|exact I].
  destruct (strcmp (last_group st) g); [exact K| |].
  all: set (st1 := set_trace _ (set_last_group g st)).
  all: assert (K1 : files_known w st1)
         by (revert K; apply files_known_frame;
             [reflexivity
             |cbn; rewrite opened_files_app; simpl; apply app_nil_r]).
  all: destruct (file_exists (sprintf_s template g) (fs st1)) eqn:E;
         [exact (proj1 K1)|].
  all: unfold open_sink;
       destruct (can_write w (sprintf_s template g)); [|exact (proj1 K1)].
  all: destruct K1 as [[N D] F];
       assert (Nf : sprintf_s template g ∉ fs st1)
         by (intros H; apply file_exists_elem in H; congruence).
  all: split; [split|]; cbn [fs trace set_fs set_fout set_trace];
       rewrite opened_files_app; cbn [opened_files].
  all: try (apply NoDup_app; split; [exact N|split; [|repeat constructor;
              inversion 1]];
            intros x Hx Hin; apply list_elem_of_singleton in Hin; subst x;
            apply Nf, F; now left).
  all: try (intros path Hp; apply elem_of_app in Hp;
            destruct Hp as [Hp|Hp]; [now apply D|];
            apply list_elem_of_singleton in Hp; subst path;
            intros Hin; apply Nf, F; now right).
  all: intros path; rewrite elem_of_cons, elem_of_app,
         list_elem_of_singleton, F; tauto.
Qed.

Lemma files_known_emit_slot st :
  files_known w st ->
  flow_inv (files_known w) (fresh_files w) (emit_slot cfg w st).
Proof.
  intros K. unfold emit_slot. apply flow_inv_bind.
  - now apply files_known_switch.
  - intros r Kr.
    destruct (idx (emitstrings r) (lastemitted r)) as [[|s|]|];
      try exact I.
    revert Kr. apply files_known_frame; [reflexivity|].
    cbn. rewrite opened_files_app. simpl. apply app_nil_r.
Qed.

Lemma files_known_store_accum tbl st :
  files_known w st ->
  flow_inv (files_known w) (fresh_files w) (store_accum cfg w tbl st).
Proof.
  intros K. unfold store_accum.
  destruct (accumstring st) as [acc|]; [|exact K].
  destruct (idx tbl (emitting st)) as [r|]; [|exact I].
  destruct (emitstrings st !! order r) as [[|live|]|];
    try exact I; try exact (proj1 K).
  apply drain_flow_inv.
  - intros s Ks. apply files_known_emit_slot.
    revert Ks. apply files_known_frame; reflexivity.
  - revert K. apply files_known_frame; reflexivity.
Qed.

Lemma files_known_match_entry tbl l st :
  files_known w st ->
  flow_inv (files_known w) (fresh_files w) (match_entry cfg tbl l st).
Proof.
  intros K. pose proof (match_entry_frame cfg tbl l st) as Fr.
  destruct (match_entry cfg tbl l st) as [r|r|e r|] eqn:M; simpl.
  - destruct (Fr r eq_refl) as (_ & _ & T & F & _).
    revert K. apply files_known_frame; [exact F|now rewrite T].
  - exfalso. exact (match_entry_no_bye cfg tbl l st r M).
  - clear Fr. unfold match_entry in M.
    destruct (xorb _ _); [|discriminate].
    destruct (gbl_reject cfg); [discriminate|].
    unfold select_match in M. cbn [bind] in M.
    destruct (idx _ _) as [[|]|] in M; try discriminate.
    + injection M as _ <-. exact (proj1 K).
    + destruct (frag_on cfg); [|discriminate].
      destruct (idx tbl _) as [x|]; [|discriminate].
      destruct (group x) as [g|].
      * destruct (String.length g =? 0)%nat.
        -- injection M as _ <-. exact (proj1 K).
        -- destruct (order x <? _)%nat; discriminate.
      * injection M as _ <-. exact (proj1 K).
  - exact I.
Qed.

Lemma files_known_accumulate l st :
  files_known w st -> files_known w (accumulate cfg l st).
Proof.
  intros K. unfold accumulate.
  destruct (emit st); [|exact K].
  destruct (gbl_reject cfg); revert K; apply files_known_frame;
    try reflexivity.
  cbn. rewrite opened_files_app. simpl. apply app_nil_r.
Qed.

Lemma files_known_step tbl st line :
  files_known w st ->
  flow_inv (files_known w) (fresh_files w) (step cfg w tbl st line).
Proof.
  intros K. unfold step. apply flow_inv_bind.
  - destruct (is_header (chomp_cr line)); [|exact K].
    unfold on_header. apply flow_inv_bind.
    + unfold new_entry.
      assert (K1 : files_known w (set_records (S (records st)) st)).
      { revert K. apply files_known_frame; reflexivity. }
      destruct (gbl_reject cfg); [exact K1|].
      now apply files_known_store_accum.
    + intros r Kr. now apply files_known_match_entry.
  - intros r Kr. now apply files_known_accumulate.
Qed.

Lemma fresh_files_bye tbl st :
  fresh_files w st -> outcome_inv (fresh_files w) (bye tbl st).
Proof.
  intros K. unfold bye. simpl.
  destruct (fout st); revert K; apply fresh_files_frame;
    cbn; rewrite ?opened_files_app; simpl; rewrite ?app_nil_r; reflexivity.
Qed.

Lemma files_known_finish tbl st :
  files_known w st -> outcome_inv (fresh_files w) (finish cfg w tbl st).
Proof.
  intros K. unfold finish. cbv zeta.
  set (short := negb (gbl_reject cfg) && _).
  set (st1 := if short
              then set_stderr
                     (stderr st
                      ++ missing (if gbl_com cfg then Warning else FatalError)
                           tbl (emitlist st)) st
              else st).
  assert (K1 : files_known w st1).
  { unfold st1. destruct short; [|exact K].
    revert K. apply files_known_frame; reflexivity. }
  destruct (short && negb (gbl_com cfg)); [exact (proj1 K1)|].
  destruct (store_last tbl st1) as [st2|] eqn:L; [|exact I].
  assert (K2 : files_known w st2).
  { unfold store_last in L.
    destruct (accumstring st1); [|now injection L as <-].
    destruct (idx tbl (emitting st1)) as [r|]; [|discriminate].
    destruct (order r <? _)%nat; [|discriminate].
    injection L as <-. revert K1. apply files_known_frame; reflexivity. }
  pose proof (final_drain_flow_inv cfg w (files_known w) (fresh_files w)
                files_known_emit_slot
                (fun s v H =>
                   files_known_frame w s (set_lastemitted v s)
                     eq_refl eq_refl H)
                (Z.to_nat (Z.of_nat (length tbl)
                           - lastemitted
                               (set_lastemitted (lastemitted st2 + 1) st2)))
                (set_lastemitted (lastemitted st2 + 1) st2)
                (files_known_frame w st2 _ eq_refl eq_refl K2)) as D.
  destruct (final_drain _ cfg w _) as [r|r|e r|]; simpl in D |- *;
    try exact D; try exact I; apply fresh_files_bye, (proj1 D).
Qed.

End FreshFiles.

Lemma main_text_fresh_files cfg w ends :
  gbl_frag cfg = FRAG_NEW ->
  outcome_inv (fresh_files w) (main_text cfg w ends).
Proof.
  intros F. unfold main_text.
  assert (E : forall n ws, fresh_files w (init_state n (existing w) ws)).
  { intros n ws. split; [constructor|]. intros p H. inversion H. }
  destruct (get_entries_text cfg (sel_file w) (sel_rest ends))
    as [[entries notes]|]; [|exact I].
  destruct (length entries =? 0)%nat; [apply E|].
  destruct (remove_dups cfg _) as [e|[tbl warnings]]; [apply E|].
  set (st := init_state _ _ _).
  assert (K : files_known w (set_trace (trace st ++ [OpenStream]) st)).
  { split; [split; [constructor|intros p H; inversion H]|].
    intros p. cbn. split; [now right|]. intros [H|H]; [inversion H|exact H]. }
  destruct (in_file w) as [lines|]; [|apply E].
  unfold open_out, frag_on. rewrite F.
  apply (reading_loop_outcome_inv cfg w tbl (files_known w)); auto.
  - intros s line. now apply files_known_step.
  - intros s. now apply files_known_finish.
  - intros s Ks. apply fresh_files_bye, (proj1 Ks).
  - intros s Ks. exact (proj1 Ks).
Qed.

(** With -fragc no file is opened that could be opened for reading when
    the run started, and no file is opened twice in the run, whatever the
    files hold and however the run ends: the program does not write over
    a file that its probe [fopen(temp_name,"r")] finds.  (A file that is
    there but cannot be opened for reading is not among [existing w]: the
    probe does not find it and the program writes over it.) *)
Theorem fragc_spares_readable_files cfg w ends :
  gbl_frag cfg = FRAG_NEW ->
  NoDup (opened_files (trace_of (main_text cfg w ends))) /\
  forall path,
    path ∈ opened_files (trace_of (main_text cfg w ends)) ->
    path ∉ existing w.
Proof.
  intros F. pose proof (main_text_fresh_files cfg w ends F) as H.
  destruct (main_text cfg w ends) as [c st|]; [exact H|].
  split; [constructor|]. intros p Hp. inversion Hp.
Qed.

Lemma fragc_spares_readable_files_witness :
  let cfg := fragc_cfg true in
  let w :=
    {| sel_file := ["A g1"; "B g2"; "C g1"];
       in_file := Some [">A"; ">B"; ">C"];
       existing := ["out_g9.fa"];
       can_write := fun _ => true |} in
  opened_files (trace_of (main_text cfg w lf_ended))
  = ["out_g1.fa"; "out_g2.fa"] /\
  NoDup (opened_files (trace_of (main_text cfg w lf_ended))) /\
  forall path,
    path ∈ opened_files (trace_of (main_text cfg w lf_ended)) ->
    path ∉ existing w.
Proof.
  intros cfg w. split; [by_computation|].
  apply (fragc_spares_readable_files cfg w lf_ended). reflexivity.
Defined.
